(** * chain_link_tools: the two operators of [operator.py]

    A shallow embedding of [AddBoneChain] (bones following a curve) and
    [CreateChainMeshArray] (mesh duplicates weighted to a bone chain), and
    the properties of the specification proved about it.

    Conventions of the embedding.
    - Python floats are read as exact rationals ([Qc]); rounding is not
      modelled, so "within floating tolerance" becomes exact equality.
    - World matrices are affine maps (a 3x3 linear part and an offset),
      which is what the host stores for objects.
    - Host objects (bones, vertex groups, vertices) are referred to by the
      key the code itself uses to fetch them: a name for bones and vertex
      groups, a position in the vertex table for vertices.
    - What the host does when a requested name is already taken is left
      open: the [Host] class only says that the name handed out is a free
      one, and is the requested one when that is free.  The host cuts the
      name asked for a bone to its length limit first; the values it gives
      the attributes of a new constraint are left open as well. *)

From Stdlib Require Import QArith Qcanon Field Ascii String.
From stdpp Require Import base numbers list strings gmap relations.

Open Scope Qc_scope.

(** ** Scalars and vectors ([mathutils.Vector]) *)

Definition half : Qc := Q2Qc (1 # 2).

Definition Qc_of_nat (n : nat) : Qc := Q2Qc (inject_Z (Z.of_nat n)).

Record Vector := Vec { vx : Qc; vy : Qc; vz : Qc }.

Definition vzero : Vector := Vec 0 0 0.

Definition vadd (u v : Vector) : Vector :=
  Vec (vx u + vx v) (vy u + vy v) (vz u + vz v).

Definition vsub (u v : Vector) : Vector :=
  Vec (vx u - vx v) (vy u - vy v) (vz u - vz v).

Definition vscale (k : Qc) (v : Vector) : Vector :=
  Vec (k * vx v) (k * vy v) (k * vz v).

Definition dot (u v : Vector) : Qc :=
  vx u * vx v + vy u * vy v + vz u * vz v.

Definition cross (u v : Vector) : Vector :=
  Vec (vy u * vz v - vz u * vy v)
      (vz u * vx v - vx u * vz v)
      (vx u * vy v - vy u * vx v).

(** ** Affine matrices ([mathutils.Matrix] as used for [matrix_world]) *)

Record Matrix := Mat { row1 : Vector; row2 : Vector; row3 : Vector; offs : Vector }.

Definition mat_identity : Matrix :=
  Mat (Vec 1 0 0) (Vec 0 1 0) (Vec 0 0 1) vzero.

(** The linear part alone, applied to a direction. *)
Definition mat_lin (M : Matrix) (v : Vector) : Vector :=
  Vec (dot (row1 M) v) (dot (row2 M) v) (dot (row3 M) v).

(** [M @ v] for a point [v]. *)
Definition mat_apply (M : Matrix) (v : Vector) : Vector :=
  vadd (mat_lin M v) (offs M).

Definition col1 (M : Matrix) : Vector := Vec (vx (row1 M)) (vx (row2 M)) (vx (row3 M)).
Definition col2 (M : Matrix) : Vector := Vec (vy (row1 M)) (vy (row2 M)) (vy (row3 M)).
Definition col3 (M : Matrix) : Vector := Vec (vz (row1 M)) (vz (row2 M)) (vz (row3 M)).

(** [A @ B]. *)
Definition mat_mul (A B : Matrix) : Matrix :=
  Mat (Vec (dot (row1 A) (col1 B)) (dot (row1 A) (col2 B)) (dot (row1 A) (col3 B)))
      (Vec (dot (row2 A) (col1 B)) (dot (row2 A) (col2 B)) (dot (row2 A) (col3 B)))
      (Vec (dot (row3 A) (col1 B)) (dot (row3 A) (col2 B)) (dot (row3 A) (col3 B)))
      (mat_apply A (offs B)).

Definition det (M : Matrix) : Qc := dot (row1 M) (cross (row2 M) (row3 M)).

(** [M.inverted()]: raises [ValueError] on a singular matrix, here [None]. *)
Definition inverted (M : Matrix) : option Matrix :=
  let d := det M in
  if decide (d = 0) then None
  else
    let c1 := vscale (/ d) (cross (row2 M) (row3 M)) in
    let c2 := vscale (/ d) (cross (row3 M) (row1 M)) in
    let c3 := vscale (/ d) (cross (row1 M) (row2 M)) in
    let L := Mat (Vec (vx c1) (vx c2) (vx c3))
                 (Vec (vy c1) (vy c2) (vy c3))
                 (Vec (vz c1) (vz c2) (vz c3)) vzero in
    Some (Mat (row1 L) (row2 L) (row3 L) (vsub vzero (mat_lin L (offs M)))).

(** ** Generated names *)

Definition digit_char (d : nat) : ascii :=
  ascii_of_nat (48 + d)%nat.

(** Decimal digits of [n], most significant first; [fuel] bounds the
    number of digits. *)
Fixpoint digits_go (fuel n : nat) (acc : string) : string :=
  match fuel with
  | O => acc
  | S f =>
      let acc' := String (digit_char (n `mod` 10)) acc in
      if decide (n `div` 10 = 0)%nat then acc' else digits_go f (n `div` 10) acc'
  end.

Definition str_of_nat (n : nat) : string := digits_go (S n) n EmptyString.

(** Python's ["{:03d}"] on a non-negative integer: at least three digits,
    padded with zeros on the left. *)
Definition fmt03 (n : nat) : string :=
  let s := str_of_nat n in
  match String.length s with
  | 1%nat => "00" +:+ s
  | 2%nat => "0" +:+ s
  | _ => s
  end.

(** ** Pose-bone constraints *)

Inductive ConstraintType := FOLLOW_PATH | COPY_LOCATION | TRACK_TO.

(** The attributes of a constraint that the operator assigns; an attribute
    that a constraint type does not have is never read. *)
Record Constraint := {
  ctype : ConstraintType;
  target : option string;
  subtarget : string;
  offset : Qc;
  use_curve_follow : bool;
  forward_axis : string;
  up_axis : string;
  use_target_z : bool
}.

(** ** Host interface

    Bones of an armature and vertex groups of a mesh are collections keyed
    by name.  When a new element is requested under a name, the host hands
    out a name that is not in use, and the requested one if it can
    ([unique_name]).

    The name asked for a bone is first cut to the host's length limit
    ([cut_name]); names of at most 63 bytes are within the limit, and a
    name the host makes unique from one within the limit is within the
    limit.  Which longer names are cut is not said: there are finitely
    many names of at most 63 bytes, so a host that always finds a free
    name, as [unique_name_fresh] has it, must leave some longer name as it
    is.  A vertex group is asked for under the name of a bone, which is
    within the limit already.

    A new constraint has the type asked for; the values of its other
    attributes are the host's ([new_constraint]). *)

Class Host := {
  unique_name : list string → string → string;
  unique_name_free : ∀ used s, s ∉ used → unique_name used s = s;
  unique_name_fresh : ∀ used s, unique_name used s ∉ used;
  cut_name : string → string;
  cut_name_short : ∀ s, (String.length s ≤ 63)%nat → cut_name s = s;
  cut_name_idemp : ∀ s, cut_name (cut_name s) = cut_name s;
  unique_name_fits :
    ∀ used s, cut_name s = s → cut_name (unique_name used s) = unique_name used s;
  new_constraint : ConstraintType → Constraint;
  new_constraint_type : ∀ t, ctype (new_constraint t) = t
}.

(** ** Outcome of an operator *)

Inductive Status := FINISHED | CANCELLED.

Inductive ReportType := ERROR_INVALID_INPUT | ERROR_INVALID_CONTEXT.

Definition Report : Type := ReportType * string.

Inductive Exn := ZeroDivisionError | ValueError | AttributeError.

(** A computation that returns or raises a Python exception. *)
Inductive Exec (A : Type) :=
| Ok (a : A)
| Raise (e : Exn).
Arguments Ok {A} a.
Arguments Raise {A} e.

Definition bind {A B} (m : Exec A) (k : A → Exec B) : Exec B :=
  match m with
  | Ok a => k a
  | Raise e => Raise e
  end.

Notation "x ←! m ; k" := (bind m (λ x, k))
  (at level 100, m at next level, right associativity).

(** Attribute access on a value that may be [None]. *)
Definition attr_of {A} (o : option A) : Exec A :=
  match o with
  | Some a => Ok a
  | None => Raise AttributeError
  end.

Definition inverted_exn (M : Matrix) : Exec Matrix :=
  match inverted M with
  | Some M' => Ok M'
  | None => Raise ValueError
  end.

(** [x / n] for a float [x] and an int [n]. *)
Definition py_div (x : Qc) (n : nat) : Exec Qc :=
  if decide (n = 0)%nat then Raise ZeroDivisionError else Ok (x / Qc_of_nat n).

(** A [for] loop whose body may raise. *)
Fixpoint for_each {A S} (body : S → A → Exec S) (l : list A) (s : S) : Exec S :=
  match l with
  | [] => Ok s
  | a :: l' => s' ←! body s a; for_each body l' s'
  end.

Inductive Mode := OBJECT | EDIT.

(** * AddBoneChain *)

Module AddBoneChain.

(** *** Scene data read or changed by the operator *)

Record Spline := { calc_length : Qc }.

Record Curve := { splines : list Spline; path_duration : nat }.

(** [bpy.data.objects] holds objects of every type; only a curve's data
    has splines. *)
Inductive ObData := CurveData (c : Curve) | OtherData.

Definition curve_of (d : ObData) : Exec Curve :=
  match d with
  | CurveData c => Ok c
  | OtherData => Raise AttributeError
  end.

Record EditBone := {
  eb_name : string;
  head : Vector;
  tail : Vector;
  parent : option string
}.

Record PoseBone := { pb_name : string; constraints : list Constraint }.

(** The active object, an armature (guaranteed by [poll]). *)
Record ArmatureObject := {
  ob_name : string;
  matrix_world : Matrix;
  edit_bones : list EditBone;
  pose_bones : list PoseBone;
  mode : Mode
}.

Record Context := {
  objects : gmap string ObData;
  active_object : ArmatureObject;
  cursor_location : Vector
}.

(** The operator's properties. *)
Record Operator := {
  bone_count : nat;
  bone_name : string;
  curve_enum : string
}.

(** *** Field updates *)

Definition set_head (v : Vector) (b : EditBone) : EditBone :=
  {| eb_name := eb_name b; head := v; tail := tail b; parent := parent b |}.

Definition set_tail (v : Vector) (b : EditBone) : EditBone :=
  {| eb_name := eb_name b; head := head b; tail := v; parent := parent b |}.

Definition set_parent (p : option string) (b : EditBone) : EditBone :=
  {| eb_name := eb_name b; head := head b; tail := tail b; parent := p |}.

Definition set_edit_bones (bs : list EditBone) (a : ArmatureObject) : ArmatureObject :=
  {| ob_name := ob_name a; matrix_world := matrix_world a; edit_bones := bs;
     pose_bones := pose_bones a; mode := mode a |}.

Definition set_pose_bones (ps : list PoseBone) (a : ArmatureObject) : ArmatureObject :=
  {| ob_name := ob_name a; matrix_world := matrix_world a; edit_bones := edit_bones a;
     pose_bones := ps; mode := mode a |}.

Definition set_mode (m : Mode) (a : ArmatureObject) : ArmatureObject :=
  {| ob_name := ob_name a; matrix_world := matrix_world a; edit_bones := edit_bones a;
     pose_bones := pose_bones a; mode := m |}.

Definition set_active_object (a : ArmatureObject) (ctx : Context) : Context :=
  {| objects := objects ctx; active_object := a; cursor_location := cursor_location ctx |}.

Definition set_target (t : option string) (c : Constraint) : Constraint :=
  {| ctype := ctype c; target := t; subtarget := subtarget c; offset := offset c;
     use_curve_follow := use_curve_follow c; forward_axis := forward_axis c;
     up_axis := up_axis c; use_target_z := use_target_z c |}.

Definition set_subtarget (n : string) (c : Constraint) : Constraint :=
  {| ctype := ctype c; target := target c; subtarget := n; offset := offset c;
     use_curve_follow := use_curve_follow c; forward_axis := forward_axis c;
     up_axis := up_axis c; use_target_z := use_target_z c |}.

Definition set_offset (x : Qc) (c : Constraint) : Constraint :=
  {| ctype := ctype c; target := target c; subtarget := subtarget c; offset := x;
     use_curve_follow := use_curve_follow c; forward_axis := forward_axis c;
     up_axis := up_axis c; use_target_z := use_target_z c |}.

Definition set_use_curve_follow (b : bool) (c : Constraint) : Constraint :=
  {| ctype := ctype c; target := target c; subtarget := subtarget c; offset := offset c;
     use_curve_follow := b; forward_axis := forward_axis c;
     up_axis := up_axis c; use_target_z := use_target_z c |}.

Definition set_forward_axis (a : string) (c : Constraint) : Constraint :=
  {| ctype := ctype c; target := target c; subtarget := subtarget c; offset := offset c;
     use_curve_follow := use_curve_follow c; forward_axis := a;
     up_axis := up_axis c; use_target_z := use_target_z c |}.

Definition set_up_axis (a : string) (c : Constraint) : Constraint :=
  {| ctype := ctype c; target := target c; subtarget := subtarget c; offset := offset c;
     use_curve_follow := use_curve_follow c; forward_axis := forward_axis c;
     up_axis := a; use_target_z := use_target_z c |}.

Definition set_use_target_z (b : bool) (c : Constraint) : Constraint :=
  {| ctype := ctype c; target := target c; subtarget := subtarget c; offset := offset c;
     use_curve_follow := use_curve_follow c; forward_axis := forward_axis c;
     up_axis := up_axis c; use_target_z := b |}.

(** *** Names *)

Definition get_bone_name (self : Operator) (i : nat) : string :=
  bone_name self +:+ "." +:+ fmt03 i.

Definition get_locator_name (self : Operator) (i : nat) : string :=
  bone_name self +:+ "." +:+ fmt03 i +:+ ".Locator".

Definition get_curve_object (self : Operator) (ctx : Context) : option ObData :=
  objects ctx !! curve_enum self.

(** *** The bone collections *)

Definition eb_names (bones : list EditBone) : list string := eb_name <$> bones.

Definition edit_bones_get (bones : list EditBone) (name : string) : option EditBone :=
  List.find (λ b, bool_decide (eb_name b = name)) bones.

(** Assignment to an attribute of the bone referred to by [name]. *)
Definition edit_bone_set (name : string) (f : EditBone → EditBone)
    (bones : list EditBone) : list EditBone :=
  (λ b, if decide (eb_name b = name) then f b else b) <$> bones.

Definition pose_bones_get (pose : list PoseBone) (name : string) : option PoseBone :=
  List.find (λ p, bool_decide (pb_name p = name)) pose.

(** [constraints.new] on the pose bone referred to by [name], with the
    attributes assigned afterwards already set in [c]. *)
Definition add_constraint (name : string) (c : Constraint)
    (pose : list PoseBone) : list PoseBone :=
  (λ p, if decide (pb_name p = name)
        then {| pb_name := pb_name p; constraints := constraints p ++ [c] |}
        else p) <$> pose.

(** *** Mode switches *)

Definition edit_mode_in (a : ArmatureObject) : ArmatureObject := set_mode EDIT a.

(** Leaving edit mode gives every bone a pose bone: the one it had, or a
    new one without constraints. *)
Definition sync_pose (bones : list EditBone) (pose : list PoseBone) : list PoseBone :=
  (λ b, match pose_bones_get pose (eb_name b) with
        | Some p => p
        | None => {| pb_name := eb_name b; constraints := [] |}
        end) <$> bones.

Definition edit_mode_out (a : ArmatureObject) : ArmatureObject :=
  set_mode OBJECT (set_pose_bones (sync_pose (edit_bones a) (pose_bones a)) a).

(** [curve_items] (lines 74-75): one item per object of type CURVE, its
    name as identifier and as label.  The items come in the order of the
    host's collection, here the order of the map. *)
Definition is_curve (d : ObData) : bool :=
  match d with
  | CurveData _ => true
  | OtherData => false
  end.

Definition curve_items (ctx : Context) : list (string * string * string) :=
  (λ ob, (fst ob, fst ob, EmptyString))
    <$> filter (λ ob, is_curve (snd ob) = true) (map_to_list (objects ctx)).

Section WithHost.
Context `{!Host}.

(** [arm.edit_bones.new(name)]: the host cuts the name to its length limit
    and makes it unique among the bones. *)
Definition edit_bones_new (bones : list EditBone) (name : string)
    : string * list EditBone :=
  let n := unique_name (eb_names bones) (cut_name name) in
  (n, bones ++ [ {| eb_name := n; head := vzero; tail := vzero; parent := None |} ]).

(** Body of the first loop (lines 120-128). *)
Definition create_link (self : Operator) (space : Matrix) (C : Vector) (L : Qc)
    (bones : list EditBone) (i : nat) : list EditBone :=
  let '(bone, bones) := edit_bones_new bones (get_bone_name self i) in
  let bones :=
    edit_bone_set bone
      (set_head (mat_apply space (vadd C (vscale (Qc_of_nat i) (Vec L 0 0))))) bones in
  let bones :=
    edit_bone_set bone
      (set_tail (mat_apply space (vadd C (vscale (Qc_of_nat (i + 1)) (Vec L 0 0))))) bones in
  let bones :=
    if decide (0 < i)%nat
    then edit_bone_set bone
           (set_parent (eb_name <$> edit_bones_get bones (get_bone_name self (i - 1)))) bones
    else bones in
  let '(locator, bones) := edit_bones_new bones (get_locator_name self i) in
  let bones := edit_bone_set locator (set_head (mat_apply space (Vec 0 0 0))) bones in
  edit_bone_set locator (set_tail (mat_apply space (Vec (L * half) 0 0))) bones.

(** Body of the second loop (lines 134-151). *)
Definition constrain_link (self : Operator) (arm_name : string) (curve : Curve)
    (pose : list PoseBone) (i : nat) : Exec (list PoseBone) :=
  let bone := pose_bones_get pose (get_bone_name self i) in
  let locator := pose_bones_get pose (get_locator_name self i) in
  locator ←! attr_of locator;
  let locator_follow := new_constraint FOLLOW_PATH in
  let locator_follow := set_target (Some (curve_enum self)) locator_follow in
  let locator_follow :=
    set_offset (Qc_of_nat (i * path_duration curve) / Qc_of_nat (bone_count self))
      locator_follow in
  let locator_follow := set_use_curve_follow true locator_follow in
  let locator_follow := set_forward_axis "TRACK_NEGATIVE_Y" locator_follow in
  let locator_follow := set_up_axis "UP_Z" locator_follow in
  let pose := add_constraint (pb_name locator) locator_follow pose in
  bone ←! attr_of bone;
  let bone_loc := new_constraint COPY_LOCATION in
  let bone_loc := set_target (Some arm_name) bone_loc in
  let bone_loc := set_subtarget (get_locator_name self i) bone_loc in
  let pose := add_constraint (pb_name bone) bone_loc pose in
  let bone_track := new_constraint TRACK_TO in
  let bone_track := set_target (Some arm_name) bone_track in
  let bone_track :=
    set_subtarget (get_locator_name self ((i + 1) `mod` bone_count self)) bone_track in
  let bone_track := set_use_target_z true bone_track in
  Ok (add_constraint (pb_name bone) bone_track pose).

Definition execute (self : Operator) (ctx : Context)
    : Exec (Status * list Report * Context) :=
  match get_curve_object self ctx with
  | None =>
      Ok (CANCELLED,
          [(ERROR_INVALID_INPUT, "Invalid curve object " +:+ curve_enum self)], ctx)
  | Some curve_obj =>
      curve ←! curve_of curve_obj;
      match splines curve with
      | [] =>
          Ok (CANCELLED,
              [(ERROR_INVALID_INPUT, "Curve object must have at least one spline")], ctx)
      | spline :: _ =>
          let spline_len := calc_length spline in
          let arm_obj := active_object ctx in
          let arm_obj := edit_mode_in arm_obj in
          space ←! inverted_exn (matrix_world arm_obj);
          let C := cursor_location ctx in
          L ←! py_div spline_len (bone_count self);
          let bones :=
            foldl (create_link self space C L) (edit_bones arm_obj)
                  (seq 0 (bone_count self)) in
          let arm_obj := edit_mode_out (set_edit_bones bones arm_obj) in
          pose ←! for_each (constrain_link self (ob_name arm_obj) curve)
                           (seq 0 (bone_count self)) (pose_bones arm_obj);
          Ok (FINISHED, [], set_active_object (set_pose_bones pose arm_obj) ctx)
      end
  end.

End WithHost.

End AddBoneChain.

(** * CreateChainMeshArray *)

Module CreateChainMeshArray.

(** *** Armature data *)

(** A bone of [arm.bones]; the collection is keyed by the bone's name, and
    [children] lists the names of the child bones in the host's order. *)
Record Bone := {
  head_local : Vector;
  tail_local : Vector;
  use_deform : bool;
  children : list string
}.

Record ArmatureObject := {
  arm_matrix_world : Matrix;
  bones : gmap string Bone
}.

Inductive ModifierType := ARMATURE | OTHER_MODIFIER.

Global Instance ModifierType_eq_dec : EqDecision ModifierType.
Proof. solve_decision. Defined.

Record Modifier := { mod_type : ModifierType; mod_object : option ArmatureObject }.

(** *** Edit-mesh data *)

(** Deform weights of a vertex: pairs of a vertex-group index and a weight. *)
Definition DVert : Type := list (nat * Qc).

Record BMVert := { co : Vector; v_select : bool; dvert : DVert }.

Record BMEdge := { e_verts : nat * nat; e_select : bool }.

Record BMFace := { f_verts : list nat; f_select : bool }.

Record BMesh := { verts : list BMVert; edges : list BMEdge; faces : list BMFace }.

(** A reference to an element of the mesh, by position in its table. *)
Inductive BMElem := BMVertRef (i : nat) | BMEdgeRef (i : nat) | BMFaceRef (i : nat).

Record MeshObject := {
  matrix_world : Matrix;
  modifiers : list Modifier;
  vertex_groups : list string;
  bm : BMesh
}.

Record Context := { active_object : option MeshObject }.

Record Operator := { rootbone_enum : string }.

(** *** Field updates *)

Definition set_co (p : Vector) (v : BMVert) : BMVert :=
  {| co := p; v_select := v_select v; dvert := dvert v |}.

Definition set_dvert (d : DVert) (v : BMVert) : BMVert :=
  {| co := co v; v_select := v_select v; dvert := d |}.

Definition set_v_select (b : bool) (v : BMVert) : BMVert :=
  {| co := co v; v_select := b; dvert := dvert v |}.

Definition set_verts (vs : list BMVert) (m : BMesh) : BMesh :=
  {| verts := vs; edges := edges m; faces := faces m |}.

Definition set_bm (b : BMesh) (o : MeshObject) : MeshObject :=
  {| matrix_world := matrix_world o; modifiers := modifiers o;
     vertex_groups := vertex_groups o; bm := b |}.

Definition set_vertex_groups (gs : list string) (o : MeshObject) : MeshObject :=
  {| matrix_world := matrix_world o; modifiers := modifiers o;
     vertex_groups := gs; bm := bm o |}.

(** *** [get_armature_object] (lines 160-165) *)

Definition get_armature_object (ctx : Context) : option ArmatureObject :=
  match active_object ctx with
  | None => None
  | Some ob =>
      match List.find (λ m, bool_decide (mod_type m = ARMATURE)) (modifiers ob) with
      | Some m => mod_object m
      | None => None
      end
  end.

(** *** The chain walk (lines 200-202)

    [chain = [rootbone]; while chain[-1].children: chain.append(chain[-1].children[0])].
    [fuel] bounds the number of bones visited; [None] stands for a walk that
    has not ended within the bound (or that met a name that is no bone). *)
Fixpoint walk_chain (arm : gmap string Bone) (fuel : nat) (name : string)
    : option (list (string * Bone)) :=
  match fuel with
  | O => None
  | S f =>
      match arm !! name with
      | None => None
      | Some b =>
          match children b with
          | [] => Some [(name, b)]
          | c :: _ => cons (name, b) <$> walk_chain arm f c
          end
      end
  end.

(** *** Deform weights *)

Definition dvert_get (idx : nat) (d : DVert) : option Qc :=
  snd <$> List.find (λ e, bool_decide (fst e = idx)) d.

(** The weight the host reads for a group: an absent entry counts as 0. *)
Definition weight (idx : nat) (d : DVert) : Qc := default 0 (dvert_get idx d).

(** [dvert[idx] = w]. *)
Fixpoint dvert_set (idx : nat) (w : Qc) (d : DVert) : DVert :=
  match d with
  | [] => [(idx, w)]
  | (j, x) :: d' =>
      if decide (j = idx) then (j, w) :: d' else (j, x) :: dvert_set idx w d'
  end.

(** Removing group [k] drops its weights and renumbers the later groups. *)
Definition dvert_remove_group (k : nat) (d : DVert) : DVert :=
  (λ e, (if decide (k < fst e)%nat then Nat.pred (fst e) else fst e, snd e))
    <$> filter (λ e, fst e ≠ k) d.

(** *** Vertex groups *)

Definition vertex_groups_get (groups : list string) (name : string) : option nat :=
  fst <$> list_find (λ g, g = name) groups.

Definition vertex_groups_remove (k : nat) (o : MeshObject) : MeshObject :=
  set_bm
    (set_verts ((λ v, set_dvert (dvert_remove_group k (dvert v)) v) <$> verts (bm o)) (bm o))
    (set_vertex_groups (delete k (vertex_groups o)) o).

(** *** Geometry *)

Definition selected_ids {A} (sel : A → bool) (l : list A) : list nat :=
  fst <$> filter (λ p, sel (snd p) = true) (zip (seq 0 (length l)) l).

(** Lines 222-226: selected faces, then edges, then vertices. *)
Definition selected_geom (m : BMesh) : list BMElem :=
  (BMFaceRef <$> selected_ids f_select (faces m))
  ++ (BMEdgeRef <$> selected_ids e_select (edges m))
  ++ (BMVertRef <$> selected_ids v_select (verts m)).

Definition vert_refs (geom : list BMElem) : list nat :=
  omap (λ e, match e with BMVertRef i => Some i | _ => None end) geom.

Definition edge_refs (geom : list BMElem) : list nat :=
  omap (λ e, match e with BMEdgeRef i => Some i | _ => None end) geom.

Definition face_refs (geom : list BMElem) : list nat :=
  omap (λ e, match e with BMFaceRef i => Some i | _ => None end) geom.

Definition edge_vert_ids (m : BMesh) (i : nat) : list nat :=
  match edges m !! i with
  | Some e => [fst (e_verts e); snd (e_verts e)]
  | None => []
  end.

Definition face_vert_ids (m : BMesh) (i : nat) : list nat :=
  match faces m !! i with
  | Some f => f_verts f
  | None => []
  end.

(** The entries of a table of [n] elements that [refs] names, in the order
    of the table: [bmesh.ops.duplicate] flags the elements of [geom] and
    then walks the tables of the mesh, whatever the order of [geom]. *)
Definition flagged (n : nat) (refs : list nat) : list nat :=
  filter (λ i, i ∈ refs) (seq 0 n).

(** Each entry once, at its first mention: a vertex is copied when it is
    first met and skipped afterwards. *)
Definition first_mentions (l : list nat) : list nat :=
  foldl (λ seen i, if decide (i ∈ seen) then seen else seen ++ [i]) [] l.

(** The vertices [bmesh.ops.duplicate] meets for [geom]: the flagged
    vertices in the order of the vertex table, then the vertices of the
    flagged edges in the order of the edge table, then those of the
    flagged faces in the order of the face table. *)
Definition raw_ids (m : BMesh) (geom : list BMElem) : list nat :=
  flagged (length (verts m)) (vert_refs geom)
  ++ (flagged (length (edges m)) (edge_refs geom) ≫= edge_vert_ids m)
  ++ (flagged (length (faces m)) (face_refs geom) ≫= face_vert_ids m).

(** The vertices [bmesh.ops.duplicate] copies for [geom], in the order in
    which it copies them.  When every vertex of a flagged edge or face is
    flagged itself, as selection in the host has it, this is the order of
    the vertex table. *)
Definition template_verts (m : BMesh) (geom : list BMElem) : list nat :=
  filter (λ i, i < length (verts m))%nat (first_mentions (raw_ids m geom)).

(** Position of the copy of vertex [v]. *)
Definition remap (base : nat) (ids : list nat) (v : nat) : nat :=
  match list_find (λ i, i = v) ids with
  | Some (k, _) => base + k
  | None => v
  end.

(** [bmesh.ops.duplicate(bm, geom=geom)]: the copies are appended to the
    tables in the order in which they are made, a vertex copy with the
    coordinates and deform weights of its original; the host does not
    copy the selection flag, so the copies are not selected.  An edge or a
    face is copied when [geom] lists it.  The result lists the new
    elements. *)
Definition duplicate (m : BMesh) (geom : list BMElem) : BMesh * list BMElem :=
  let ids := template_verts m geom in
  let base := length (verts m) in
  let new_verts := set_v_select false <$> omap (λ i, verts m !! i) ids in
  let new_edges :=
    omap (λ i, (λ e, {| e_verts := (remap base ids (fst (e_verts e)),
                                    remap base ids (snd (e_verts e)));
                        e_select := false |}) <$> edges m !! i)
         (flagged (length (edges m)) (edge_refs geom)) in
  let new_faces :=
    omap (λ i, (λ f, {| f_verts := remap base ids <$> f_verts f;
                        f_select := false |}) <$> faces m !! i)
         (flagged (length (faces m)) (face_refs geom)) in
  ({| verts := verts m ++ new_verts;
      edges := edges m ++ new_edges;
      faces := faces m ++ new_faces |},
   (BMVertRef <$> seq base (length new_verts))
   ++ (BMEdgeRef <$> seq (length (edges m)) (length new_edges))
   ++ (BMFaceRef <$> seq (length (faces m)) (length new_faces))).

(** [bmesh.ops.translate(bm, vec=vec, space=space, verts=vs)]: the host
    moves each vertex to [space^-1 @ (T_vec @ (space @ co))]; when [space]
    cannot be inverted its inverse is taken to be the zero matrix. *)
Definition translate (m : BMesh) (vec : Vector) (space : Matrix) (vs : list nat) : BMesh :=
  let move p :=
    match inverted space with
    | Some imat => mat_apply imat (vadd (mat_apply space p) vec)
    | None => vzero
    end in
  set_verts (foldl (λ l i, alter (λ v, set_co (move (co v)) v) i l) (verts m) vs) m.

(** Lines 214-218. *)
Definition assign_bone_verts (bone_name : string) (vs : list nat) (o : MeshObject)
    : Exec MeshObject :=
  vg_index ←! attr_of (vertex_groups_get (vertex_groups o) bone_name);
  Ok (set_bm
        (set_verts
           (foldl (λ l i, alter (λ v, set_dvert (dvert_set vg_index 1 (dvert v)) v) i l)
                  (verts (bm o)) vs)
           (bm o)) o).

Definition midpoint (b : Bone) : Vector :=
  vscale half (vadd (head_local b) (tail_local b)).

(** [rootbone_items] (lines 173-176): one item per deform bone of the
    armature found through the modifiers, its name as identifier and as
    label; [None] when there is no such armature.  The items come in the
    order of the host's collection, here the order of the map. *)
Definition rootbone_items (ctx : Context) : option (list (string * string * string)) :=
  match get_armature_object ctx with
  | Some arm_obj =>
      Some ((λ b, (fst b, fst b, EmptyString))
              <$> filter (λ b, use_deform (snd b) = true) (map_to_list (bones arm_obj)))
  | None => None
  end.

Section WithHost.
Context `{!Host}.

Definition vertex_groups_new (name : string) (o : MeshObject) : MeshObject :=
  set_vertex_groups (vertex_groups o ++ [unique_name (vertex_groups o) name]) o.

(** Body of the loop of lines 204-208. *)
Definition recreate_group (o : MeshObject) (bone : string * Bone) : MeshObject :=
  let o :=
    match vertex_groups_get (vertex_groups o) (fst bone) with
    | Some k => vertex_groups_remove k o
    | None => o
    end in
  vertex_groups_new (fst bone) o.

(** Body of the loop of lines 229-236. *)
Definition replicate_link (bone_space : Matrix) (geom : list BMElem) (p0 : Vector)
    (o : MeshObject) (bone : string * Bone) : Exec MeshObject :=
  let '(m, dupli_geom) := duplicate (bm o) geom in
  let dupli_verts := vert_refs dupli_geom in
  let pi := midpoint (snd bone) in
  let m := translate m (vsub pi p0) bone_space dupli_verts in
  assign_bone_verts (fst bone) dupli_verts (set_bm m o).

(** Lines 204-247, once the chain is known. *)
Definition replicate (arm_obj : ArmatureObject) (chain : list (string * Bone))
    (mesh_obj : MeshObject) : Exec MeshObject :=
  let mesh_obj := foldl recreate_group mesh_obj chain in
  imat ←! inverted_exn (matrix_world mesh_obj);
  let bone_space := mat_mul imat (arm_matrix_world arm_obj) in
  let geom := selected_geom (bm mesh_obj) in
  match chain with
  | [] => Ok mesh_obj
  | root :: rest =>
      let p0 := midpoint (snd root) in
      mesh_obj ←! for_each (replicate_link bone_space geom p0) rest mesh_obj;
      assign_bone_verts (fst root) (vert_refs geom) mesh_obj
  end.

(** [execute] (lines 187-247).  [None] when the chain walk has not ended
    within [fuel] bones. *)
Definition execute (fuel : nat) (self : Operator) (ctx : Context)
    : option (Exec (Status * list Report * Context)) :=
  match get_armature_object ctx with
  | None =>
      Some (Ok (CANCELLED,
                [(ERROR_INVALID_CONTEXT, "Could not find armature modifier or object")],
                ctx))
  | Some arm_obj =>
      let arm := bones arm_obj in
      match arm !! rootbone_enum self with
      | None =>
          Some (Ok (CANCELLED,
                    [(ERROR_INVALID_CONTEXT,
                      "Could not find root bone " +:+ rootbone_enum self)],
                    ctx))
      | Some _ =>
          chain ← walk_chain arm fuel (rootbone_enum self);
          Some (mesh_obj ←! attr_of (active_object ctx);
                mesh_obj ←! replicate arm_obj chain mesh_obj;
                Ok (FINISHED, [], {| active_object := Some mesh_obj |}))
      end
  end.

End WithHost.

End CreateChainMeshArray.

(** * Vocabulary of the statements *)

(** ** Reading a generated numeral back *)

(** Reading a decimal numeral back. *)
Definition digit_val (c : ascii) : option nat :=
  let n := nat_of_ascii c in
  if decide (48 ≤ n ∧ n ≤ 57)%nat then Some (n - 48)%nat else None.

Fixpoint parse_go (acc : nat) (s : string) : option nat :=
  match s with
  | EmptyString => Some acc
  | String c s' =>
      match digit_val c with
      | Some d => parse_go (10 * acc + d) s'
      | None => None
      end
  end.

(** The number written by the leading digits of [s]. *)
Fixpoint parse_prefix (acc : nat) (s : string) : nat :=
  match s with
  | EmptyString => acc
  | String c s' =>
      match digit_val c with
      | Some d => parse_prefix (10 * acc + d) s'
      | None => acc
      end
  end.

(** ** A host to run the operators on

    It cuts a name to 63 bytes, and replaces a taken name by a spare one,
    made of tildes and longer than every name of the collection; spare
    names are the one kind of name over 63 bytes it leaves as it is.  A
    new constraint has empty or zero attributes, but for the axes of a
    FOLLOW_PATH and the up axis of a TRACK_TO. *)

(** The first [n] bytes of [s]. *)
Fixpoint string_take (n : nat) (s : string) : string :=
  match n, s with
  | Datatypes.S n', String c s' => String c (string_take n' s')
  | _, _ => EmptyString
  end.

Fixpoint tildes (n : nat) : string :=
  match n with
  | O => EmptyString
  | Datatypes.S n' => String "~" (tildes n')
  end.

Fixpoint all_tildes (s : string) : bool :=
  match s with
  | EmptyString => true
  | String c s' => bool_decide (c = "~"%char) && all_tildes s'
  end.

Definition longest (used : list string) : nat :=
  foldr (λ s n, String.length s `max` n) 0%nat used.

Definition simple_unique (used : list string) (s : string) : string :=
  if decide (s ∈ used) then tildes (Datatypes.S (longest used)) else s.

Definition simple_cut (s : string) : string :=
  if all_tildes s then s else string_take 63 s.

Definition simple_new_constraint (t : ConstraintType) : Constraint :=
  {| ctype := t; target := None; subtarget := EmptyString; offset := 0;
     use_curve_follow := false;
     forward_axis := match t with FOLLOW_PATH => "FORWARD_Y" | _ => EmptyString end;
     up_axis := match t with
                | FOLLOW_PATH => "UP_Z"
                | TRACK_TO => "UP_Y"
                | COPY_LOCATION => EmptyString
                end;
     use_target_z := false |}.

Lemma simple_unique_free used s : s ∉ used → simple_unique used s = s.
Proof. intros Hs. unfold simple_unique. by rewrite decide_False. Qed.

Lemma length_tildes n : String.length (tildes n) = n.
Proof. induction n as [|n IH]; [done|]. cbn. by rewrite IH. Qed.

Lemma longest_bound used s : s ∈ used → (String.length s ≤ longest used)%nat.
Proof.
  induction used as [|a used IH]; [by intros ?%elem_of_nil|].
  cbn [longest foldr]. fold (longest used).
  intros [->|Hin]%elem_of_cons; [lia|]. apply IH in Hin. lia.
Qed.

Lemma simple_unique_fresh used s : simple_unique used s ∉ used.
Proof.
  unfold simple_unique. destruct (decide (s ∈ used)); [|done].
  intros Hin%longest_bound. rewrite length_tildes in Hin. lia.
Qed.

Lemma string_take_all n s : (String.length s ≤ n)%nat → string_take n s = s.
Proof.
  revert n. induction s as [|c s IH]; intros [|n] Hn; cbn in *; try done; try lia.
  f_equal. apply IH. lia.
Qed.

Lemma length_string_take n s : (String.length (string_take n s) ≤ n)%nat.
Proof.
  revert s. induction n as [|n IH]; intros [|c s]; cbn; try lia.
  specialize (IH s). lia.
Qed.

Lemma all_tildes_tildes n : all_tildes (tildes n) = true.
Proof. induction n as [|n IH]; [done|]. cbn. by rewrite IH. Qed.

Lemma simple_cut_short s : (String.length s ≤ 63)%nat → simple_cut s = s.
Proof.
  intros Hs. unfold simple_cut. destruct (all_tildes s); [done|]. by apply string_take_all.
Qed.

Lemma simple_cut_idemp s : simple_cut (simple_cut s) = simple_cut s.
Proof.
  unfold simple_cut. destruct (all_tildes s) eqn:Hs; [by rewrite Hs|].
  destruct (all_tildes (string_take 63 s)); [done|].
  apply string_take_all, length_string_take.
Qed.

Lemma simple_unique_fits used s :
  simple_cut s = s → simple_cut (simple_unique used s) = simple_unique used s.
Proof.
  intros Hs. unfold simple_unique. destruct (decide (s ∈ used)); [|done].
  unfold simple_cut. by rewrite all_tildes_tildes.
Qed.

Lemma simple_new_constraint_type t : ctype (simple_new_constraint t) = t.
Proof. done. Qed.

Definition simple_host : Host :=
  {| unique_name := simple_unique;
     unique_name_free := simple_unique_free;
     unique_name_fresh := simple_unique_fresh;
     cut_name := simple_cut;
     cut_name_short := simple_cut_short;
     cut_name_idemp := simple_cut_idemp;
     unique_name_fits := simple_unique_fits;
     new_constraint := simple_new_constraint;
     new_constraint_type := simple_new_constraint_type |}.

Module AddBoneChainProps.
Import AddBoneChain.

Definition generated_names (self : Operator) (N : nat) : list string :=
  seq 0 N ≫= λ i, [get_bone_name self i; get_locator_name self i].

(** What the first loop appends when every requested name is free. *)
Definition fresh_main (self : Operator) (space : Matrix) (C : Vector) (L : Qc)
    (i : nat) : EditBone :=
  {| eb_name := get_bone_name self i;
     head := mat_apply space (vadd C (vscale (Qc_of_nat i) (Vec L 0 0)));
     tail := mat_apply space (vadd C (vscale (Qc_of_nat (i + 1)) (Vec L 0 0)));
     parent := if decide (0 < i)%nat then Some (get_bone_name self (i - 1)) else None |}.

Definition fresh_locator (self : Operator) (space : Matrix) (L : Qc) (i : nat) : EditBone :=
  {| eb_name := get_locator_name self i;
     head := mat_apply space (Vec 0 0 0);
     tail := mat_apply space (Vec (L * half) 0 0);
     parent := None |}.

Definition fresh_links (self : Operator) (space : Matrix) (C : Vector) (L : Qc)
    (N : nat) : list EditBone :=
  seq 0 N ≫= λ i, [fresh_main self space C L i; fresh_locator self space L i].

Section WithHost.
Context `{!Host}.

(** What one pass of the first loop appends, for any host. *)
Definition main_bone (self : Operator) (space : Matrix) (C : Vector) (L : Qc)
    (names : list string) (i : nat) : EditBone :=
  let n := unique_name names (cut_name (get_bone_name self i)) in
  {| eb_name := n;
     head := mat_apply space (vadd C (vscale (Qc_of_nat i) (Vec L 0 0)));
     tail := mat_apply space (vadd C (vscale (Qc_of_nat (i + 1)) (Vec L 0 0)));
     parent :=
       if decide (0 < i)%nat
       then (if decide (get_bone_name self (i - 1) ∈ names ++ [n])
             then Some (get_bone_name self (i - 1)) else None)
       else None |}.

Definition locator_bone (self : Operator) (space : Matrix) (L : Qc)
    (names : list string) (i : nat) : EditBone :=
  {| eb_name := unique_name names (cut_name (get_locator_name self i));
     head := mat_apply space (Vec 0 0 0);
     tail := mat_apply space (Vec (L * half) 0 0);
     parent := None |}.

(** The constraints of lines 137-151: the host's new constraint of the
    type, with the attributes the operator assigns. *)
Definition follow_path_of (self : Operator) (curve : Curve) (i : nat) : Constraint :=
  set_up_axis "UP_Z"
    (set_forward_axis "TRACK_NEGATIVE_Y"
       (set_use_curve_follow true
          (set_offset (Qc_of_nat (i * path_duration curve) / Qc_of_nat (bone_count self))
             (set_target (Some (curve_enum self)) (new_constraint FOLLOW_PATH))))).

Definition copy_location_of (self : Operator) (arm_name : string) (i : nat) : Constraint :=
  set_subtarget (get_locator_name self i)
    (set_target (Some arm_name) (new_constraint COPY_LOCATION)).

Definition track_to_of (self : Operator) (arm_name : string) (i : nat) : Constraint :=
  set_use_target_z true
    (set_subtarget (get_locator_name self ((i + 1) `mod` bone_count self))
       (set_target (Some arm_name) (new_constraint TRACK_TO))).

End WithHost.

Definition constraints_of (pose : list PoseBone) (name : string)
    : option (list Constraint) :=
  constraints <$> pose_bones_get pose name.

Definition bone_names_free (self : Operator) (a : ArmatureObject) : Prop :=
  ∀ n, n ∈ generated_names self (bone_count self) → n ∉ eb_names (edit_bones a).


Definition chain_built (self : Operator) (a a' : ArmatureObject) : Prop :=
  ∃ created,
    edit_bones a' = edit_bones a ++ created
    ∧ length created = (2 * bone_count self)%nat
    ∧ ∀ i, (i < bone_count self)%nat →
        ∃ b l,
          created !! (2 * i)%nat = Some b
          ∧ created !! (2 * i + 1)%nat = Some l
          ∧ eb_name b = get_bone_name self i
          ∧ eb_name l = get_locator_name self i
          ∧ parent b = (if decide (0 < i)%nat
                        then Some (get_bone_name self (i - 1)) else None)
          ∧ ((0 < i)%nat →
             edit_bones_get (edit_bones a') (get_bone_name self (i - 1))
             = created !! (2 * (i - 1))%nat).

(** The bones of the run, by position of creation: the [i]-th pass appends a
    main bone and then its locator. *)
Definition bones_placed (self : Operator) (ctx ctx' : Context) : Prop :=
  ∃ curve spline rest space created,
    get_curve_object self ctx = Some (CurveData curve)
    ∧ splines curve = spline :: rest
    ∧ inverted (matrix_world (active_object ctx)) = Some space
    ∧ edit_bones (active_object ctx') = edit_bones (active_object ctx) ++ created
    ∧ let L := calc_length spline / Qc_of_nat (bone_count self) in
      let C := cursor_location ctx in
      ∀ i, (i < bone_count self)%nat →
        ∃ b l,
          created !! (2 * i)%nat = Some b
          ∧ created !! (2 * i + 1)%nat = Some l
          ∧ head b = mat_apply space (vadd C (Vec (Qc_of_nat i * L) 0 0))
          ∧ tail b = mat_apply space (vadd C (Vec (Qc_of_nat (i + 1) * L) 0 0))
          ∧ head l = mat_apply space vzero
          ∧ tail l = mat_apply space (Vec (L * half) 0 0).

(** The run has built its bones with link length [len / N]. *)
Definition link_length_of (H : Host) (self : Operator) (ctx ctx' : Context) (len : Qc)
    : Prop :=
  ∃ space L,
    inverted (matrix_world (active_object ctx)) = Some space
    ∧ L = len / Qc_of_nat (bone_count self)
    ∧ L * Qc_of_nat (bone_count self) = len
    ∧ edit_bones (active_object ctx')
      = foldl (create_link self space (cursor_location ctx) L)
              (edit_bones (active_object ctx)) (seq 0 (bone_count self)).

(** The total arc length of a curve, over all its splines. *)
Definition curve_arc_length (curve : Curve) : Qc :=
  foldr Qcplus 0 (calc_length <$> splines curve).


(** ** Scenes to run the operator on *)

Definition demo_curve : Curve :=
  {| splines := [ {| calc_length := Q2Qc 6 |} ]; path_duration := 100 |}.

(** A curve of two splines, of lengths 3 and 5. *)
Definition two_spline_curve : Curve :=
  {| splines := [ {| calc_length := Q2Qc 3 |}; {| calc_length := Q2Qc 5 |} ];
     path_duration := 100 |}.

Definition demo_armature : ArmatureObject :=
  {| ob_name := "Armature"; matrix_world := mat_identity;
     edit_bones := [ {| eb_name := "Root"; head := vzero; tail := Vec 0 0 1;
                        parent := None |} ];
     pose_bones := [ {| pb_name := "Root"; constraints := [] |} ];
     mode := OBJECT |}.

Definition demo_ctx : Context :=
  {| objects := {[ "Curve" := CurveData demo_curve;
                   "Two" := CurveData two_spline_curve;
                   "Empty" := CurveData {| splines := []; path_duration := 100 |} ]};
     active_object := demo_armature;
     cursor_location := Vec 1 0 0 |}.

Definition demo_op : Operator :=
  {| bone_count := 3; bone_name := "Chain"; curve_enum := "Curve" |}.

Definition two_spline_op : Operator :=
  {| bone_count := 1; bone_name := "Chain"; curve_enum := "Two" |}.

Definition empty_curve_op : Operator :=
  {| bone_count := 3; bone_name := "Chain"; curve_enum := "Empty" |}.

(** The scene left by a run (the scene itself when the run raises). *)
Definition scene_after (H : Host) (self : Operator) (ctx : Context) : Context :=
  match execute self ctx with
  | Ok (_, _, ctx') => ctx'
  | Raise _ => ctx
  end.

Definition demo_ctx_1 : Context := scene_after simple_host demo_op demo_ctx.

(** The operator invoked a second time with the same properties. *)
Definition demo_ctx_2 : Context := scene_after simple_host demo_op demo_ctx_1.

Definition two_spline_ctx_1 : Context := scene_after simple_host two_spline_op demo_ctx.

(** The bones of the run as they lie in world space: link [i] goes from
    [cursor + i*L] to [cursor + (i+1)*L] along the x axis, each link starts
    where the one before ends, and the last one ends at the length of the
    first spline from the cursor. *)
Definition chain_in_world (self : Operator) (ctx ctx' : Context) : Prop :=
  ∃ curve spline rest created,
    get_curve_object self ctx = Some (CurveData curve)
    ∧ splines curve = spline :: rest
    ∧ edit_bones (active_object ctx') = edit_bones (active_object ctx) ++ created
    ∧ let M := matrix_world (active_object ctx) in
      let C := cursor_location ctx in
      let N := bone_count self in
      let L := calc_length spline / Qc_of_nat N in
      (∀ i, (i < N)%nat →
         ∃ b, created !! (2 * i)%nat = Some b
              ∧ mat_apply M (head b) = vadd C (Vec (Qc_of_nat i * L) 0 0)
              ∧ mat_apply M (tail b) = vadd C (Vec (Qc_of_nat (i + 1) * L) 0 0))
      ∧ (∀ i b b', (i + 1 < N)%nat →
           created !! (2 * i)%nat = Some b → created !! (2 * (i + 1))%nat = Some b' →
           tail b = head b')
      ∧ (∃ b, created !! (2 * (N - 1))%nat = Some b
              ∧ mat_apply M (tail b) = vadd C (Vec (calc_length spline) 0 0)).

(** The constraints after a run, whatever names were taken: the pose bone
    that carries a generated name has the new constraints, which are the
    host's new constraints with the operator's assignments, after those it
    had, and the other pose bones have the constraints they had. *)
Definition constraints_appended `{!Host} (self : Operator) (curve : Curve)
    (a a' : ArmatureObject) : Prop :=
  let old n := default [] (constraints_of (pose_bones a) n) in
  (∀ i, (i < bone_count self)%nat →
     constraints_of (pose_bones a') (get_locator_name self i)
     = Some (old (get_locator_name self i) ++ [follow_path_of self curve i])
     ∧ constraints_of (pose_bones a') (get_bone_name self i)
       = Some (old (get_bone_name self i)
               ++ [copy_location_of self (ob_name a) i; track_to_of self (ob_name a) i]))
  ∧ (∀ m, m ∉ generated_names self (bone_count self) →
       m ∈ eb_names (edit_bones a') →
       constraints_of (pose_bones a') m = Some (old m)).

(** A scene with an object that is no curve. *)
Definition mixed_ctx : Context :=
  {| objects := {[ "Curve" := CurveData demo_curve; "Cube" := OtherData ]};
     active_object := demo_armature;
     cursor_location := vzero |}.

Definition cube_op : Operator :=
  {| bone_count := 3; bone_name := "Chain"; curve_enum := "Cube" |}.

Definition missing_op : Operator :=
  {| bone_count := 3; bone_name := "Chain"; curve_enum := "Nothing" |}.


(** The parents after a run, whatever names were taken: the first main
    bone has none, every other main bone has the name generated for the
    link before it, and a bone of that name exists; locators have none. *)
Definition parents_set (self : Operator) (a a' : ArmatureObject) : Prop :=
  ∃ created,
    edit_bones a' = edit_bones a ++ created
    ∧ ∀ i, (i < bone_count self)%nat →
        ∃ b l,
          created !! (2 * i)%nat = Some b
          ∧ created !! (2 * i + 1)%nat = Some l
          ∧ parent b = (if decide (0 < i)%nat
                        then Some (get_bone_name self (i - 1)) else None)
          ∧ parent l = None
          ∧ ((0 < i)%nat → get_bone_name self (i - 1) ∈ eb_names (edit_bones a')).

End AddBoneChainProps.

Module CreateChainMeshArrayProps.
Import CreateChainMeshArray.

(** [c] is listed among the children of the bone named [a]. *)
Definition child_of (arm : gmap string Bone) (a c : string) : Prop :=
  ∃ b, arm !! a = Some b ∧ c ∈ children b.

(** No bone is its own descendant. *)
Definition acyclic (arm : gmap string Bone) : Prop :=
  ∀ a, ¬ tc (child_of arm) a a.

(** Every child listed is a bone of the armature. *)
Definition children_closed (arm : gmap string Bone) : Prop :=
  ∀ a c, child_of arm a c → is_Some (arm !! c).

(** The sequence "start at the root, append the first child until a bone
    has no children", as a relation. *)
Inductive first_child_path (arm : gmap string Bone)
    : string → list (string * Bone) → Prop :=
| fcp_last n b :
    arm !! n = Some b → children b = [] → first_child_path arm n [(n, b)]
| fcp_next n b c cs rest :
    arm !! n = Some b → children b = c :: cs →
    first_child_path arm c rest → first_child_path arm n ((n, b) :: rest).

(** ** Meshes *)

(** Every deform weight refers to a group index below [g]. *)
Definition weights_below (g : nat) (vs : list BMVert) : Prop :=
  Forall (λ v, Forall (λ e, (fst e < g)%nat) (dvert v)) vs.

(** Deform weights refer to vertex groups of the object. *)
Definition weights_wf (o : MeshObject) : Prop :=
  weights_below (length (vertex_groups o)) (verts (bm o)).

(** Edges and faces refer to vertices of the mesh. *)
Definition mesh_wf (m : BMesh) : Prop :=
  Forall (λ e, (fst (e_verts e) < length (verts m))%nat
               ∧ (snd (e_verts e) < length (verts m))%nat) (edges m)
  ∧ Forall (λ f, Forall (λ i, (i < length (verts m))%nat) (f_verts f)) (faces m).

(** Same coordinates and selection, vertex by vertex. *)
Definition same_shape (V V' : list BMVert) : Prop :=
  Forall2 (λ v v', co v = co v' ∧ v_select v = v_select v') V V'.

(** References to elements of the mesh. *)
Definition geom_valid (m : BMesh) (geom : list BMElem) : Prop :=
  Forall (λ i, (i < length (verts m))%nat) (vert_refs geom)
  ∧ Forall (λ i, (i < length (edges m))%nat) (edge_refs geom)
  ∧ Forall (λ i, (i < length (faces m))%nat) (face_refs geom).

(** Where [bmesh.ops.translate] puts a point. *)
Definition move_point (space : Matrix) (vec : Vector) (p : Vector) : Vector :=
  match inverted space with
  | Some imat => mat_apply imat (vadd (mat_apply space p) vec)
  | None => vzero
  end.

(** The copy of [v] made for the bone whose group has index [idx]. *)
Definition dup_vert (mv : Vector → Vector) (idx : nat) (v : BMVert) : BMVert :=
  set_dvert (dvert_set idx 1 (dvert v)) (set_co (mv (co v)) (set_v_select false v)).

Definition dup_verts (V : list BMVert) (T : list nat) (mv : Vector → Vector)
    (idx : nat) : list BMVert :=
  dup_vert mv idx <$> omap (λ i, V !! i) T.


(** The copies made for the bones of [rest], the first of which has the
    group of index [g]. *)
Fixpoint expected_dups (V : list BMVert) (T : list nat) (S : Matrix) (p0 : Vector)
    (g : nat) (rest : list (string * Bone)) : list BMVert :=
  match rest with
  | [] => []
  | bone :: rest' =>
      dup_verts V T (move_point S (vsub (midpoint (snd bone)) p0)) g
      ++ expected_dups V T S p0 (Datatypes.S g) rest'
  end.

(** The groups of the mesh that are not named after a bone of the chain. *)
Definition kept_groups (chain : list (string * Bone)) (o : MeshObject) : list string :=
  filter (λ g, g ∉ chain.*1) (vertex_groups o).

(** Position of vertex [k] of the copy made for bone [i ≥ 1] of the chain:
    the copies follow the [n0] vertices the mesh had, [K] vertices each. *)
Definition dup_index (n0 K i k : nat) : nat := (n0 + (i - 1) * K + k)%nat.

(** What the operator has done to the mesh [o0] for the chain: vertex
    count, vertex groups, weights of the copies in the groups of the chain,
    weights of the template, and the place of the root assignment. *)
Definition replicated (chain : list (string * Bone)) (o0 o' : MeshObject) : Prop :=
  let geom := selected_geom (bm o0) in
  let K := length (template_verts (bm o0) geom) in
  let n0 := length (verts (bm o0)) in
  let g0 := length (kept_groups chain o0) in
  length (verts (bm o')) = (n0 + (length chain - 1) * K)%nat
  ∧ vertex_groups o' = kept_groups chain o0 ++ chain.*1
  ∧ (∀ j name, chain.*1 !! j = Some name →
       vertex_groups_get (vertex_groups o') name = Some (g0 + j)%nat)
  ∧ (∀ i k v, (1 ≤ i < length chain)%nat → (k < K)%nat →
       verts (bm o') !! dup_index n0 K i k = Some v →
       ∀ j, (j < length chain)%nat →
         weight (g0 + j) (dvert v) = if decide (j = i) then 1 else 0)
  ∧ (∀ t, t ∈ vert_refs geom →
       ∃ v, verts (bm o') !! t = Some v ∧ weight g0 (dvert v) = 1)
  ∧ (∃ o_mid root,
       head chain = Some root
       ∧ length (verts (bm o_mid)) = (n0 + (length chain - 1) * K)%nat
       ∧ Forall (λ v, weight g0 (dvert v) = 0) (verts (bm o_mid))
       ∧ assign_bone_verts (fst root) (vert_refs geom) o_mid = Ok o').

(** The copies carry weight in no group but their own. *)
Definition exclusive (chain : list (string * Bone)) (o0 o' : MeshObject) : Prop :=
  let geom := selected_geom (bm o0) in
  let K := length (template_verts (bm o0) geom) in
  let n0 := length (verts (bm o0)) in
  let g0 := length (kept_groups chain o0) in
  ∀ i k v g, (1 ≤ i < length chain)%nat → (k < K)%nat →
    verts (bm o') !! dup_index n0 K i k = Some v →
    g ≠ (g0 + i)%nat → weight g (dvert v) = 0.






(** A rank that grows from every bone to its children. *)
Definition ranked (arm : gmap string Bone) (rank : string → nat) : Prop :=
  map_Forall (λ a b, Forall (λ c, rank a < rank c)%nat (children b)) arm.

Definition children_present (arm : gmap string Bone) : Prop :=
  map_Forall (λ _ b, Forall (λ c, is_Some (arm !! c)) (children b)) arm.

(** ** An armature to run the operator on

    Root has the children A and Side, in this order; A has the child B. *)

Definition demo_bone (h t : Vector) (cs : list string) : Bone :=
  {| head_local := h; tail_local := t; use_deform := true; children := cs |}.

Definition demo_bones : gmap string Bone :=
  {[ "Root" := demo_bone (Vec 0 0 0) (Vec 0 (Q2Qc 2) 0) ["A"; "Side"];
     "A" := demo_bone (Vec 0 (Q2Qc 2) 0) (Vec 0 (Q2Qc 4) 0) ["B"];
     "B" := demo_bone (Vec 0 (Q2Qc 4) 0) (Vec 0 (Q2Qc 6) 0) [];
     "Side" := demo_bone (Vec 0 (Q2Qc 2) 0) (Vec (Q2Qc 2) (Q2Qc 2) 0) [] ]}.

Definition demo_rank (s : string) : nat :=
  if decide (s = "Root") then 0 else if decide (s = "B") then 2 else 1.

Definition demo_chain : list (string * Bone) :=
  default [] (walk_chain demo_bones 4 "Root").

(** ** A mesh to run the operator on

    Two selected vertices joined by a selected edge and one vertex that is
    not selected; the groups "Extra" and "A" exist, the first selected
    vertex has weight 1/2 in "Extra", the unselected one weight 1 in "A".
    The mesh is deformed by the armature of [demo_bones]. *)

Definition demo_arm_obj : ArmatureObject :=
  {| arm_matrix_world := mat_identity; bones := demo_bones |}.

Definition demo_bmesh : BMesh :=
  {| verts := [ {| co := Vec (Q2Qc 5) 0 0; v_select := true; dvert := [(0%nat, half)] |};
                {| co := Vec (Q2Qc 6) 0 0; v_select := true; dvert := [] |};
                {| co := Vec (Q2Qc 9) (Q2Qc 9) (Q2Qc 9); v_select := false;
                   dvert := [(1%nat, 1)] |} ];
     edges := [ {| e_verts := (0, 1)%nat; e_select := true |} ];
     faces := [] |}.

Definition demo_mesh : MeshObject :=
  {| matrix_world := mat_identity;
     modifiers := [ {| mod_type := OTHER_MODIFIER; mod_object := None |};
                    {| mod_type := ARMATURE; mod_object := Some demo_arm_obj |} ];
     vertex_groups := ["Extra"; "A"];
     bm := demo_bmesh |}.

Definition demo_mesh_ctx : Context := {| active_object := Some demo_mesh |}.

(** The same mesh without its armature modifier. *)
Definition bare_mesh_ctx : Context :=
  {| active_object :=
       Some {| matrix_world := mat_identity;
               modifiers := [ {| mod_type := OTHER_MODIFIER; mod_object := None |} ];
               vertex_groups := ["Extra"; "A"];
               bm := demo_bmesh |} |}.

Definition demo_mesh_op : Operator := {| rootbone_enum := "Root" |}.

(** The mesh left by a run (the mesh itself when the run does not finish). *)
Definition mesh_after (H : Host) (fuel : nat) (self : Operator) (ctx : Context)
    : option MeshObject :=
  match execute fuel self ctx with
  | Some (Ok (_, _, ctx')) => active_object ctx'
  | _ => active_object ctx
  end.

Definition demo_mesh_1 : MeshObject :=
  default demo_mesh (mesh_after simple_host 4 demo_mesh_op demo_mesh_ctx).

(** What a run leaves as it was: the object's world matrix and modifiers,
    its edges and faces (new ones are added after them), and the position
    and selection of its vertices (new ones are added after them). *)
Definition originals_kept (o0 o' : MeshObject) : Prop :=
  matrix_world o' = matrix_world o0
  ∧ modifiers o' = modifiers o0
  ∧ edges (bm o0) `prefix_of` edges (bm o')
  ∧ faces (bm o0) `prefix_of` faces (bm o')
  ∧ ∃ V D, verts (bm o') = V ++ D ∧ same_shape (verts (bm o0)) V.

(** The mesh object is well formed: its vertex groups have distinct names,
    and deform weights, edges and faces refer to groups and vertices that
    exist. *)
Definition object_wf (o : MeshObject) : Prop :=
  NoDup (vertex_groups o) ∧ weights_wf o ∧ mesh_wf (bm o).

(** The weights of the vertices the mesh had, in the groups of the chain:
    1 in the root's group for the selected ones, 0 otherwise. *)
Definition originals_weighted (chain : list (string * Bone)) (o0 o' : MeshObject) : Prop :=
  let g0 := length (kept_groups chain o0) in
  ∀ t v, verts (bm o0) !! t = Some v →
    ∃ v', verts (bm o') !! t = Some v'
          ∧ ∀ j, (j < length chain)%nat →
              weight (g0 + j) (dvert v')
              = if decide (j = 0%nat ∧ v_select v = true) then 1 else 0.

(** The mesh of [demo_mesh] under a world matrix that cannot be inverted. *)
Definition flat_mesh : MeshObject :=
  {| matrix_world := Mat (Vec 1 0 0) (Vec 0 1 0) (Vec 0 0 0) vzero;
     modifiers := modifiers demo_mesh;
     vertex_groups := vertex_groups demo_mesh;
     bm := demo_bmesh |}.

Definition flat_mesh_ctx : Context := {| active_object := Some flat_mesh |}.

(** An operator whose root bone is no bone of the armature. *)
Definition stray_mesh_op : Operator := {| rootbone_enum := "Tail" |}.

Definition demo_mesh_ctx_1 : Context := {| active_object := Some demo_mesh_1 |}.

(** The mesh after a second run. *)
Definition demo_mesh_2 : MeshObject :=
  default demo_mesh_1 (mesh_after simple_host 4 demo_mesh_op demo_mesh_ctx_1).

(** The weights in a group that is not named after a bone of the chain:
    the group is still there, under an index that may have changed; every
    vertex the mesh had has the weight it had in it, and every vertex of a
    copy has the weight of the template vertex it was copied from. *)
Definition other_weights_carried (chain : list (string * Bone)) (o0 o' : MeshObject)
    : Prop :=
  let geom := selected_geom (bm o0) in
  let T := template_verts (bm o0) geom in
  let n0 := length (verts (bm o0)) in
  ∀ name j, name ∉ chain.*1 → vertex_groups_get (vertex_groups o0) name = Some j →
    ∃ j', vertex_groups_get (vertex_groups o') name = Some j'
          ∧ (∀ t v, verts (bm o0) !! t = Some v →
               ∃ v', verts (bm o') !! t = Some v'
                     ∧ weight j' (dvert v') = weight j (dvert v))
          ∧ (∀ i k t v, (1 ≤ i < length chain)%nat → T !! k = Some t →
               verts (bm o0) !! t = Some v →
               ∃ v', verts (bm o') !! dup_index n0 (length T) i k = Some v'
                     ∧ weight j' (dvert v') = weight j (dvert v)).

(** The mesh of [demo_mesh] scaled by 2 in the world, with its edge stored
    from its second vertex to its first. *)
Definition scaled_mesh : MeshObject :=
  {| matrix_world := Mat (Vec (Q2Qc 2) 0 0) (Vec 0 (Q2Qc 2) 0) (Vec 0 0 (Q2Qc 2)) vzero;
     modifiers := modifiers demo_mesh;
     vertex_groups := vertex_groups demo_mesh;
     bm := {| verts := verts demo_bmesh;
              edges := [ {| e_verts := (1, 0)%nat; e_select := true |} ];
              faces := [] |} |}.

Definition scaled_mesh_ctx : Context := {| active_object := Some scaled_mesh |}.

Definition scaled_mesh_1 : MeshObject :=
  default scaled_mesh (mesh_after simple_host 4 demo_mesh_op scaled_mesh_ctx).

Definition scaled_mesh_ctx_1 : Context := {| active_object := Some scaled_mesh_1 |}.

End CreateChainMeshArrayProps.

(** * Proofs *)

(** ** Vectors and matrices *)

Lemma Vec_eq x y z x' y' z' : x = x' → y = y' → z = z' → Vec x y z = Vec x' y' z'.
Proof. by intros -> -> ->. Qed.

Lemma mat_apply_identity v : mat_apply mat_identity v = v.
Proof. destruct v as [x y z]. unfold mat_apply, mat_lin, vadd, dot. simpl. apply Vec_eq; ring. Qed.

Lemma det_identity_nonzero : det mat_identity ≠ 0.
Proof. intros Hd. apply (f_equal this) in Hd. discriminate Hd. Qed.

Lemma inverted_identity : inverted mat_identity = Some mat_identity.
Proof.
  unfold inverted. rewrite decide_False by apply det_identity_nonzero.
  f_equal.
Qed.

Lemma inverted_apply M M' v : inverted M = Some M' → mat_apply M' (mat_apply M v) = v.
Proof.
  unfold inverted. destruct (decide (det M = 0)) as [Hd|Hd]; [done|].
  intros [= <-]. destruct M as [[a b c] [d e f] [g h i] [p q r]], v as [x y z].
  cbv [det dot cross vx vy vz row1 row2 row3] in Hd.
  cbv [mat_apply mat_lin vadd vsub vscale dot cross det vzero vx vy vz
       row1 row2 row3 offs].
  apply Vec_eq; field; exact Hd.
Qed.


Lemma inverted_apply_r M M' v : inverted M = Some M' → mat_apply M (mat_apply M' v) = v.
Proof.
  unfold inverted. destruct (decide (det M = 0)) as [Hd|Hd]; [done|].
  intros [= <-]. destruct M as [[a b c] [d e f] [g h i] [p q r]], v as [x y z].
  cbv [det dot cross vx vy vz row1 row2 row3] in Hd.
  cbv [mat_apply mat_lin vadd vsub vscale dot cross det vzero vx vy vz
       row1 row2 row3 offs].
  apply Vec_eq; field; exact Hd.
Qed.

(** ** Generated numerals *)

Lemma digit_val_char d : (d < 10)%nat → digit_val (digit_char d) = Some d.
Proof.
  intros Hd. do 10 (destruct d as [|d]; [reflexivity|]). lia.
Qed.

Lemma parse_digits_go fuel n acc :
  (n < fuel)%nat → parse_go 0 (digits_go fuel n acc) = parse_go n acc.
Proof.
  revert n acc. induction fuel as [|f IH]; intros n acc Hn; [lia|].
  cbn [digits_go].
  assert (Hm : (n `mod` 10 < 10)%nat) by (apply Nat.mod_upper_bound; lia).
  pose proof (Nat.div_mod_eq n 10) as Hdm.
  destruct (decide (n `div` 10 = 0)%nat) as [Hz|Hz].
  - cbn [parse_go]. rewrite digit_val_char by done. f_equal. lia.
  - rewrite IH by lia. cbn [parse_go]. rewrite digit_val_char by done. f_equal. lia.
Qed.

Lemma parse_str_of_nat n : parse_go 0 (str_of_nat n) = Some n.
Proof. unfold str_of_nat. rewrite parse_digits_go by lia. reflexivity. Qed.

Lemma parse_fmt03 n : parse_go 0 (fmt03 n) = Some n.
Proof.
  unfold fmt03. pose proof (parse_str_of_nat n) as Hp.
  destruct (String.length (str_of_nat n)) as [|[|[|?]]]; try done.
Qed.

Lemma parse_go_suffix_stop acc s c t :
  digit_val c = None → parse_go acc (s +:+ String c t) = None.
Proof.
  intros Hc. revert acc.
  induction s as [|a s IH]; intros acc; simpl.
  - by rewrite Hc.
  - destruct (digit_val a); [apply IH|done].
Qed.

Global Instance fmt03_inj : Inj (=) (=) fmt03.
Proof.
  intros i j Hij. pose proof (parse_fmt03 i) as Hi. rewrite Hij, parse_fmt03 in Hi.
  congruence.
Qed.

Lemma fmt03_not_locator i j : fmt03 i ≠ fmt03 j +:+ ".Locator".
Proof.
  intros Heq. pose proof (parse_fmt03 i) as Hi. rewrite Heq in Hi.
  rewrite (parse_go_suffix_stop 0 (fmt03 j) "." "Locator") in Hi; done.
Qed.

Lemma parse_prefix_stop acc s n c t :
  parse_go acc s = Some n → digit_val c = None →
  parse_prefix acc (s +:+ String c t) = n.
Proof.
  intros Hs Hc. revert acc Hs. induction s as [|a s IH]; intros acc Hs; simpl in *.
  - rewrite Hc. congruence.
  - destruct (digit_val a); [by apply IH|done].
Qed.

Lemma Qc_of_nat_nonzero n : n ≠ 0%nat → Qc_of_nat n ≠ 0.
Proof.
  intros Hn Hz. unfold Qc_of_nat in Hz. change 0 with (Q2Qc 0) in Hz.
  apply Q2Qc_eq_iff in Hz. unfold Qeq in Hz. simpl in Hz. lia.
Qed.

Lemma vscale_axis k L : vscale k (Vec L 0 0) = Vec (k * L) 0 0.
Proof. unfold vscale. simpl. f_equal; ring. Qed.

(** ** Names handed out by the host *)

Section HostNames.
Context `{!Host}.

(** After a request for [s] the collection holds the name [s]. *)
Lemma unique_name_covers used s : s ∈ used ++ [unique_name used s].
Proof.
  destruct (decide (s ∈ used)) as [Hin|Hout].
  - apply elem_of_app. by left.
  - rewrite unique_name_free by done. apply elem_of_app. right. apply list_elem_of_here.
Qed.

End HostNames.

(** ** AddBoneChain *)

Module AddBoneChainProofs.
Import AddBoneChain AddBoneChainProps.

Lemma get_bone_name_inj self i j :
  get_bone_name self i = get_bone_name self j → i = j.
Proof.
  unfold get_bone_name. intros Heq.
  apply (inj (String.append _)) in Heq. apply (inj (String.append _)) in Heq.
  by apply (inj fmt03).
Qed.

Lemma get_locator_name_inj self i j :
  get_locator_name self i = get_locator_name self j → i = j.
Proof.
  unfold get_locator_name. intros Heq.
  apply (inj (String.append _)) in Heq. apply (inj (String.append _)) in Heq.
  pose proof (parse_prefix_stop 0 _ _ "." "Locator" (parse_fmt03 i) eq_refl) as Hi.
  pose proof (parse_prefix_stop 0 _ _ "." "Locator" (parse_fmt03 j) eq_refl) as Hj.
  congruence.
Qed.

Lemma bone_name_not_locator self i j : get_bone_name self i ≠ get_locator_name self j.
Proof.
  unfold get_bone_name, get_locator_name. intros Heq.
  apply (inj (String.append _)) in Heq. apply (inj (String.append _)) in Heq.
  by apply fmt03_not_locator in Heq.
Qed.

Section WithHost.
Context `{!Host}.

Lemma edit_bone_set_notin name f bs :
  name ∉ eb_names bs → edit_bone_set name f bs = bs.
Proof.
  unfold edit_bone_set, eb_names. induction bs as [|b bs IH]; intros Hn; [done|].
  rewrite fmap_cons in Hn. csimpl.
  apply not_elem_of_cons in Hn as [Hb Hbs].
  rewrite decide_False by done. f_equal. by apply IH.
Qed.

Lemma edit_bone_set_snoc name f bs b :
  name ∉ eb_names bs → eb_name b = name →
  edit_bone_set name f (bs ++ [b]) = bs ++ [f b].
Proof.
  intros Hn Hb. unfold edit_bone_set. rewrite fmap_app.
  fold (edit_bone_set name f bs). rewrite edit_bone_set_notin by done.
  csimpl. by rewrite decide_True.
Qed.

Lemma edit_bones_get_name bs n :
  eb_name <$> edit_bones_get bs n
  = if decide (n ∈ eb_names bs) then Some n else None.
Proof.
  unfold edit_bones_get, eb_names. induction bs as [|b bs IH]; [done|].
  csimpl. destruct (decide (eb_name b = n)) as [Heq|Hne].
  - rewrite bool_decide_true by done.
    rewrite decide_True by (apply elem_of_cons; by left).
    simpl. by rewrite Heq.
  - rewrite bool_decide_false by done. rewrite IH.
    destruct (decide (n ∈ eb_name <$> bs)).
    + rewrite decide_True by (apply elem_of_cons; by right). done.
    + rewrite decide_False; [done|]. intros [?|?]%elem_of_cons; done.
Qed.

Lemma create_link_eq self space C L bones i :
  let b := main_bone self space C L (eb_names bones) i in
  create_link self space C L bones i
  = bones ++ [b; locator_bone self space L (eb_names bones ++ [eb_name b]) i].
Proof.
  intros b. unfold create_link, edit_bones_new.
  set (n := unique_name (eb_names bones) (cut_name (get_bone_name self i))).
  assert (Hn : n ∉ eb_names bones) by apply unique_name_fresh.
  rewrite (edit_bone_set_snoc n _ bones); [|assumption|reflexivity].
  rewrite (edit_bone_set_snoc n _ bones); [|assumption|reflexivity].
  set (b1 := set_tail _ _).
  assert (Hb : (if decide (0 < i)%nat
                then edit_bone_set n
                       (set_parent (eb_name <$> edit_bones_get (bones ++ [b1])
                                                  (get_bone_name self (i - 1))))
                       (bones ++ [b1])
                else bones ++ [b1]) = bones ++ [b]).
  { destruct (decide (0 < i)%nat) as [Hi|Hi].
    - rewrite (edit_bone_set_snoc n _ bones); [|assumption|reflexivity]. f_equal. f_equal.
      rewrite edit_bones_get_name. unfold b, main_bone. fold n.
      rewrite (decide_True _ _ Hi). unfold eb_names. rewrite fmap_app. reflexivity.
    - f_equal. f_equal. unfold b, main_bone. fold n. by rewrite (decide_False _ _ Hi). }
  rewrite Hb. clear Hb b1.
  set (m := unique_name (eb_names (bones ++ [b])) (cut_name (get_locator_name self i))).
  assert (Hm : m ∉ eb_names (bones ++ [b])) by apply unique_name_fresh.
  rewrite (edit_bone_set_snoc m _ (bones ++ [b])); [|assumption|reflexivity].
  rewrite (edit_bone_set_snoc m _ (bones ++ [b])); [|assumption|reflexivity].
  rewrite <- app_assoc. f_equal. simpl. f_equal. f_equal.
  unfold locator_bone. unfold set_tail, set_head. simpl. fold m.
  unfold m. unfold eb_names. rewrite fmap_app. done.
Qed.

Lemma create_links_shape self space C L bones0 N :
  ∃ created,
    foldl (create_link self space C L) bones0 (seq 0 N) = bones0 ++ created
    ∧ length created = (2 * N)%nat
    ∧ ∀ i, (i < N)%nat →
        created !! (2 * i)%nat
        = Some (main_bone self space C L (eb_names (bones0 ++ take (2 * i) created)) i)
        ∧ created !! (2 * i + 1)%nat
          = Some (locator_bone self space L
                    (eb_names (bones0 ++ take (2 * i + 1) created)) i).
Proof.
  induction N as [|N (created & Hfold & Hlen & Hall)].
  - exists []. split_and!; [by rewrite app_nil_r|done|intros; lia].
  - rewrite seq_S, foldl_app. cbn [foldl]. rewrite Hfold, create_link_eq.
    set (b := main_bone _ _ _ _ _ _). set (l := locator_bone _ _ _ _ _).
    exists (created ++ [b; l]). split_and!.
    + by rewrite app_assoc.
    + rewrite length_app. cbn [length]. lia.
    + intros i Hi. destruct (decide (i = N)) as [->|Hne].
      * replace (2 * N)%nat with (length created + 0)%nat by lia.
        rewrite <- Nat.add_assoc. rewrite !lookup_app_r by lia.
        replace (length created + 0 - length created)%nat with 0%nat by lia.
        replace (length created + (0 + 1) - length created)%nat with 1%nat by lia.
        rewrite !(take_app_add' created) by done.
        cbn [take lookup list_lookup]. rewrite app_nil_r. split; [done|].
        f_equal. unfold l. f_equal. unfold eb_names. by rewrite !fmap_app, <- app_assoc.
      * destruct (Hall i) as [H1 H2]; [lia|].
        rewrite !lookup_app_l by lia. rewrite !take_app_le by lia. done.
Qed.

Lemma pairs_S {A} (f g : nat → A) N :
  (seq 0 (S N) ≫= λ i, [f i; g i]) = (seq 0 N ≫= λ i, [f i; g i]) ++ [f N; g N].
Proof. rewrite seq_S, bind_app. simpl. done. Qed.

Lemma pairs_length {A} (f g : nat → A) N :
  length (seq 0 N ≫= λ i, [f i; g i]) = (2 * N)%nat.
Proof.
  induction N as [|N IH]; [done|]. rewrite pairs_S, length_app, IH. cbn [length]. lia.
Qed.

Lemma pairs_lookup {A} (f g : nat → A) N i :
  (i < N)%nat →
  (seq 0 N ≫= λ i, [f i; g i]) !! (2 * i)%nat = Some (f i)
  ∧ (seq 0 N ≫= λ i, [f i; g i]) !! (2 * i + 1)%nat = Some (g i).
Proof.
  induction N as [|N IH]; intros Hi; [lia|]. rewrite pairs_S.
  destruct (decide (i = N)) as [->|Hne].
  - rewrite !lookup_app_r by (rewrite pairs_length; lia). rewrite pairs_length.
    replace (2 * N - 2 * N)%nat with 0%nat by lia.
    replace (2 * N + 1 - 2 * N)%nat with 1%nat by lia. done.
  - rewrite !lookup_app_l by (rewrite pairs_length; lia). apply IH. lia.
Qed.

Lemma elem_of_generated_names self N n :
  n ∈ generated_names self N
  ↔ ∃ j, (j < N)%nat ∧ (n = get_bone_name self j ∨ n = get_locator_name self j).
Proof.
  unfold generated_names. rewrite list_elem_of_bind. split.
  - intros (j & Hn & Hj). apply elem_of_seq in Hj. exists j. split; [lia|].
    apply elem_of_cons in Hn as [?|Hn]; [by left|].
    apply elem_of_cons in Hn as [?|Hn]; [by right|]. by apply elem_of_nil in Hn.
  - intros (j & Hj & Hn). exists j. split; [|apply elem_of_seq; lia].
    destruct Hn as [->| ->]; [apply elem_of_cons; by left|].
    apply elem_of_cons; right. apply elem_of_cons; by left.
Qed.

Lemma eb_names_fresh_links self space C L N :
  eb_names (fresh_links self space C L N) = generated_names self N.
Proof.
  unfold fresh_links, generated_names, eb_names.
  induction N as [|N IH]; [done|]. rewrite !pairs_S, fmap_app, IH. done.
Qed.

Lemma fresh_links_S self space C L N :
  fresh_links self space C L (S N)
  = fresh_links self space C L N
    ++ [fresh_main self space C L N; fresh_locator self space L N].
Proof. apply pairs_S. Qed.

Lemma create_links_fresh self space C L bones0 N :
  (∀ n, n ∈ generated_names self N → n ∉ eb_names bones0) →
  (∀ n, n ∈ generated_names self N → cut_name n = n) →
  foldl (create_link self space C L) bones0 (seq 0 N)
  = bones0 ++ fresh_links self space C L N.
Proof.
  induction N as [|N IH]; intros Hfree Hfit.
  - unfold fresh_links. simpl. by rewrite app_nil_r.
  - assert (Hsub : ∀ n, n ∈ generated_names self N → n ∈ generated_names self (S N)).
    { intros n Hn. apply elem_of_generated_names.
      apply elem_of_generated_names in Hn as (j & ? & ?). exists j. split; [lia|done]. }
    rewrite seq_S, foldl_app. cbn [foldl]. rewrite Nat.add_0_l.
    rewrite IH by (intros n Hn; (apply Hfree || apply Hfit); by apply Hsub).
    rewrite create_link_eq, fresh_links_S, <- app_assoc. f_equal.
    assert (Hnames : eb_names (bones0 ++ fresh_links self space C L N)
                     = eb_names bones0 ++ generated_names self N).
    { unfold eb_names at 1. rewrite fmap_app. f_equal. apply eb_names_fresh_links. }
    assert (Hb : get_bone_name self N ∉ eb_names bones0 ++ generated_names self N).
    { intros [Hin|Hin]%elem_of_app.
      - revert Hin. apply Hfree. apply elem_of_generated_names. exists N. split; [lia|by left].
      - apply elem_of_generated_names in Hin as (j & Hj & [Hn|Hn]).
        + apply get_bone_name_inj in Hn. lia.
        + by apply bone_name_not_locator in Hn. }
    assert (Hmain : main_bone self space C L (eb_names (bones0 ++ fresh_links self space C L N)) N
                    = fresh_main self space C L N).
    { unfold main_bone, fresh_main. rewrite Hnames.
      rewrite Hfit by (apply elem_of_generated_names; exists N; split; [lia|by left]).
      rewrite (unique_name_free _ _ Hb). f_equal.
      destruct (decide (0 < N)%nat) as [HN|HN]; [|done].
      rewrite decide_True; [done|]. apply elem_of_app; left. apply elem_of_app; right.
      apply elem_of_generated_names. exists (N - 1)%nat. split; [lia|by left]. }
    rewrite Hmain. f_equal. f_equal.
    unfold locator_bone, fresh_locator. rewrite Hnames.
    rewrite Hfit by (apply elem_of_generated_names; exists N; split; [lia|by right]).
    rewrite unique_name_free; [done|]. cbn [eb_name fresh_main].
    intros [Hin|Hin]%elem_of_app.
    + apply elem_of_app in Hin as [Hin|Hin].
      * revert Hin. apply Hfree. apply elem_of_generated_names. exists N. split; [lia|by right].
      * apply elem_of_generated_names in Hin as (j & Hj & [Hn|Hn]).
        -- symmetry in Hn. by apply bone_name_not_locator in Hn.
        -- apply get_locator_name_inj in Hn. lia.
    + apply elem_of_cons in Hin as [Hn|Hin]; [|by apply elem_of_nil in Hin].
      symmetry in Hn. by apply bone_name_not_locator in Hn.
Qed.

Lemma pose_bones_get_name pose n p : pose_bones_get pose n = Some p → pb_name p = n.
Proof.
  unfold pose_bones_get. intros Hf. apply find_some in Hf as [_ Hp].
  by apply bool_decide_eq_true in Hp.
Qed.

Lemma constraints_of_add n c pose m :
  constraints_of (add_constraint n c pose) m
  = (λ cs, if decide (m = n) then cs ++ [c] else cs) <$> constraints_of pose m.
Proof.
  unfold constraints_of, pose_bones_get, add_constraint.
  induction pose as [|p pose IH]; [done|]. csimpl.
  destruct (decide (pb_name p = n)) as [Hpn|Hpn]; cbn [pb_name].
  - destruct (decide (pb_name p = m)) as [Hpm|Hpm].
    + rewrite !bool_decide_true by done. cbn. rewrite decide_True by congruence. done.
    + rewrite !bool_decide_false by done. apply IH.
  - destruct (decide (pb_name p = m)) as [Hpm|Hpm].
    + rewrite !bool_decide_true by done. cbn. rewrite decide_False by congruence. done.
    + rewrite !bool_decide_false by done. apply IH.
Qed.

Lemma constraints_of_sync bones pose n :
  constraints_of (sync_pose bones pose) n
  = if decide (n ∈ eb_names bones)
    then Some (default [] (constraints_of pose n)) else None.
Proof.
  unfold constraints_of at 1, sync_pose, eb_names.
  induction bones as [|b bones IH]; [done|]. csimpl.
  set (p := match pose_bones_get pose (eb_name b) with
            | Some p => p
            | None => {| pb_name := eb_name b; constraints := [] |}
            end).
  assert (Hp : pb_name p = eb_name b).
  { unfold p. destruct (pose_bones_get pose (eb_name b)) eqn:Hg; [|done].
    by apply pose_bones_get_name in Hg. }
  unfold pose_bones_get at 1. cbn [find]. rewrite Hp.
  destruct (decide (eb_name b = n)) as [Hbn|Hbn].
  - rewrite bool_decide_true by done. rewrite decide_True by (apply elem_of_cons; by left).
    cbn. f_equal. unfold p, constraints_of. rewrite Hbn.
    by destruct (pose_bones_get pose n).
  - rewrite bool_decide_false by done. fold (pose_bones_get (
      (λ b, match pose_bones_get pose (eb_name b) with
            | Some p => p
            | None => {| pb_name := eb_name b; constraints := [] |}
            end) <$> bones) n).
    rewrite IH. destruct (decide (n ∈ eb_name <$> bones)) as [Hin|Hin].
    + rewrite decide_True by (apply elem_of_cons; by right). done.
    + rewrite decide_False; [done|]. intros [?|?]%elem_of_cons; congruence.
Qed.

Lemma constrain_link_ok self arm_name curve pose i cb cl :
  constraints_of pose (get_bone_name self i) = Some cb →
  constraints_of pose (get_locator_name self i) = Some cl →
  ∃ pose',
    constrain_link self arm_name curve pose i = Ok pose'
    ∧ ∀ m, constraints_of pose' m
           = if decide (m = get_locator_name self i)
             then Some (cl ++ [follow_path_of self curve i])
             else if decide (m = get_bone_name self i)
             then Some (cb ++ [copy_location_of self arm_name i;
                               track_to_of self arm_name i])
             else constraints_of pose m.
Proof.
  intros Hb Hl. unfold constrain_link.
  unfold constraints_of in Hb, Hl.
  destruct (pose_bones_get pose (get_bone_name self i)) as [pb|] eqn:Hgb; [|done].
  destruct (pose_bones_get pose (get_locator_name self i)) as [pl|] eqn:Hgl; [|done].
  cbn [attr_of bind]. eexists. split; [reflexivity|]. intros m.
  rewrite (pose_bones_get_name _ _ _ Hgb), (pose_bones_get_name _ _ _ Hgl).
  rewrite !constraints_of_add.
  pose proof (bone_name_not_locator self i i) as Hne.
  unfold constraints_of. cbn in Hb, Hl. injection Hb as <-. injection Hl as <-.
  destruct (decide (m = get_locator_name self i)) as [->|Hml];
    [|destruct (decide (m = get_bone_name self i)) as [->|Hmb]];
    rewrite ?Hgl, ?Hgb;
    repeat match goal with
           | |- context [decide ?P] => destruct (decide P); try congruence
           end; cbn.
  - done.
  - by rewrite <- app_assoc.
  - by destruct (pose_bones_get pose m).
Qed.

Lemma for_each_app {A S} (body : S → A → Exec S) l1 l2 s :
  for_each body (l1 ++ l2) s = (s' ←! for_each body l1 s; for_each body l2 s').
Proof.
  revert s. induction l1 as [|a l1 IH]; intros s; [done|]. cbn.
  destruct (body s a); [apply IH|done].
Qed.

Lemma constrain_links_ok self arm_name curve pose0 N k :
  (k ≤ N)%nat →
  (∀ j, (j < N)%nat →
     is_Some (constraints_of pose0 (get_bone_name self j))
     ∧ is_Some (constraints_of pose0 (get_locator_name self j))) →
  ∃ pose,
    for_each (constrain_link self arm_name curve) (seq 0 k) pose0 = Ok pose
    ∧ (∀ j, (j < k)%nat →
         constraints_of pose (get_locator_name self j)
         = (λ cs, cs ++ [follow_path_of self curve j])
             <$> constraints_of pose0 (get_locator_name self j))
    ∧ (∀ j, (j < k)%nat →
         constraints_of pose (get_bone_name self j)
         = (λ cs, cs ++ [copy_location_of self arm_name j; track_to_of self arm_name j])
             <$> constraints_of pose0 (get_bone_name self j))
    ∧ (∀ m, (∀ j, (j < k)%nat → m ≠ get_locator_name self j ∧ m ≠ get_bone_name self j) →
         constraints_of pose m = constraints_of pose0 m).
Proof.
  intros Hk Hsome. induction k as [|k IH].
  - exists pose0. split_and!; [done|intros; lia|intros; lia|done].
  - destruct IH as (pose & Hrun & Hloc & Hbone & Hother); [lia|].
    destruct (Hsome k) as [[cb Hcb] [cl Hcl]]; [lia|].
    assert (Hcb' : constraints_of pose (get_bone_name self k) = Some cb).
    { rewrite Hother; [done|]. intros j Hj. split.
      - apply bone_name_not_locator.
      - intros Heq%get_bone_name_inj. lia. }
    assert (Hcl' : constraints_of pose (get_locator_name self k) = Some cl).
    { rewrite Hother; [done|]. intros j Hj. split.
      - intros Heq%get_locator_name_inj. lia.
      - intros Heq. symmetry in Heq. by apply bone_name_not_locator in Heq. }
    destruct (constrain_link_ok self arm_name curve pose k cb cl Hcb' Hcl')
      as (pose' & Hstep & Hpose').
    exists pose'. split_and!.
    + rewrite seq_S, for_each_app, Hrun. cbn. rewrite Hstep. done.
    + intros j Hj. rewrite Hpose'. destruct (decide (j = k)) as [->|Hjk].
      * rewrite decide_True by done. by rewrite Hcl.
      * rewrite decide_False by (intros Heq%get_locator_name_inj; lia).
        rewrite decide_False
          by (intros Heq; symmetry in Heq; by apply bone_name_not_locator in Heq).
        apply Hloc. lia.
    + intros j Hj. rewrite Hpose'.
      rewrite decide_False by apply bone_name_not_locator.
      destruct (decide (j = k)) as [->|Hjk].
      * rewrite decide_True by done. by rewrite Hcb.
      * rewrite decide_False by (intros Heq%get_bone_name_inj; lia).
        apply Hbone. lia.
    + intros m Hm. rewrite Hpose'. destruct (Hm k) as [? ?]; [lia|].
      rewrite !decide_False by done. apply Hother. intros j Hj. apply Hm. lia.
Qed.

Lemma edit_bones_get_app l1 l2 n :
  edit_bones_get (l1 ++ l2) n
  = match edit_bones_get l1 n with
    | Some b => Some b
    | None => edit_bones_get l2 n
    end.
Proof.
  unfold edit_bones_get. induction l1 as [|b l1 IH]; [done|]. cbn.
  by destruct (bool_decide (eb_name b = n)).
Qed.

Lemma edit_bones_get_notin l n : n ∉ eb_names l → edit_bones_get l n = None.
Proof.
  intros Hn. pose proof (edit_bones_get_name l n) as Hg.
  rewrite decide_False in Hg by done. by destruct (edit_bones_get l n).
Qed.


Lemma edit_bones_get_fresh_links self space C L N j :
  (j < N)%nat →
  edit_bones_get (fresh_links self space C L N) (get_bone_name self j)
  = Some (fresh_main self space C L j).
Proof.
  induction N as [|N IH]; intros Hj; [lia|].
  rewrite fresh_links_S, edit_bones_get_app.
  destruct (decide (j = N)) as [->|Hne].
  - rewrite edit_bones_get_notin.
    + unfold edit_bones_get. cbn. by rewrite bool_decide_true.
    + rewrite eb_names_fresh_links. intros (k & Hk & [Hn|Hn])%elem_of_generated_names.
      * apply get_bone_name_inj in Hn. lia.
      * by apply bone_name_not_locator in Hn.
  - rewrite IH by lia. done.
Qed.

Lemma execute_finished self ctx r ctx' :
  execute self ctx = Ok (FINISHED, r, ctx') →
  ∃ curve spline rest space pose,
    get_curve_object self ctx = Some (CurveData curve)
    ∧ splines curve = spline :: rest
    ∧ inverted (matrix_world (active_object ctx)) = Some space
    ∧ bone_count self ≠ 0%nat
    ∧ let a := active_object ctx in
      let bones :=
        foldl (create_link self space (cursor_location ctx)
                 (calc_length spline / Qc_of_nat (bone_count self)))
              (edit_bones a) (seq 0 (bone_count self)) in
      for_each (constrain_link self (ob_name a) curve) (seq 0 (bone_count self))
               (sync_pose bones (pose_bones a)) = Ok pose
      ∧ r = []
      ∧ ctx' = {| objects := objects ctx;
                  active_object :=
                    {| ob_name := ob_name a; matrix_world := matrix_world a;
                       edit_bones := bones; pose_bones := pose; mode := OBJECT |};
                  cursor_location := cursor_location ctx |}.
Proof.
  unfold execute. intros Hrun.
  destruct (get_curve_object self ctx) as [[curve|]|] eqn:Hcurve; cbn in Hrun; try done.
  destruct (splines curve) as [|spline rest] eqn:Hsp; [done|].
  unfold inverted_exn in Hrun. cbn in Hrun.
  destruct (inverted (matrix_world (active_object ctx))) as [space|] eqn:Hinv;
    cbn in Hrun; [|done].
  unfold py_div in Hrun. destruct (decide (bone_count self = 0%nat)) as [|HN];
    cbn in Hrun; [done|].
  match type of Hrun with
  | bind ?m _ = _ => destruct m as [pose|] eqn:Hpose; cbn in Hrun; [|done]
  end.
  injection Hrun as <- <-.
  exists curve, spline, rest, space, pose. split_and!; try done.
Qed.

(** The names of the two bones one pass of the first loop appends: they
    are new and within the limit, and a generated name within the limit is
    the name of a bone after its pass. *)
Lemma eb_names_create_link self space C L bones i :
  ∃ n1 n2,
    eb_names (create_link self space C L bones i) = eb_names bones ++ [n1; n2]
    ∧ (n1 ∉ eb_names bones)
    ∧ (n2 ∉ eb_names bones ++ [n1])
    ∧ cut_name n1 = n1
    ∧ cut_name n2 = n2
    ∧ (cut_name (get_bone_name self i) = get_bone_name self i →
       get_bone_name self i ∈ eb_names bones ++ [n1])
    ∧ (cut_name (get_locator_name self i) = get_locator_name self i →
       get_locator_name self i ∈ eb_names bones ++ [n1; n2]).
Proof.
  rewrite create_link_eq. cbn zeta.
  set (n1 := unique_name (eb_names bones) (cut_name (get_bone_name self i))).
  set (n2 := unique_name (eb_names bones ++ [n1]) (cut_name (get_locator_name self i))).
  exists n1, n2. split_and!.
  - unfold eb_names. rewrite fmap_app. done.
  - apply unique_name_fresh.
  - apply unique_name_fresh.
  - apply unique_name_fits, cut_name_idemp.
  - apply unique_name_fits, cut_name_idemp.
  - intros Hfit. unfold n1. rewrite Hfit. apply unique_name_covers.
  - intros Hfit. unfold n2. rewrite Hfit.
    replace (eb_names bones ++ [n1; unique_name (eb_names bones ++ [n1])
                                      (get_locator_name self i)])
      with ((eb_names bones ++ [n1])
            ++ [unique_name (eb_names bones ++ [n1]) (get_locator_name self i)])
      by (by rewrite <- app_assoc).
    apply unique_name_covers.
Qed.

Lemma create_links_names self space C L bones0 N :
  let bones := foldl (create_link self space C L) bones0 (seq 0 N) in
  ∃ more,
    eb_names bones = eb_names bones0 ++ more
    ∧ (NoDup (eb_names bones0) → NoDup (eb_names bones))
    ∧ Forall (λ n, cut_name n = n) more
    ∧ (∀ n, n ∈ generated_names self N → cut_name n = n → n ∈ eb_names bones).
Proof.
  induction N as [|N (more & Hnames & Hnd & Hfit & Hgen)]; cbn zeta.
  - exists []. split_and!; [by rewrite app_nil_r|done|constructor|].
    by intros n ?%elem_of_nil.
  - rewrite seq_S, foldl_app. cbn [foldl]. rewrite Nat.add_0_l.
    set (bones := foldl (create_link self space C L) bones0 (seq 0 N)) in *.
    destruct (eb_names_create_link self space C L bones N)
      as (n1 & n2 & -> & Hn1 & Hn2 & Hf1 & Hf2 & Hb & Hl).
    exists (more ++ [n1; n2]). split_and!.
    + by rewrite Hnames, <- app_assoc.
    + intros Hnd0. replace (eb_names bones ++ [n1; n2])
        with ((eb_names bones ++ [n1]) ++ [n2]) by (by rewrite <- app_assoc).
      apply NoDup_app. split_and!; [|by intros x ? ->%list_elem_of_singleton|apply NoDup_singleton].
      apply NoDup_app. split_and!; [by apply Hnd|by intros x ? ->%list_elem_of_singleton|
                                   apply NoDup_singleton].
    + apply Forall_app. split; [done|]. by repeat constructor.
    + intros n (j & Hj & Hn)%elem_of_generated_names Hcut.
      destruct (decide (j = N)) as [->|Hne].
      * destruct Hn as [->| ->].
        -- replace (eb_names bones ++ [n1; n2])
             with ((eb_names bones ++ [n1]) ++ [n2]) by (by rewrite <- app_assoc).
           apply elem_of_app. left. by apply Hb.
        -- by apply Hl.
      * apply elem_of_app. left. apply Hgen; [|done].
        apply elem_of_generated_names. exists j. split; [lia|done].
Qed.

(** A generated name is the name of a bone after the first loop exactly
    when a bone had it before, or the host leaves it as it is. *)
Lemma generated_name_found self space C L bones0 N n :
  n ∈ generated_names self N →
  n ∈ eb_names (foldl (create_link self space C L) bones0 (seq 0 N))
  ↔ n ∈ eb_names bones0 ∨ cut_name n = n.
Proof.
  intros Hn.
  destruct (create_links_names self space C L bones0 N)
    as (more & Hnames & _ & Hfit & Hgen).
  cbn zeta in Hnames, Hgen. split.
  - rewrite Hnames. intros [?|Hin]%elem_of_app; [by left|right].
    rewrite Forall_forall in Hfit. by apply Hfit.
  - intros [Hold|Hcut]; [|by apply Hgen].
    rewrite Hnames. apply elem_of_app. by left.
Qed.

(** A pass of the second loop that does not raise has found both pose
    bones, and leaves the pose bones there were. *)
Lemma constrain_link_inv self arm_name curve pose i pose' :
  constrain_link self arm_name curve pose i = Ok pose' →
  is_Some (constraints_of pose (get_bone_name self i))
  ∧ is_Some (constraints_of pose (get_locator_name self i))
  ∧ ∀ m, is_Some (constraints_of pose' m) ↔ is_Some (constraints_of pose m).
Proof.
  unfold constrain_link, constraints_of. intros Hrun.
  destruct (pose_bones_get pose (get_locator_name self i)) as [pl|] eqn:Hgl; [|done].
  destruct (pose_bones_get pose (get_bone_name self i)) as [pb|] eqn:Hgb; [|done].
  cbn [attr_of bind] in Hrun. injection Hrun as <-.
  split_and!; [by eexists|by eexists|]. intros m.
  fold (constraints_of pose m).
  match goal with
  | |- is_Some (constraints <$> pose_bones_get ?p m) ↔ _ =>
      change (constraints <$> pose_bones_get p m) with (constraints_of p m)
  end.
  rewrite !constraints_of_add, !fmap_is_Some. done.
Qed.


Lemma constrain_links_found self arm_name curve l pose0 pose :
  for_each (constrain_link self arm_name curve) l pose0 = Ok pose →
  ∀ j, j ∈ l →
    is_Some (constraints_of pose0 (get_bone_name self j))
    ∧ is_Some (constraints_of pose0 (get_locator_name self j)).
Proof.
  revert pose0. induction l as [|i l IH]; intros pose0 Hrun j Hj.
  - by apply elem_of_nil in Hj.
  - cbn [for_each] in Hrun.
    destruct (constrain_link self arm_name curve pose0 i) as [pose1|] eqn:Hstep; [|done].
    cbn [bind] in Hrun.
    destruct (constrain_link_inv _ _ _ _ _ _ Hstep) as (Hb & Hl & Hsame).
    apply elem_of_cons in Hj as [->|Hj]; [done|].
    destruct (IH pose1 Hrun j Hj) as [Hb' Hl']. split; by apply Hsame.
Qed.


(** In a finished run every generated name is the name of a bone: the
    second loop has found a pose bone under each of them. *)
Lemma finished_names_found self ctx r ctx' :
  execute self ctx = Ok (FINISHED, r, ctx') →
  ∀ n, n ∈ generated_names self (bone_count self) →
    n ∈ eb_names (edit_bones (active_object ctx')).
Proof.
  intros (curve & spline & rest & space & pose & Hc & Hsp & Hinv & HN & Hrun)
    %execute_finished n (j & Hj & Hn)%elem_of_generated_names.
  cbn zeta in Hrun. destruct Hrun as (Hloop & _ & ->). cbn [active_object edit_bones].
  destruct (constrain_links_found _ _ _ _ _ _ Hloop j) as [Hb Hl];
    [apply elem_of_seq; lia|].
  rewrite !constraints_of_sync in Hb, Hl.
  destruct Hn as [->| ->].
  - destruct (decide (get_bone_name self j ∈ _)); [done|]. by destruct Hb.
  - destruct (decide (get_locator_name self j ∈ _)); [done|]. by destruct Hl.
Qed.

(** In a finished run on an armature none of whose bones carries a
    generated name, the host has left every generated name as it is. *)
Lemma finished_names_fit self ctx r ctx' :
  execute self ctx = Ok (FINISHED, r, ctx') →
  bone_names_free self (active_object ctx) →
  ∀ n, n ∈ generated_names self (bone_count self) → cut_name n = n.
Proof.
  intros Hrun Hfree n Hn. pose proof (finished_names_found _ _ _ _ Hrun n Hn) as Hin.
  apply execute_finished in Hrun
    as (curve & spline & rest & space & pose & _ & _ & _ & _ & Hrun).
  cbn zeta in Hrun. destruct Hrun as (_ & _ & ->). cbn [active_object edit_bones] in Hin.
  apply generated_name_found in Hin as [Hold|Hcut]; [|done|done].
  by apply Hfree in Hold.
Qed.

(** C8.  When the curve name resolves to no object, or the curve has no
    spline, the operator reports ERROR_INVALID_INPUT and returns CANCELLED
    with the context it was given: no bone and no constraint is touched. *)
Theorem invalid_curve_cancels self ctx :
  get_curve_object self ctx = None
  ∨ (∃ curve, get_curve_object self ctx = Some (CurveData curve) ∧ splines curve = []) →
  ∃ msg, execute self ctx = Ok (CANCELLED, [(ERROR_INVALID_INPUT, msg)], ctx).
Proof.
  unfold execute. intros [Hnone|(curve & Hcurve & Hsp)].
  - rewrite Hnone. by eexists.
  - rewrite Hcurve. cbn. rewrite Hsp. by eexists.
Qed.

(** C7.  In a finished run the [i]-th main bone has its head at
    [cursor + i*L] and its tail at [cursor + (i+1)*L] along the x axis, and
    the [i]-th locator goes from the origin to [L/2] along the x axis, all
    mapped by the inverse of the armature's world matrix; [L] is the length
    of the first spline divided by the bone count. *)
Theorem bones_are_placed self ctx r ctx' :
  execute self ctx = Ok (FINISHED, r, ctx') → bones_placed self ctx ctx'.
Proof.
  intros (curve & spline & rest & space & pose & Hc & Hsp & Hinv & HN & Hrun)
    %execute_finished.
  cbn zeta in Hrun. destruct Hrun as (_ & _ & ->).
  destruct (create_links_shape self space (cursor_location ctx)
              (calc_length spline / Qc_of_nat (bone_count self))
              (edit_bones (active_object ctx)) (bone_count self))
    as (created & Hfold & Hlen & Hall).
  exists curve, spline, rest, space, created. split_and!; try done.
  cbn zeta. intros i Hi. destruct (Hall i Hi) as [Hb Hl].
  eexists _, _. split_and!; [exact Hb|exact Hl|..]; cbn.
  - by rewrite vscale_axis.
  - by rewrite vscale_axis.
  - done.
  - done.
Qed.

(** The link length of a finished run. *)
Lemma link_length_run self ctx r ctx' :
  execute self ctx = Ok (FINISHED, r, ctx') →
  ∃ curve spline rest,
    get_curve_object self ctx = Some (CurveData curve)
    ∧ splines curve = spline :: rest
    ∧ link_length_of _ self ctx ctx' (calc_length spline).
Proof.
  intros (curve & spline & rest & space & pose & Hc & Hsp & Hinv & HN & Hrun)
    %execute_finished.
  cbn zeta in Hrun. destruct Hrun as (_ & _ & ->).
  exists curve, spline, rest. split_and!; try done.
  exists space, (calc_length spline / Qc_of_nat (bone_count self)).
  split_and!; try done.
  field. by apply Qc_of_nat_nonzero.
Qed.

(** C3 (amended).  In a finished run every bone is built with the link
    length [L] obtained by dividing the arc length of the curve's first
    spline by the bone count, so [L * N] is that length. *)
Theorem link_length_first_spline self ctx r ctx' :
  execute self ctx = Ok (FINISHED, r, ctx') →
  ∃ curve spline rest,
    get_curve_object self ctx = Some (CurveData curve)
    ∧ splines curve = spline :: rest
    ∧ link_length_of _ self ctx ctx' (calc_length spline).
Proof. apply link_length_run. Qed.

(** C2 (amended).  In a finished run on an armature none of whose bones
    carries a generated name, exactly N main bones and N locators are
    appended, alternately; main bone [i] is named "{base}.{i:03d}", its
    locator "{base}.{i:03d}.Locator"; main bone 0 has no parent and main
    bone [i > 0] has main bone [i-1] as parent. *)
Theorem chain_is_built self ctx r ctx' :
  execute self ctx = Ok (FINISHED, r, ctx') →
  bone_names_free self (active_object ctx) →
  chain_built self (active_object ctx) (active_object ctx').
Proof.
  intros Hfin Hfree. pose proof (finished_names_fit _ _ _ _ Hfin Hfree) as Hfit.
  apply execute_finished in Hfin
    as (curve & spline & rest & space & pose & Hc & Hsp & Hinv & HN & Hrun).
  cbn zeta in Hrun. destruct Hrun as (_ & _ & ->).
  unfold chain_built. cbn [active_object edit_bones].
  rewrite create_links_fresh by done.
  set (L := calc_length spline / Qc_of_nat (bone_count self)).
  exists (fresh_links self space (cursor_location ctx) L (bone_count self)).
  split_and!; [done|apply pairs_length|].
  intros i Hi.
  destruct (pairs_lookup (fresh_main self space (cursor_location ctx) L)
              (fresh_locator self space L) (bone_count self) i Hi) as [Hb Hl].
  eexists _, _. split_and!; [exact Hb|exact Hl|done..|].
  intros Hpos. rewrite edit_bones_get_app, edit_bones_get_notin.
  - rewrite edit_bones_get_fresh_links by lia. symmetry.
    apply (pairs_lookup (fresh_main self space (cursor_location ctx) L)
             (fresh_locator self space L)). lia.
  - apply Hfree. apply elem_of_generated_names. exists (i - 1)%nat. split; [lia|by left].
Qed.


(** A generated name that is taken is not the name of the bone created. *)
Lemma taken_name_breaks_chain self ctx r ctx' :
  execute self ctx = Ok (FINISHED, r, ctx') →
  get_bone_name self 0 ∈ eb_names (edit_bones (active_object ctx)) →
  ¬ chain_built self (active_object ctx) (active_object ctx').
Proof.
  intros Hrun Htaken (created & Hbones & _ & Hall).
  apply execute_finished in Hrun
    as (curve & spline & rest & space & pose & _ & _ & _ & HN & Hrun).
  cbn zeta in Hrun. destruct Hrun as (_ & _ & ->). cbn [active_object edit_bones] in Hbones.
  destruct (create_links_shape self space (cursor_location ctx)
              (calc_length spline / Qc_of_nat (bone_count self))
              (edit_bones (active_object ctx)) (bone_count self))
    as (created' & Hfold & _ & Hall').
  rewrite Hfold in Hbones. apply app_inv_head in Hbones as ->.
  destruct (Hall 0%nat) as (b & l & Hb & _ & Hname & _); [lia|].
  destruct (Hall' 0%nat) as [Hb' _]; [lia|].
  rewrite Hb in Hb'. injection Hb' as ->. cbn in Hname. rewrite app_nil_r in Hname.
  pose proof (unique_name_fresh (eb_names (edit_bones (active_object ctx)))
                (cut_name (get_bone_name self 0))) as Hfresh.
  rewrite Hname in Hfresh. done.
Qed.

(** *** Beyond the specification *)

(** X1.  The names generated for a run, two for each link, are pairwise
    distinct, for every base name and every number of links. *)
Theorem generated_names_distinct self N : NoDup (generated_names self N).
Proof.
  induction N as [|N IH]; [constructor|].
  unfold generated_names. rewrite pairs_S. fold (generated_names self N).
  apply NoDup_app. split_and!; [done| |].
  - intros x (j & Hj & Hx)%elem_of_generated_names Hin.
    apply elem_of_cons in Hin as [->|Hin].
    + destruct Hx as [Hx|Hx].
      * apply get_bone_name_inj in Hx. lia.
      * by apply bone_name_not_locator in Hx.
    + apply list_elem_of_singleton in Hin as ->. destruct Hx as [Hx|Hx].
      * symmetry in Hx. by apply bone_name_not_locator in Hx.
      * apply get_locator_name_inj in Hx. lia.
  - apply NoDup_cons. split; [|apply NoDup_singleton].
    intros Hin%list_elem_of_singleton. by apply bone_name_not_locator in Hin.
Qed.

(** The second loop on the bones of the first, whatever names were taken,
    when every generated name is the name of a bone. *)
Lemma constrain_created_ok self ctx curve space L :
  let a := active_object ctx in
  let bones := foldl (create_link self space (cursor_location ctx) L)
                 (edit_bones a) (seq 0 (bone_count self)) in
  (∀ n, n ∈ generated_names self (bone_count self) → n ∈ eb_names bones) →
  ∃ pose,
    for_each (constrain_link self (ob_name a) curve) (seq 0 (bone_count self))
      (sync_pose bones (pose_bones a)) = Ok pose
    ∧ (∀ j, (j < bone_count self)%nat →
         constraints_of pose (get_locator_name self j)
         = Some (default [] (constraints_of (pose_bones a) (get_locator_name self j))
                 ++ [follow_path_of self curve j])
         ∧ constraints_of pose (get_bone_name self j)
           = Some (default [] (constraints_of (pose_bones a) (get_bone_name self j))
                   ++ [copy_location_of self (ob_name a) j; track_to_of self (ob_name a) j]))
    ∧ (∀ m, m ∉ generated_names self (bone_count self) → m ∈ eb_names bones →
         constraints_of pose m = Some (default [] (constraints_of (pose_bones a) m))).
Proof.
  intros a bones Hfound.
  assert (Hgen : ∀ j, (j < bone_count self)%nat →
            get_bone_name self j ∈ eb_names bones
            ∧ get_locator_name self j ∈ eb_names bones).
  { intros j Hj. split; apply Hfound, elem_of_generated_names; exists j; split; auto. }
  assert (Hsync : ∀ n, n ∈ eb_names bones →
            constraints_of (sync_pose bones (pose_bones a)) n
            = Some (default [] (constraints_of (pose_bones a) n))).
  { intros n Hn. rewrite constraints_of_sync. by rewrite decide_True. }
  destruct (constrain_links_ok self (ob_name a) curve (sync_pose bones (pose_bones a))
              (bone_count self) (bone_count self)) as (pose & Hrun & Hloc & Hbone & Hother).
  { done. }
  { intros j Hj. destruct (Hgen j Hj) as [Hb Hl]. rewrite !Hsync by done. split; by eexists. }
  exists pose. split_and!; [done| |].
  - intros j Hj. destruct (Hgen j Hj) as [Hb Hl].
    rewrite Hloc, Hbone by done. rewrite !Hsync by done. done.
  - intros m Hm Hin. rewrite Hother; [by apply Hsync|].
    intros j Hj. split; intros ->; apply Hm; apply elem_of_generated_names;
      exists j; split; auto.
Qed.






(** X5.  The run returns CANCELLED in the two cases of its guards only, no
    object under the curve name or a curve without splines, each with its
    own message, and then returns the context it was given. *)
Theorem run_cancels_iff self ctx r ctx' :
  execute self ctx = Ok (CANCELLED, r, ctx')
  ↔ ctx' = ctx
    ∧ ((get_curve_object self ctx = None
        ∧ r = [(ERROR_INVALID_INPUT, "Invalid curve object " +:+ curve_enum self)])
       ∨ (∃ curve, get_curve_object self ctx = Some (CurveData curve)
                   ∧ splines curve = []
                   ∧ r = [(ERROR_INVALID_INPUT,
                           "Curve object must have at least one spline")])).
Proof.
  unfold execute. split.
  - intros Hrun. destruct (get_curve_object self ctx) as [[curve|]|] eqn:Hc; cbn in Hrun.
    + destruct (splines curve) as [|spline rest] eqn:Hsp.
      * injection Hrun as <- <-. split; [done|]. right. by exists curve.
      * exfalso. unfold inverted_exn, py_div in Hrun.
        repeat match type of Hrun with
               | bind ?m _ = _ => destruct m; cbn [bind] in Hrun; [|done]
               | context [match ?m with _ => _ end] => destruct m; cbn [bind] in Hrun
               end; try done.
    + done.
    + injection Hrun as <- <-. split; [done|]. by left.
  - intros [-> [[Hc ->]|(curve & Hc & Hsp & ->)]]; rewrite Hc; [done|].
    cbn. by rewrite Hsp.
Qed.

(** X6.  A finished run on an armature whose bone names are distinct
    leaves the bone names distinct; every name there was is still there,
    and every generated name is the name of a bone. *)
Theorem bone_names_stay_distinct self ctx r ctx' :
  execute self ctx = Ok (FINISHED, r, ctx') →
  NoDup (eb_names (edit_bones (active_object ctx))) →
  NoDup (eb_names (edit_bones (active_object ctx')))
  ∧ (∀ n, n ∈ eb_names (edit_bones (active_object ctx)) →
          n ∈ eb_names (edit_bones (active_object ctx')))
  ∧ (∀ n, n ∈ generated_names self (bone_count self) →
          n ∈ eb_names (edit_bones (active_object ctx'))).
Proof.
  intros Hfin Hnd. pose proof (finished_names_found _ _ _ _ Hfin) as Hfound.
  apply execute_finished in Hfin
    as (curve & spline & rest & space & pose & Hc & Hsp & Hinv & HN & Hrun).
  cbn zeta in Hrun. destruct Hrun as (_ & _ & ->). cbn [active_object edit_bones] in *.
  destruct (create_links_names self space (cursor_location ctx)
              (calc_length spline / Qc_of_nat (bone_count self))
              (edit_bones (active_object ctx)) (bone_count self))
    as (more & Hnames & Hnd' & _ & _).
  cbn zeta in Hnames, Hnd'.
  split_and!; [by apply Hnd'| |done].
  intros n Hn. rewrite Hnames. apply elem_of_app. by left.
Qed.

(** X8.  In world space the links of a finished run lie along the x axis
    from the cursor: link [i] goes from [cursor + i*L] to
    [cursor + (i+1)*L], each link starts where the one before ends, and
    the last one ends at the length of the first spline from the
    cursor. *)
Theorem chain_spans_spline self ctx r ctx' :
  execute self ctx = Ok (FINISHED, r, ctx') → chain_in_world self ctx ctx'.
Proof.
  intros (curve & spline & rest & space & pose & Hc & Hsp & Hinv & HN & Hrun)
    %execute_finished.
  cbn zeta in Hrun. destruct Hrun as (_ & _ & ->).
  destruct (create_links_shape self space (cursor_location ctx)
              (calc_length spline / Qc_of_nat (bone_count self))
              (edit_bones (active_object ctx)) (bone_count self))
    as (created & Hfold & Hlen & Hall).
  exists curve, spline, rest, created. split_and!; try done.
  cbn zeta.
  assert (Hmain : ∀ i, (i < bone_count self)%nat →
            ∃ b, created !! (2 * i)%nat = Some b
                 ∧ head b = mat_apply space (vadd (cursor_location ctx)
                     (Vec (Qc_of_nat i * (calc_length spline / Qc_of_nat (bone_count self))) 0 0))
                 ∧ tail b = mat_apply space (vadd (cursor_location ctx)
                     (Vec (Qc_of_nat (i + 1)
                           * (calc_length spline / Qc_of_nat (bone_count self))) 0 0))).
  { intros i Hi. destruct (Hall i Hi) as [Hb _]. eexists. split; [exact Hb|].
    cbn. by rewrite !vscale_axis. }
  split_and!.
  - intros i Hi. destruct (Hmain i Hi) as (b & Hb & Hh & Ht). exists b.
    rewrite Hh, Ht, !(inverted_apply_r _ _ _ Hinv). done.
  - intros i b b' Hi Hb Hb'.
    destruct (Hmain i) as (b1 & Hb1 & _ & Ht); [lia|].
    destruct (Hmain (i + 1)%nat) as (b2 & Hb2 & Hh & _); [lia|].
    assert (b1 = b) as -> by congruence. assert (b2 = b') as -> by congruence.
    by rewrite Ht, Hh.
  - destruct (Hmain (bone_count self - 1)%nat) as (b & Hb & _ & Ht); [lia|].
    exists b. split; [done|]. rewrite Ht, (inverted_apply_r _ _ _ Hinv).
    replace (bone_count self - 1 + 1)%nat with (bone_count self) by lia.
    f_equal. apply Vec_eq; [|done|done]. field. by apply Qc_of_nat_nonzero.
Qed.

(** X9.  In a finished run, whatever names were taken, the pose bone that
    carries the name generated for locator [i] gets a FOLLOW_PATH
    constraint after the constraints it had, the pose bone that carries
    the name generated for main bone [i] gets a COPY_LOCATION and a
    TRACK_TO after those it had, and the other pose bones keep theirs.
    Each new constraint is the host's new constraint of its type with the
    attributes of lines 138-142, 145-146 and 149-151 assigned, whatever
    values the host gives the attributes that are not assigned. *)
Theorem constraints_are_appended self ctx r ctx' curve :
  execute self ctx = Ok (FINISHED, r, ctx') →
  get_curve_object self ctx = Some (CurveData curve) →
  constraints_appended self curve (active_object ctx) (active_object ctx').
Proof.
  intros Hfin Hcurve. pose proof (finished_names_found _ _ _ _ Hfin) as Hfound.
  apply execute_finished in Hfin
    as (curve' & spline & rest & space & pose & Hc & Hsp & Hinv & HN & Hrun).
  assert (curve' = curve) as -> by congruence.
  cbn zeta in Hrun. destruct Hrun as (Hpose & _ & ->).
  cbn [active_object edit_bones] in Hfound.
  destruct (constrain_created_ok self ctx curve space
              (calc_length spline / Qc_of_nat (bone_count self)) Hfound)
    as (pose' & Hrun & Hgen & Hother).
  cbn zeta in Hrun, Hgen, Hother.
  assert (pose' = pose) as -> by congruence.
  unfold constraints_appended. cbn [active_object pose_bones edit_bones].
  split; [exact Hgen|exact Hother].
Qed.

(** X2.  [curve_items] offers a name exactly when [get_curve_object] finds
    a curve object under it. *)
Theorem curve_items_are_curves self ctx :
  (curve_enum self, curve_enum self, EmptyString) ∈ curve_items ctx
  ↔ ∃ curve, get_curve_object self ctx = Some (CurveData curve).
Proof.
  unfold curve_items, get_curve_object. rewrite list_elem_of_fmap. split.
  - intros ([n d] & Heq & [Hcurve Hin]%list_elem_of_filter). cbn in Heq, Hcurve.
    injection Heq as ->. apply elem_of_map_to_list in Hin.
    destruct d as [curve|]; [by exists curve|done].
  - intros [curve Hc]. exists (curve_enum self, CurveData curve). split; [done|].
    apply list_elem_of_filter. split; [done|]. by apply elem_of_map_to_list.
Qed.

Lemma create_links_append self space C L l bones :
  ∃ more, foldl (create_link self space C L) bones l = bones ++ more.
Proof.
  revert bones. induction l as [|i l IH]; intros bones.
  - exists []. by rewrite app_nil_r.
  - cbn [foldl]. rewrite create_link_eq. cbn zeta.
    edestruct IH as [more ->]. eexists. by rewrite <- app_assoc.
Qed.

Lemma create_links_take self space C L bones0 N created i :
  foldl (create_link self space C L) bones0 (seq 0 N) = bones0 ++ created →
  (i ≤ N)%nat →
  bones0 ++ take (2 * i) created = foldl (create_link self space C L) bones0 (seq 0 i).
Proof.
  intros Hfold Hi.
  destruct (create_links_shape self space C L bones0 i) as (ci & Hci & Hlen & _).
  replace N with (i + (N - i))%nat in Hfold by lia.
  rewrite seq_app, foldl_app, Hci in Hfold.
  destruct (create_links_append self space C L (seq (0 + i) (N - i)) (bones0 ++ ci))
    as [more Hmore].
  rewrite Hmore, <- app_assoc in Hfold. apply app_inv_head in Hfold. subst created.
  rewrite Hci. f_equal. rewrite <- Hlen. by rewrite take_app_length.
Qed.

(** X7.  In a finished run, whatever names were taken, the first main bone
    has no parent, every other main bone has as parent the name
    generated for the link before it, which is the name of a bone, and
    the locators have no parent. *)
Theorem parents_are_set self ctx r ctx' :
  execute self ctx = Ok (FINISHED, r, ctx') →
  parents_set self (active_object ctx) (active_object ctx').
Proof.
  intros Hfin. pose proof (finished_names_found _ _ _ _ Hfin) as Hfound.
  apply execute_finished in Hfin
    as (curve & spline & rest & space & pose & Hc & Hsp & Hinv & HN & Hrun).
  cbn zeta in Hrun. destruct Hrun as (_ & _ & ->).
  cbn [active_object edit_bones] in Hfound.
  set (L := calc_length spline / Qc_of_nat (bone_count self)) in *.
  destruct (create_links_shape self space (cursor_location ctx) L
              (edit_bones (active_object ctx)) (bone_count self))
    as (created & Hfold & Hlen & Hall).
  exists created. split; [done|]. cbn [active_object edit_bones].
  intros i Hi. destruct (Hall i Hi) as [Hb Hl].
  assert (Hprev : (0 < i)%nat →
            get_bone_name self (i - 1)
            ∈ generated_names self (bone_count self)).
  { intros Hpos. apply elem_of_generated_names. exists (i - 1)%nat. split; [lia|by left]. }
  eexists _, _. split_and!; [exact Hb|exact Hl|..]; cbn [parent main_bone locator_bone].
  - destruct (decide (0 < i)%nat) as [Hpos|Hpos]; [|done].
    rewrite decide_True; [done|]. apply elem_of_app. left.
    rewrite (create_links_take _ _ _ _ _ _ _ i Hfold) by lia.
    apply generated_name_found.
    + apply elem_of_generated_names. exists (i - 1)%nat. split; [lia|by left].
    + eapply generated_name_found; [by apply Hprev|]. apply Hfound. by apply Hprev.
  - done.
  - intros Hpos. apply Hfound. by apply Hprev.
Qed.

End WithHost.

Lemma bone_names_free_check self a :
  forallb (λ n, bool_decide (n ∉ eb_names (edit_bones a)))
          (generated_names self (bone_count self)) = true →
  bone_names_free self a.
Proof.
  intros Hall n Hn. rewrite forallb_forall in Hall.
  apply list_elem_of_In in Hn. apply Hall in Hn. by apply bool_decide_eq_true in Hn.
Qed.


Lemma demo_run : execute (H := simple_host) demo_op demo_ctx = Ok (FINISHED, [], demo_ctx_1).
Proof. vm_compute. reflexivity. Qed.

Lemma demo_run_again :
  execute (H := simple_host) demo_op demo_ctx_1 = Ok (FINISHED, [], demo_ctx_2).
Proof. vm_compute. reflexivity. Qed.

Lemma two_spline_run :
  execute (H := simple_host) two_spline_op demo_ctx = Ok (FINISHED, [], two_spline_ctx_1).
Proof. vm_compute. reflexivity. Qed.

Lemma invalid_curve_cancels_witness :
  ∃ msg, execute (H := simple_host) empty_curve_op demo_ctx
         = Ok (CANCELLED, [(ERROR_INVALID_INPUT, msg)], demo_ctx).
Proof.
  apply (invalid_curve_cancels empty_curve_op demo_ctx).
  right. eexists. split; [vm_compute; reflexivity|reflexivity].
Defined.

Lemma bones_are_placed_witness : bones_placed demo_op demo_ctx demo_ctx_1.
Proof.
  apply (bones_are_placed (H := simple_host) demo_op demo_ctx []).
  vm_compute. reflexivity.
Defined.

Lemma link_length_first_spline_witness :
  ∃ curve spline rest,
    get_curve_object demo_op demo_ctx = Some (CurveData curve)
    ∧ splines curve = spline :: rest
    ∧ link_length_of simple_host demo_op demo_ctx demo_ctx_1 (calc_length spline).
Proof.
  apply (link_length_first_spline (H := simple_host) demo_op demo_ctx []).
  vm_compute. reflexivity.
Defined.

Lemma chain_is_built_witness :
  chain_built demo_op (active_object demo_ctx) (active_object demo_ctx_1).
Proof.
  apply (chain_is_built (H := simple_host) demo_op demo_ctx []).
  - vm_compute. reflexivity.
  - apply bone_names_free_check. vm_compute. reflexivity.
Defined.


(** C2 as stated fails: invoked a second time with the same properties,
    the operator finds its names taken, so the bones it creates are named
    otherwise and the parent looked up by name is a bone of the first
    chain. *)
Lemma chain_built_second_run_fails :
  ¬ (∀ (H : Host) self ctx r ctx',
       (1 ≤ bone_count self)%nat →
       execute self ctx = Ok (FINISHED, r, ctx') →
       chain_built self (active_object ctx) (active_object ctx')).
Proof.
  intros Hall.
  specialize (Hall simple_host demo_op demo_ctx_1 [] demo_ctx_2).
  revert Hall. intros Hall.
  eapply (taken_name_breaks_chain (H := simple_host)); [exact demo_run_again| |].
  - apply (bool_decide_unpack _). vm_compute. exact I.
  - apply Hall; [vm_compute; lia|exact demo_run_again].
Qed.


Lemma half_double x : x * half + x * half = x.
Proof.
  assert (Hh : half + half = 1) by (apply Qc_is_canon; reflexivity).
  rewrite <- Qcmult_plus_distr_r, Hh. ring.
Qed.

(** C3 as stated fails: on a curve of two splines of lengths 3 and 5 the
    link length is 3 / N, not 8 / N. *)
Lemma link_length_total_fails :
  ¬ (∀ (H : Host) self ctx r ctx' curve,
       (1 ≤ bone_count self)%nat →
       execute self ctx = Ok (FINISHED, r, ctx') →
       get_curve_object self ctx = Some (CurveData curve) →
       0 < curve_arc_length curve →
       link_length_of H self ctx ctx' (curve_arc_length curve)).
Proof.
  intros Hall.
  destruct (Hall simple_host two_spline_op demo_ctx [] two_spline_ctx_1 two_spline_curve
              ltac:(vm_compute; lia) two_spline_run ltac:(vm_compute; reflexivity)
              ltac:(vm_compute; reflexivity))
    as (space & L & Hinv & HL & _ & Hbones).
  destruct (link_length_run (H := simple_host) two_spline_op demo_ctx []
              two_spline_ctx_1 two_spline_run)
    as (curve & spline & rest & Hc & Hsp & space' & L' & Hinv' & HL' & _ & Hbones').
  assert (curve = two_spline_curve) as ->.
  { vm_compute in Hc. by injection Hc as <-. }
  injection Hsp as <- _.
  change (matrix_world (active_object demo_ctx)) with mat_identity in Hinv, Hinv'.
  rewrite inverted_identity in Hinv, Hinv'. injection Hinv as <-. injection Hinv' as <-.
  rewrite Hbones in Hbones'. change (bone_count two_spline_op) with 1%nat in Hbones'.
  cbn [seq foldl] in Hbones'. rewrite !create_link_eq in Hbones'.
  apply app_inv_head in Hbones'.
  apply (f_equal (λ bs, from_option (λ b, vx (tail b)) 0 (bs !! 1%nat))) in Hbones'.
  cbn [lookup list_lookup from_option tail locator_bone] in Hbones'.
  rewrite !mat_apply_identity in Hbones'. cbn [vx] in Hbones'. rename Hbones' into Hloc.
  assert (L = L') as Heq.
  { rewrite <- (half_double L), <- (half_double L'). by rewrite Hloc. }
  rewrite HL, HL' in Heq. apply (f_equal this) in Heq. vm_compute in Heq.
  discriminate Heq.
Qed.



Lemma run_cancels_iff_witness :
  execute (H := simple_host) missing_op demo_ctx
  = Ok (CANCELLED, [(ERROR_INVALID_INPUT, "Invalid curve object Nothing")], demo_ctx).
Proof.
  apply (proj2 (run_cancels_iff (H := simple_host) missing_op demo_ctx _ demo_ctx)).
  split; [reflexivity|]. left. split; [vm_compute; reflexivity|reflexivity].
Defined.

Lemma bone_names_stay_distinct_witness :
  NoDup (eb_names (edit_bones (active_object demo_ctx_2)))
  ∧ (∀ n, n ∈ eb_names (edit_bones (active_object demo_ctx_1)) →
          n ∈ eb_names (edit_bones (active_object demo_ctx_2)))
  ∧ (∀ n, n ∈ generated_names demo_op (bone_count demo_op) →
          n ∈ eb_names (edit_bones (active_object demo_ctx_2))).
Proof.
  apply (bone_names_stay_distinct (H := simple_host) demo_op demo_ctx_1 []).
  - vm_compute. reflexivity.
  - apply (bool_decide_unpack _). vm_compute. exact I.
Defined.

Lemma chain_spans_spline_witness : chain_in_world demo_op demo_ctx demo_ctx_1.
Proof.
  apply (chain_spans_spline (H := simple_host) demo_op demo_ctx []).
  vm_compute. reflexivity.
Defined.

Lemma constraints_are_appended_witness :
  constraints_appended (H := simple_host) demo_op demo_curve (active_object demo_ctx_1)
    (active_object demo_ctx_2).
Proof.
  apply (constraints_are_appended (H := simple_host) demo_op demo_ctx_1 []).
  - vm_compute. reflexivity.
  - vm_compute. reflexivity.
Defined.

Lemma parents_are_set_witness :
  parents_set demo_op (active_object demo_ctx_1) (active_object demo_ctx_2).
Proof.
  apply (parents_are_set (H := simple_host) demo_op demo_ctx_1 []).
  vm_compute. reflexivity.
Defined.

Lemma curve_items_are_curves_witness :
  (curve_enum demo_op, curve_enum demo_op, EmptyString) ∈ curve_items mixed_ctx.
Proof.
  apply (proj2 (curve_items_are_curves demo_op mixed_ctx)).
  exists demo_curve. vm_compute. reflexivity.
Defined.

End AddBoneChainProofs.

(** ** CreateChainMeshArray *)

Module CreateChainMeshArrayProofs.
Import CreateChainMeshArray CreateChainMeshArrayProps.

Lemma walk_chain_sound arm fuel n chain :
  walk_chain arm fuel n = Some chain →
  first_child_path arm n chain ∧ (length chain ≤ fuel)%nat.
Proof.
  revert n chain. induction fuel as [|f IH]; intros n chain Hw; [done|].
  cbn in Hw. destruct (arm !! n) as [b|] eqn:Hb; [|done].
  destruct (children b) as [|c cs] eqn:Hc.
  - injection Hw as <-. split; [by apply fcp_last|cbn; lia].
  - destruct (walk_chain arm f c) as [rest|] eqn:Hrest; [|done].
    injection Hw as <-. destruct (IH _ _ Hrest) as [Hp Hl].
    split; [by eapply fcp_next|cbn; lia].
Qed.

Lemma walk_chain_complete arm fuel n chain :
  first_child_path arm n chain → (length chain ≤ fuel)%nat →
  walk_chain arm fuel n = Some chain.
Proof.
  intros Hp. revert fuel. induction Hp as [n b Hb Hc|n b c cs rest Hb Hc Hp IH];
    intros [|f] Hl; cbn in Hl; try lia; cbn; rewrite Hb, Hc.
  - done.
  - rewrite (IH f); [done|lia].
Qed.

Lemma first_child_path_functional arm n p q :
  first_child_path arm n p → first_child_path arm n q → p = q.
Proof.
  intros Hp. revert q. induction Hp as [n b Hb Hc|n b c cs rest Hb Hc Hp IH];
    intros q Hq; inversion Hq as [? b2 Hb2 Hc2|? b2 c2 cs2 rest2 Hb2 Hc2 Hp2];
    simplify_eq; try congruence.
  f_equal. apply IH. congruence.
Qed.

Lemma first_child_path_suffix arm n p pre m b post :
  first_child_path arm n p → p = pre ++ (m, b) :: post →
  first_child_path arm m ((m, b) :: post).
Proof.
  intros Hp. revert pre. induction Hp as [n b' Hb Hc|n b' c cs rest Hb Hc Hp IH];
    intros [|x pre] Heq; simplify_eq/=.
  - by apply fcp_last.
  - by destruct pre.
  - by eapply fcp_next.
  - by eapply IH.
Qed.

Lemma first_child_path_NoDup arm n p :
  first_child_path arm n p → NoDup p.*1.
Proof.
  intros Hp. induction Hp as [n b Hb Hc|n b c cs rest Hb Hc Hp IH]; cbn.
  - apply NoDup_singleton.
  - apply NoDup_cons. split; [|done]. intros Hin.
    apply list_elem_of_fmap in Hin as ([m b'] & Hm & Hin). cbn in Hm. subst m.
    apply list_elem_of_split in Hin as (pre & post & Heq).
    assert (Hsub : first_child_path arm n ((n, b') :: post)).
    { eapply (first_child_path_suffix arm n ((n, b) :: rest) ((n, b) :: pre));
        [by eapply fcp_next|]. by rewrite Heq. }
    assert (Hwhole : first_child_path arm n ((n, b) :: rest)) by by eapply fcp_next.
    pose proof (first_child_path_functional _ _ _ _ Hsub Hwhole) as Heq'.
    apply (f_equal length) in Heq'. rewrite Heq in Heq'. cbn in Heq'.
    rewrite length_app in Heq'. cbn in Heq'. lia.
Qed.


Lemma walk_chain_terminates arm (V : gset string) n fuel :
  acyclic arm → children_closed arm →
  is_Some (arm !! n) → n ∉ V → V ⊆ dom arm →
  (∀ v, v ∈ V → tc (child_of arm) v n) →
  (size (dom arm ∖ V) ≤ fuel)%nat →
  ∃ chain, walk_chain arm fuel n = Some chain
           ∧ (length chain ≤ size (dom arm ∖ V))%nat.
Proof.
  intros Hacyc Hclosed. revert n V.
  induction fuel as [|f IH]; intros n V [b Hb] HnV HV Hanc Hsize.
  - exfalso. assert (n ∈ dom arm ∖ V) as Hin.
    { apply elem_of_difference. split; [by apply elem_of_dom|done]. }
    assert (size (dom arm ∖ V) ≠ 0)%nat; [|lia].
    intros Hz. apply size_empty_inv in Hz. by apply Hz in Hin.
  - assert (Hstep : (size (dom arm ∖ (V ∪ {[n]})) < size (dom arm ∖ V))%nat).
    { apply subset_size. split.
      - intros x [Hx Hnx]%elem_of_difference. apply elem_of_difference.
        split; [done|]. intros HxV. apply Hnx. apply elem_of_union. by left.
      - intros Hsub. assert (n ∈ dom arm ∖ V) as Hin.
        { apply elem_of_difference. split; [by apply elem_of_dom|done]. }
        apply Hsub in Hin. apply elem_of_difference in Hin as [_ Hn].
        apply Hn. apply elem_of_union. right. by apply elem_of_singleton. }
    cbn. rewrite Hb. destruct (children b) as [|c cs] eqn:Hc.
    + eexists. split; [done|]. cbn. lia.
    + assert (Hchild : child_of arm n c).
      { exists b. split; [done|]. rewrite Hc. apply list_elem_of_here. }
      destruct (IH c (V ∪ {[n]})) as (rest & Hrest & Hlen).
      * by eapply Hclosed.
      * intros [Hin| ->%elem_of_singleton]%elem_of_union.
        -- apply (Hacyc c). eapply tc_r; [by apply Hanc|done].
        -- apply (Hacyc n). by apply tc_once.
      * apply union_subseteq. split; [done|].
        apply singleton_subseteq_l. by apply elem_of_dom.
      * intros v [Hin| ->%elem_of_singleton]%elem_of_union.
        -- eapply tc_r; [by apply Hanc|done].
        -- by apply tc_once.
      * lia.
      * rewrite Hrest. eexists. split; [done|]. cbn. lia.
Qed.

(** C6.  The chain is the walk that starts at the root and goes on to the
    first child until a bone has no children: it is the one first-child
    path from the root, it begins with the root, and every later entry is
    the first child (index 0) of the entry before it. *)
Theorem chain_is_first_child_walk arm fuel root chain :
  walk_chain arm fuel root = Some chain →
  first_child_path arm root chain
  ∧ (∀ q, first_child_path arm root q → q = chain)
  ∧ head chain.*1 = Some root
  ∧ (∀ i a c, chain !! i = Some a → chain !! S i = Some c →
       children (snd a) !! 0%nat = Some (fst c))
  ∧ (∀ a, last chain = Some a → children (snd a) = []).
Proof.
  intros Hw. apply walk_chain_sound in Hw as [Hp _]. split_and!.
  - done.
  - intros q Hq. by eapply first_child_path_functional.
  - by destruct Hp.
  - clear fuel. induction Hp as [n b Hb Hc|n b c cs rest Hb Hc Hp IH];
      intros [|i] a x Ha Hx; simplify_eq/=.
    + rewrite Hc. cbn. destruct Hp; by simplify_eq/=.
    + by eapply IH.
  - clear fuel. induction Hp as [n b Hb Hc|n b c cs rest Hb Hc Hp IH]; intros a Ha.
    + cbn in Ha. injection Ha as <-. exact Hc.
    + apply IH. rewrite last_cons in Ha. destruct (last rest) eqn:Hlast; [done|].
      exfalso. destruct Hp; [done|].
      rewrite last_cons in Hlast. by destruct (last rest).
Qed.

(** C10.  In an acyclic hierarchy whose children are bones of the armature,
    the walk from any bone ends: with fuel for as many bones as the
    armature has it returns a chain, which has no repeated bone and at most
    as many entries as the armature has bones. *)
Theorem chain_walk_terminates arm root :
  acyclic arm → children_closed arm → is_Some (arm !! root) →
  ∃ chain,
    (∀ fuel, (size arm ≤ fuel)%nat → walk_chain arm fuel root = Some chain)
    ∧ NoDup chain.*1
    ∧ (length chain ≤ size arm)%nat.
Proof.
  intros Hacyc Hclosed Hroot.
  destruct (walk_chain_terminates arm ∅ root (size arm) Hacyc Hclosed Hroot)
    as (chain & Hw & Hlen).
  - apply not_elem_of_empty.
  - apply empty_subseteq.
  - intros v Hv. by apply elem_of_empty in Hv.
  - rewrite difference_empty_L, size_dom. done.
  - rewrite difference_empty_L, size_dom in Hlen.
    apply walk_chain_sound in Hw as [Hp _].
    exists chain. split_and!; [|by eapply first_child_path_NoDup|done].
    intros fuel Hf. apply walk_chain_complete; [done|lia].
Qed.

Lemma ranked_acyclic arm rank : ranked arm rank → acyclic arm.
Proof.
  intros Hr. assert (Hlt : ∀ a c, tc (child_of arm) a c → (rank a < rank c)%nat).
  { intros a c Htc. induction Htc as [a c (b & Hb & Hc)|a m c (b & Hb & Hc) _ IH].
    - specialize (Hr a b Hb). cbn in Hr. rewrite Forall_forall in Hr. by apply Hr.
    - specialize (Hr a b Hb). cbn in Hr. rewrite Forall_forall in Hr.
      specialize (Hr m Hc). lia. }
  intros a Ha. apply Hlt in Ha. lia.
Qed.

Lemma children_present_closed arm : children_present arm → children_closed arm.
Proof.
  intros Hp a c (b & Hb & Hc). specialize (Hp a b Hb). cbn in Hp.
  rewrite Forall_forall in Hp. by apply Hp.
Qed.

Lemma demo_walk : walk_chain demo_bones 4 "Root" = Some demo_chain.
Proof. vm_compute. reflexivity. Qed.

Lemma chain_is_first_child_walk_witness :
  first_child_path demo_bones "Root" demo_chain
  ∧ (∀ q, first_child_path demo_bones "Root" q → q = demo_chain)
  ∧ head demo_chain.*1 = Some "Root"
  ∧ (∀ i a c, demo_chain !! i = Some a → demo_chain !! S i = Some c →
       children (snd a) !! 0%nat = Some (fst c))
  ∧ (∀ a, last demo_chain = Some a → children (snd a) = []).
Proof.
  apply (chain_is_first_child_walk demo_bones 4 "Root" demo_chain).
  vm_compute. reflexivity.
Defined.

Lemma chain_walk_terminates_witness :
  ∃ chain,
    (∀ fuel, (size demo_bones ≤ fuel)%nat →
       walk_chain demo_bones fuel "Root" = Some chain)
    ∧ NoDup chain.*1
    ∧ (length chain ≤ size demo_bones)%nat.
Proof.
  apply (chain_walk_terminates demo_bones "Root").
  - apply (ranked_acyclic _ demo_rank). apply (bool_decide_unpack _). vm_compute. exact I.
  - apply children_present_closed. apply (bool_decide_unpack _). vm_compute. exact I.
  - apply (bool_decide_unpack _). vm_compute. exact I.
Defined.

(** *** Vertex groups and mesh tables *)

Lemma filter_ne_notin (x : string) (A : list string) :
  x ∉ A → filter (λ g, g ≠ x) A = A.
Proof.
  induction A as [|a A IH]; intros Hx; [done|].
  apply not_elem_of_cons in Hx as [Hne Hx].
  rewrite filter_cons_True by congruence. f_equal. by apply IH.
Qed.

Lemma delete_filter_ne (x : string) (A : list string) k :
  NoDup A → A !! k = Some x → delete k A = filter (λ g, g ≠ x) A.
Proof.
  revert k. induction A as [|a A IH]; intros k Hnd Hk; [done|].
  apply NoDup_cons in Hnd as [Ha Hnd]. destruct k as [|k]; cbn in Hk.
  - injection Hk as ->. rewrite filter_cons_False by (intros ?; done).
    by rewrite filter_ne_notin.
  - rewrite filter_cons_True.
    + cbn. f_equal. by apply IH.
    + intros ->. apply Ha. by eapply list_elem_of_lookup_2.
Qed.

Lemma vertex_groups_get_Some gs name k :
  vertex_groups_get gs name = Some k → gs !! k = Some name.
Proof.
  unfold vertex_groups_get. destruct (list_find _ gs) as [[i x]|] eqn:Hf; [|done].
  intros [= <-]. apply list_find_Some in Hf as (Hi & -> & _). done.
Qed.

Lemma vertex_groups_get_None gs name :
  vertex_groups_get gs name = None → name ∉ gs.
Proof.
  unfold vertex_groups_get. destruct (list_find _ gs) as [[i x]|] eqn:Hf; [done|].
  intros _. apply list_find_None in Hf. rewrite Forall_forall in Hf.
  intros Hin. by apply (Hf name).
Qed.

Lemma vertex_groups_get_NoDup gs name k :
  NoDup gs → gs !! k = Some name → vertex_groups_get gs name = Some k.
Proof.
  intros Hnd Hk. unfold vertex_groups_get.
  destruct (list_find _ gs) as [[i x]|] eqn:Hf.
  - apply list_find_Some in Hf as (Hi & -> & _). cbn. f_equal.
    by eapply NoDup_lookup.
  - apply list_find_None in Hf. rewrite Forall_forall in Hf.
    exfalso. apply (Hf name); [by eapply list_elem_of_lookup_2|done].
Qed.

Lemma dvert_remove_group_below k g d :
  (k < g)%nat → Forall (λ e, (fst e < g)%nat) d →
  Forall (λ e, (fst e < g - 1)%nat) (dvert_remove_group k d).
Proof.
  intros Hk Hd. unfold dvert_remove_group. apply Forall_fmap.
  apply Forall_forall. intros e [Hne He]%list_elem_of_filter. cbn.
  rewrite Forall_forall in Hd. specialize (Hd e He).
  destruct (decide (k < fst e)%nat); cbn; lia.
Qed.

Lemma same_shape_refl V : same_shape V V.
Proof. unfold same_shape. apply Forall2_same_length_lookup. split; [done|].
  intros i x y Hx Hy. by simplify_eq. Qed.

Lemma same_shape_trans V1 V2 V3 : same_shape V1 V2 → same_shape V2 V3 → same_shape V1 V3.
Proof.
  unfold same_shape. intros H12 H23. revert V3 H23.
  induction H12 as [|a b V1 V2 [? ?] _ IH]; intros V3 H23; inversion H23 as [|? c ? V3' [? ?]];
    subst; constructor; [split; congruence|by apply IH].
Qed.

Lemma same_shape_set_dvert f V :
  same_shape V ((λ v, set_dvert (f v) v) <$> V).
Proof.
  unfold same_shape. induction V as [|v V IH]; cbn; constructor; [done|apply IH].
Qed.

Lemma foldl_alter_block {A} (f : A → A) (P B : list A) :
  foldl (λ l i, alter f i l) (P ++ B) (seq (length P) (length B)) = P ++ (f <$> B).
Proof.
  revert P. induction B as [|x B IH]; intros P; [done|].
  cbn [length seq foldl]. rewrite alter_app_r_alt by lia. rewrite Nat.sub_diag. cbn [alter list_alter].
  rewrite (cons_middle (f x)), app_assoc.
  replace (S (length P)) with (length (P ++ [f x])) by (rewrite length_app; cbn; lia).
  rewrite IH. rewrite <- app_assoc. done.
Qed.

Lemma foldl_alter_prefix {A} (f : A → A) (P B : list A) vs :
  Forall (λ i, (i < length P)%nat) vs →
  foldl (λ l i, alter f i l) (P ++ B) vs = foldl (λ l i, alter f i l) P vs ++ B.
Proof.
  revert P. induction vs as [|i vs IH]; intros P Hvs; [done|].
  apply Forall_cons in Hvs as [Hi Hvs]. cbn [foldl].
  rewrite alter_app_l by done. apply IH. by rewrite length_alter.
Qed.

Lemma omap_lookup_app {A} (P B : list A) T :
  Forall (λ i, (i < length P)%nat) T →
  omap (λ i, (P ++ B) !! i) T = omap (λ i, P !! i) T.
Proof.
  induction T as [|t T IH]; intros HT; [done|].
  apply Forall_cons in HT as [Ht HT]. cbn. rewrite lookup_app_l by done.
  by rewrite IH.
Qed.

Lemma length_omap_lookup {A} (P : list A) T :
  Forall (λ i, (i < length P)%nat) T → length (omap (λ i, P !! i) T) = length T.
Proof.
  induction T as [|t T IH]; intros HT; [done|].
  apply Forall_cons in HT as [Ht HT]. cbn.
  destruct (lookup_lt_is_Some_2 P t Ht) as [x ->]. cbn. by rewrite IH.
Qed.

Lemma vert_refs_app g1 g2 : vert_refs (g1 ++ g2) = vert_refs g1 ++ vert_refs g2.
Proof. apply omap_app. Qed.
Lemma edge_refs_app g1 g2 : edge_refs (g1 ++ g2) = edge_refs g1 ++ edge_refs g2.
Proof. apply omap_app. Qed.
Lemma face_refs_app g1 g2 : face_refs (g1 ++ g2) = face_refs g1 ++ face_refs g2.
Proof. apply omap_app. Qed.

Lemma vert_refs_verts l : vert_refs (BMVertRef <$> l) = l.
Proof. induction l as [|x l IH]; [done|]. cbn. f_equal. exact IH. Qed.
Lemma vert_refs_edges l : vert_refs (BMEdgeRef <$> l) = [].
Proof. induction l as [|x l IH]; [done|]. exact IH. Qed.
Lemma vert_refs_faces l : vert_refs (BMFaceRef <$> l) = [].
Proof. induction l as [|x l IH]; [done|]. exact IH. Qed.
Lemma edge_refs_verts l : edge_refs (BMVertRef <$> l) = [].
Proof. induction l as [|x l IH]; [done|]. exact IH. Qed.
Lemma edge_refs_edges l : edge_refs (BMEdgeRef <$> l) = l.
Proof. induction l as [|x l IH]; [done|]. cbn. f_equal. exact IH. Qed.
Lemma edge_refs_faces l : edge_refs (BMFaceRef <$> l) = [].
Proof. induction l as [|x l IH]; [done|]. exact IH. Qed.
Lemma face_refs_verts l : face_refs (BMVertRef <$> l) = [].
Proof. induction l as [|x l IH]; [done|]. exact IH. Qed.
Lemma face_refs_edges l : face_refs (BMEdgeRef <$> l) = [].
Proof. induction l as [|x l IH]; [done|]. exact IH. Qed.
Lemma face_refs_faces l : face_refs (BMFaceRef <$> l) = l.
Proof. induction l as [|x l IH]; [done|]. cbn. f_equal. exact IH. Qed.

Lemma selected_geom_refs m :
  vert_refs (selected_geom m) = selected_ids v_select (verts m)
  ∧ edge_refs (selected_geom m) = selected_ids e_select (edges m)
  ∧ face_refs (selected_geom m) = selected_ids f_select (faces m).
Proof.
  unfold selected_geom. split_and!.
  - by rewrite !vert_refs_app, vert_refs_faces, vert_refs_edges, vert_refs_verts.
  - by rewrite !edge_refs_app, edge_refs_faces, edge_refs_edges, edge_refs_verts, app_nil_r.
  - by rewrite !face_refs_app, face_refs_faces, face_refs_edges, face_refs_verts, !app_nil_r.
Qed.

Lemma selected_ids_below {A} (sel : A → bool) (l : list A) :
  Forall (λ i, (i < length l)%nat) (selected_ids sel l).
Proof.
  unfold selected_ids. apply Forall_fmap. apply Forall_forall.
  intros [i x] [_ Hin]%list_elem_of_filter. cbn.
  apply elem_of_zip_l in Hin. apply elem_of_seq in Hin. lia.
Qed.

Lemma selected_geom_valid m : geom_valid m (selected_geom m).
Proof.
  destruct (selected_geom_refs m) as (Hv & He & Hf). unfold geom_valid.
  rewrite Hv, He, Hf. split_and!; apply selected_ids_below.
Qed.

Lemma bind_ext_Forall {A B} (f g : A → list B) l :
  Forall (λ x, f x = g x) l → l ≫= f = l ≫= g.
Proof.
  induction 1 as [|x l Hx _ IH]; [done|]. cbn. by rewrite Hx, IH.
Qed.

Lemma filter_all {A} (P : A → Prop) `{!∀ x, Decision (P x)} l :
  Forall P l → filter P l = l.
Proof.
  induction 1 as [|x l Hx _ IH]; [done|]. rewrite filter_cons_True by done. by f_equal.
Qed.

Lemma elem_of_flagged n refs i : i ∈ flagged n refs ↔ (i < n)%nat ∧ i ∈ refs.
Proof.
  unfold flagged. rewrite list_elem_of_filter, elem_of_seq. split; [|intros []; split; [done|lia]].
  intros [? ?]. split; [lia|done].
Qed.

Lemma flagged_extend n n' refs :
  Forall (λ i, (i < n)%nat) refs → (n ≤ n')%nat → flagged n' refs = flagged n refs.
Proof.
  intros Hrefs Hn. unfold flagged. replace n' with (n + (n' - n))%nat by lia.
  rewrite seq_app, filter_app. rewrite <- (app_nil_r (filter _ (seq 0 n))) at 2. f_equal.
  assert (Hnone : ∀ l, Forall (λ i, (n ≤ i)%nat) l → filter (λ i, i ∈ refs) l = []).
  { induction 1 as [|i l Hi _ IH]; [done|]. rewrite filter_cons_False; [done|].
    intros Hin. rewrite Forall_forall in Hrefs. apply Hrefs in Hin. lia. }
  apply Hnone, Forall_forall. intros i Hi%elem_of_seq. lia.
Qed.

Lemma first_mentions_go (seen l : list nat) x :
  x ∈ foldl (λ seen i, if decide (i ∈ seen) then seen else seen ++ [i]) seen l
  ↔ x ∈ seen ∨ x ∈ l.
Proof.
  revert seen. induction l as [|a l IH]; intros seen; cbn [foldl].
  - rewrite elem_of_nil. tauto.
  - rewrite IH, elem_of_cons. destruct (decide (a ∈ seen)) as [Ha|Ha].
    + split; [tauto|]. intros [?|[->|?]]; tauto.
    + rewrite elem_of_app, list_elem_of_singleton. tauto.
Qed.

Lemma elem_of_first_mentions l x : x ∈ first_mentions l ↔ x ∈ l.
Proof. unfold first_mentions. rewrite first_mentions_go, elem_of_nil. tauto. Qed.

Lemma raw_ids_below m geom :
  mesh_wf m → Forall (λ i, (i < length (verts m))%nat) (raw_ids m geom).
Proof.
  intros [He Hf]. unfold raw_ids.
  apply Forall_app. split.
  { apply Forall_forall. by intros i [? _]%elem_of_flagged. }
  apply Forall_app. split.
  - apply Forall_bind. apply Forall_forall. intros i _. unfold compose, edge_vert_ids.
    destruct (edges m !! i) as [e|] eqn:Hi; [|constructor].
    destruct (Forall_lookup_1 _ _ _ _ He Hi) as [? ?]. repeat constructor; done.
  - apply Forall_bind. apply Forall_forall. intros i _. unfold compose, face_vert_ids.
    destruct (faces m !! i) as [f|] eqn:Hi; [|constructor].
    exact (Forall_lookup_1 _ _ _ _ Hf Hi).
Qed.

Lemma raw_ids_extend m m' geom Ex Fx :
  geom_valid m geom →
  edges m' = edges m ++ Ex → faces m' = faces m ++ Fx →
  (length (verts m) ≤ length (verts m'))%nat →
  raw_ids m' geom = raw_ids m geom.
Proof.
  intros (Hgv & Hge & Hgf) He Hf Hlen. unfold raw_ids.
  rewrite (flagged_extend (length (verts m)) (length (verts m'))) by done.
  rewrite (flagged_extend (length (edges m)) (length (edges m')))
    by (done || rewrite He, length_app; lia).
  rewrite (flagged_extend (length (faces m)) (length (faces m')))
    by (done || rewrite Hf, length_app; lia).
  f_equal. f_equal.
  - apply bind_ext_Forall. apply Forall_forall. intros i [Hi _]%elem_of_flagged.
    unfold edge_vert_ids. by rewrite He, lookup_app_l.
  - apply bind_ext_Forall. apply Forall_forall. intros i [Hi _]%elem_of_flagged.
    unfold face_vert_ids. by rewrite Hf, lookup_app_l.
Qed.

Lemma template_verts_below m geom :
  Forall (λ i, (i < length (verts m))%nat) (template_verts m geom).
Proof.
  unfold template_verts. apply Forall_forall. by intros i [? _]%list_elem_of_filter.
Qed.

Lemma template_verts_extend m m' geom Ex Fx :
  mesh_wf m → geom_valid m geom →
  edges m' = edges m ++ Ex → faces m' = faces m ++ Fx →
  (length (verts m) ≤ length (verts m'))%nat →
  template_verts m' geom = template_verts m geom.
Proof.
  intros Hwf Hg He Hf Hlen. unfold template_verts.
  rewrite (raw_ids_extend m m' geom Ex Fx) by done.
  pose proof (raw_ids_below m geom Hwf) as Hb.
  assert (Hb' : Forall (λ i, (i < length (verts m))%nat) (first_mentions (raw_ids m geom))).
  { apply Forall_forall. intros i Hi. apply (proj1 (elem_of_first_mentions _ _)) in Hi.
    exact (proj1 (Forall_forall _ _) Hb i Hi). }
  rewrite !filter_all; [done|done|].
  eapply Forall_impl; [exact Hb'|]. cbn. intros; lia.
Qed.

Lemma selected_ids_from {A B} (sa : A → bool) (sb : B → bool) la lb s :
  Forall2 (λ a b, sa a = sb b) la lb →
  (filter (λ p, sa (snd p) = true) (zip (seq s (length la)) la)).*1
  = (filter (λ p, sb (snd p) = true) (zip (seq s (length lb)) lb)).*1.
Proof.
  intros Hab. revert s. induction Hab as [|a b la lb Hx _ IH]; intros s; [done|].
  cbn [length seq zip zip_with]. destruct (sa a) eqn:Ha.
  - rewrite !filter_cons_True by (cbn; congruence). cbn. f_equal. apply IH.
  - rewrite !filter_cons_False by (cbn; congruence). apply IH.
Qed.

Lemma selected_geom_same_shape m m' :
  same_shape (verts m) (verts m') → edges m' = edges m → faces m' = faces m →
  selected_geom m' = selected_geom m.
Proof.
  intros Hs He Hf. unfold selected_geom, selected_ids. rewrite He, Hf. do 3 f_equal.
  symmetry. apply selected_ids_from. eapply Forall2_impl; [exact Hs|].
  by intros ?? [_ ?].
Qed.

Lemma replicate_link_spec m0 geom S p0 o D Ex Fx name b idx :
  mesh_wf m0 → geom_valid m0 geom →
  verts (bm o) = verts m0 ++ D →
  edges (bm o) = edges m0 ++ Ex →
  faces (bm o) = faces m0 ++ Fx →
  vertex_groups_get (vertex_groups o) name = Some idx →
  ∃ o' Ex' Fx',
    replicate_link S geom p0 o (name, b) = Ok o'
    ∧ verts (bm o')
      = verts m0 ++ D
        ++ dup_verts (verts m0) (template_verts m0 geom)
             (move_point S (vsub (midpoint b) p0)) idx
    ∧ edges (bm o') = edges m0 ++ Ex'
    ∧ faces (bm o') = faces m0 ++ Fx'
    ∧ vertex_groups o' = vertex_groups o
    ∧ matrix_world o' = matrix_world o.
Proof.
  intros Hwf Hg Hv He Hf Hidx. unfold replicate_link, duplicate.
  assert (HT : template_verts (bm o) geom = template_verts m0 geom).
  { eapply template_verts_extend; try done. rewrite Hv, length_app. lia. }
  rewrite HT. set (T := template_verts m0 geom).
  assert (Hnew : omap (λ i, verts (bm o) !! i) T = omap (λ i, verts m0 !! i) T).
  { rewrite Hv. apply omap_lookup_app. apply template_verts_below. }
  rewrite Hnew. set (new_verts := set_v_select false <$> omap (λ i, verts m0 !! i) T).
  cbn zeta. cbn [fst snd].
  rewrite !vert_refs_app, vert_refs_verts, vert_refs_edges, vert_refs_faces, !app_nil_r.
  unfold translate, assign_bone_verts. cbn [verts bm set_bm set_verts vertex_groups].
  rewrite Hidx. cbn [attr_of bind].
  rewrite foldl_alter_block.
  rewrite <- (length_fmap (λ v, set_co (move_point S (vsub (midpoint b) p0) (co v)) v) new_verts).
  change (λ v : BMVert,
            set_co match inverted S with
                   | Some imat => mat_apply imat (vadd (mat_apply S (co v)) (vsub (midpoint b) p0))
                   | None => vzero
                   end v)
    with (λ v : BMVert, set_co (move_point S (vsub (midpoint b) p0) (co v)) v).
  rewrite foldl_alter_block.
  eexists _, _, _. split; [reflexivity|]. cbn. split_and!.
  - rewrite Hv, <- app_assoc. do 2 f_equal. unfold dup_verts, new_verts. fold T.
    rewrite <- !list_fmap_compose. done.
  - rewrite He, <- app_assoc. reflexivity.
  - rewrite Hf, <- app_assoc. reflexivity.
  - done.
  - done.
Qed.

(** *** Copies and weights *)

Lemma omap_lookup_valid {A} (V : list A) T k t :
  Forall (λ i, (i < length V)%nat) T → T !! k = Some t →
  omap (λ i, V !! i) T !! k = V !! t.
Proof.
  revert k. induction T as [|a T IH]; intros k HT Hk; [done|].
  apply Forall_cons in HT as [Ha HT]. cbn.
  destruct (lookup_lt_is_Some_2 V a Ha) as [x Hx]. rewrite Hx. cbn.
  destruct k as [|k]; cbn in Hk.
  - injection Hk as <-. by rewrite Hx.
  - cbn. by apply IH.
Qed.

Lemma length_dup_verts V T mv idx :
  Forall (λ i, (i < length V)%nat) T → length (dup_verts V T mv idx) = length T.
Proof.
  intros HT. unfold dup_verts. by rewrite length_fmap, length_omap_lookup.
Qed.

Lemma length_expected_dups V T S p0 g rest :
  Forall (λ i, (i < length V)%nat) T →
  length (expected_dups V T S p0 g rest) = (length rest * length T)%nat.
Proof.
  intros HT. revert g. induction rest as [|bone rest IH]; intros g; [done|].
  cbn [expected_dups]. rewrite length_app, length_dup_verts, IH by done. cbn. lia.
Qed.

Lemma expected_dups_lookup V T S p0 g rest j k t bone v :
  Forall (λ i, (i < length V)%nat) T →
  rest !! j = Some bone → T !! k = Some t → V !! t = Some v →
  expected_dups V T S p0 g rest !! (j * length T + k)%nat
  = Some (dup_vert (move_point S (vsub (midpoint (snd bone)) p0)) (g + j) v).
Proof.
  intros HT Hj Hk Hv. revert g j Hj.
  induction rest as [|b rest IH]; intros g j Hj; [done|].
  cbn [expected_dups]. assert (k < length T)%nat by (by eapply lookup_lt_Some).
  destruct j as [|j]; cbn in Hj.
  - injection Hj as ->. rewrite Nat.mul_0_l, Nat.add_0_l.
    rewrite lookup_app_l by (rewrite length_dup_verts by done; lia).
    unfold dup_verts. rewrite list_lookup_fmap.
    rewrite (omap_lookup_valid V T k t) by done. rewrite Hv. cbn.
    by rewrite Nat.add_0_r.
  - rewrite lookup_app_r by (rewrite length_dup_verts by done; cbn; lia).
    rewrite length_dup_verts by done.
    replace (Datatypes.S j * length T + k - length T)%nat with (j * length T + k)%nat
      by (cbn; lia).
    rewrite (IH (Datatypes.S g) j Hj).
    by replace (Datatypes.S g + j)%nat with (g + Datatypes.S j)%nat by lia.
Qed.

Lemma replicate_links_spec m0 geom S p0 rest g o D Ex Fx :
  mesh_wf m0 → geom_valid m0 geom →
  verts (bm o) = verts m0 ++ D →
  edges (bm o) = edges m0 ++ Ex →
  faces (bm o) = faces m0 ++ Fx →
  (∀ j bone, rest !! j = Some bone →
     vertex_groups_get (vertex_groups o) (fst bone) = Some (g + j)%nat) →
  ∃ o' Ex' Fx',
    for_each (replicate_link S geom p0) rest o = Ok o'
    ∧ verts (bm o')
      = verts m0 ++ D
        ++ expected_dups (verts m0) (template_verts m0 geom) S p0 g rest
    ∧ edges (bm o') = edges m0 ++ Ex'
    ∧ faces (bm o') = faces m0 ++ Fx'
    ∧ vertex_groups o' = vertex_groups o
    ∧ matrix_world o' = matrix_world o.
Proof.
  intros Hwf Hg. revert g o D Ex Fx.
  induction rest as [|[name b] rest IH]; intros g o D Ex Fx Hv He Hf Hidx.
  - exists o, Ex, Fx. cbn. rewrite app_nil_r. by split_and!.
  - destruct (replicate_link_spec m0 geom S p0 o D Ex Fx name b (g + 0) Hwf Hg Hv He Hf)
      as (o1 & Ex1 & Fx1 & Hrun & Hv1 & He1 & Hf1 & Hg1 & Hm1).
    { apply (Hidx 0%nat (name, b)). done. }
    destruct (IH (Datatypes.S g) o1 _ Ex1 Fx1 Hv1 He1 Hf1)
      as (o2 & Ex2 & Fx2 & Hrun2 & Hv2 & He2 & Hf2 & Hg2 & Hm2).
    { intros j bone Hj. rewrite Hg1.
      replace (Datatypes.S g + j)%nat with (g + Datatypes.S j)%nat by lia.
      by apply Hidx. }
    exists o2, Ex2, Fx2. cbn [for_each]. rewrite Hrun. cbn [bind]. rewrite Hrun2.
    split_and!; try done; try congruence.
    rewrite Hv2. cbn [expected_dups]. rewrite Nat.add_0_r, <- !app_assoc. done.
Qed.

Lemma weight_dvert_set g idx w d :
  weight g (dvert_set idx w d) = if decide (g = idx) then w else weight g d.
Proof.
  unfold weight, dvert_get. induction d as [|[j x] d IH]; cbn.
  - destruct (decide (g = idx)) as [->|Hne].
    + by rewrite bool_decide_true.
    + by rewrite bool_decide_false by congruence.
  - destruct (decide (j = idx)) as [->|Hj]; cbn.
    + destruct (decide (g = idx)) as [->|Hne].
      * by rewrite bool_decide_true.
      * by rewrite !bool_decide_false by congruence.
    + destruct (decide (j = g)) as [->|Hjg].
      * rewrite !bool_decide_true by done. by rewrite decide_False.
      * rewrite !bool_decide_false by done. apply IH.
Qed.

Lemma weight_below n g d :
  Forall (λ e, (fst e < n)%nat) d → (n ≤ g)%nat → weight g d = 0.
Proof.
  unfold weight, dvert_get. intros Hd Hg. induction Hd as [|[j x] d Hj _ IH]; [done|].
  cbn in *. rewrite bool_decide_false by lia. apply IH.
Qed.

Lemma length_foldl_alter {A} (f : A → A) (l : list A) vs :
  length (foldl (λ l i, alter f i l) l vs) = length l.
Proof.
  revert l. induction vs as [|i vs IH]; intros l; [done|].
  cbn. by rewrite IH, length_alter.
Qed.

Lemma foldl_assign_keeps idx (l : list BMVert) vs t :
  (∃ v, l !! t = Some v ∧ weight idx (dvert v) = 1) →
  ∃ v, foldl (λ l i, alter (λ v, set_dvert (dvert_set idx 1 (dvert v)) v) i l) l vs !! t
       = Some v
       ∧ weight idx (dvert v) = 1.
Proof.
  revert l. induction vs as [|i vs IH]; intros l (v & Hv & Hw); [by exists v|].
  cbn [foldl]. apply IH. rewrite list_lookup_alter.
  destruct (decide (i = t)) as [->|Hne].
  - rewrite Hv. eexists. split; [done|]. cbn [dvert set_dvert].
    rewrite weight_dvert_set. by rewrite decide_True.
  - by exists v.
Qed.

Lemma foldl_assign_sets idx (l : list BMVert) vs t :
  t ∈ vs → (t < length l)%nat →
  ∃ v, foldl (λ l i, alter (λ v, set_dvert (dvert_set idx 1 (dvert v)) v) i l) l vs !! t
       = Some v
       ∧ weight idx (dvert v) = 1.
Proof.
  revert l. induction vs as [|i vs IH]; intros l Hin Ht.
  - by apply elem_of_nil in Hin.
  - cbn [foldl]. destruct (decide (i = t)) as [->|Hne].
    + apply foldl_assign_keeps. destruct (lookup_lt_is_Some_2 l t Ht) as [v Hv].
      rewrite list_lookup_alter, decide_True by done. rewrite Hv.
      eexists. split; [done|]. cbn [dvert set_dvert].
      rewrite weight_dvert_set. by rewrite decide_True.
    + apply IH; [|by rewrite length_alter].
      apply elem_of_cons in Hin as [?|?]; [congruence|done].
Qed.

Section WithHost.
Context `{!Host}.


Lemma recreate_group_spec o A N name b :
  vertex_groups o = A ++ N → NoDup (A ++ N) → name ∉ N →
  weights_below (length A) (verts (bm o)) →
  let o' := recreate_group o (name, b) in
  vertex_groups o' = filter (λ g, g ≠ name) A ++ (N ++ [name])
  ∧ weights_below (length (filter (λ g, g ≠ name) A)) (verts (bm o'))
  ∧ same_shape (verts (bm o)) (verts (bm o'))
  ∧ edges (bm o') = edges (bm o)
  ∧ faces (bm o') = faces (bm o)
  ∧ matrix_world o' = matrix_world o.
Proof.
  intros Hg Hnd HnN Hw. unfold recreate_group. cbn [fst].
  pose proof Hnd as HndA. apply NoDup_app in HndA as (HndA & Hdisj & HndN).
  destruct (vertex_groups_get (vertex_groups o) name) as [k|] eqn:Hget; cbn zeta.
  - pose proof (vertex_groups_get_Some _ _ _ Hget) as Hk. rewrite Hg in Hk.
    assert (k < length A)%nat as HkA.
    { destruct (decide (k < length A)%nat) as [|Hge]; [done|exfalso].
      rewrite lookup_app_r in Hk by lia. apply HnN. by eapply list_elem_of_lookup_2. }
    rewrite lookup_app_l in Hk by done.
    assert (Hdel : delete k (A ++ N) = filter (λ g, g ≠ name) A ++ N).
    { rewrite !delete_take_drop. rewrite take_app_le by lia.
      rewrite drop_app_le by lia. rewrite app_assoc, <- delete_take_drop.
      by rewrite (delete_filter_ne name A k). }
    assert (Hlen : length (filter (λ g, g ≠ name) A) = (length A - 1)%nat).
    { rewrite <- (delete_filter_ne name A k) by done. apply length_delete. by eexists. }
    assert (Hfree : name ∉ filter (λ g, g ≠ name) A ++ N).
    { intros [[? ?]%list_elem_of_filter|?]%elem_of_app; done. }
    unfold vertex_groups_new, vertex_groups_remove. cbn. rewrite Hg, Hdel.
    rewrite (unique_name_free _ _ Hfree). split_and!; try done.
    + by rewrite <- app_assoc.
    + unfold weights_below in *. apply Forall_fmap. apply Forall_forall.
      intros v Hv. cbn. rewrite Hlen. apply dvert_remove_group_below; [done|].
      rewrite Forall_forall in Hw. by apply Hw.
    + apply same_shape_set_dvert.
  - apply vertex_groups_get_None in Hget. rewrite Hg in Hget.
    apply not_elem_of_app in Hget as [HA _].
    unfold vertex_groups_new. cbn. rewrite Hg.
    rewrite unique_name_free by (intros [?|?]%elem_of_app; done).
    rewrite filter_ne_notin by done. split_and!; try done.
    + by rewrite <- app_assoc.
    + apply same_shape_refl.
Qed.


Lemma recreate_groups_spec o A N (rest : list (string * Bone)) :
  vertex_groups o = A ++ N → NoDup (A ++ N) → NoDup rest.*1 →
  (∀ x, x ∈ rest.*1 → x ∉ N) →
  weights_below (length A) (verts (bm o)) →
  let o' := foldl recreate_group o rest in
  let kept := filter (λ g, g ∉ rest.*1) A in
  vertex_groups o' = kept ++ N ++ rest.*1
  ∧ weights_below (length kept) (verts (bm o'))
  ∧ same_shape (verts (bm o)) (verts (bm o'))
  ∧ edges (bm o') = edges (bm o)
  ∧ faces (bm o') = faces (bm o)
  ∧ matrix_world o' = matrix_world o.
Proof.
  revert o A N. induction rest as [|[name b] rest IH]; intros o A N Hg Hnd Hrest HN Hw.
  - cbn. assert (filter (λ g, g ∉ []) A = A) as ->.
    { clear. induction A as [|a A IH]; [done|].
      rewrite filter_cons_True by apply not_elem_of_nil. by f_equal. }
    rewrite app_nil_r. split_and!; try done. apply same_shape_refl.
  - cbn [foldl]. rewrite fmap_cons in Hrest, HN. cbn [fst] in Hrest, HN.
    apply NoDup_cons in Hrest as [Hname Hrest].
    assert (HnN : name ∉ N) by (apply HN; apply list_elem_of_here).
    destruct (recreate_group_spec o A N name b Hg Hnd HnN Hw)
      as (Hg1 & Hw1 & Hs1 & He1 & Hf1 & Hm1).
    pose proof Hnd as HndA. apply NoDup_app in HndA as (HndA & Hdisj & HndN).
    destruct (IH (recreate_group o (name, b)) (filter (λ g, g ≠ name) A) (N ++ [name]))
      as (Hg2 & Hw2 & Hs2 & He2 & Hf2 & Hm2); try done.
    + apply NoDup_app. split_and!.
      * by apply NoDup_filter.
      * intros x [Hx HxA]%list_elem_of_filter [HxN|Hxn%list_elem_of_singleton]%elem_of_app;
          [by eapply Hdisj|done].
      * apply NoDup_app. split_and!; [done| |apply NoDup_singleton].
        intros x HxN ->%list_elem_of_singleton. done.
    + intros x Hx [HxN|Hxn%list_elem_of_singleton]%elem_of_app.
      * revert HxN. apply HN. by apply list_elem_of_further.
      * by subst.
    + assert (Hkept : filter (λ g, g ∉ rest.*1) (filter (λ g, g ≠ name) A)
                      = filter (λ g, g ∉ ((name, b) :: rest).*1) A).
      { rewrite list_filter_filter. apply list_filter_iff. intros x.
        rewrite fmap_cons, not_elem_of_cons. cbn. tauto. }
      rewrite Hkept in Hg2, Hw2. cbn zeta. split_and!.
      * rewrite Hg2, fmap_cons. cbn. by rewrite <- !app_assoc.
      * done.
      * by eapply same_shape_trans.
      * congruence.
      * congruence.
      * congruence.
Qed.


Lemma mesh_wf_same m m' :
  length (verts m') = length (verts m) → edges m' = edges m → faces m' = faces m →
  mesh_wf m → mesh_wf m'.
Proof. unfold mesh_wf. intros -> -> ->. done. Qed.

Lemma kept_chain_NoDup (chain : list (string * Bone)) o :
  NoDup chain.*1 → NoDup (vertex_groups o) →
  NoDup (kept_groups chain o ++ chain.*1).
Proof.
  intros Hc Hg. apply NoDup_app. split_and!; [by apply NoDup_filter| |done].
  by intros x [Hx _]%list_elem_of_filter.
Qed.

(** The mesh after [replicate], table by table. *)
Lemma replicate_spec arm_obj root rest o0 o' :
  replicate arm_obj (root :: rest) o0 = Ok o' →
  NoDup (root :: rest).*1 → NoDup (vertex_groups o0) →
  weights_wf o0 → mesh_wf (bm o0) →
  let chain := root :: rest in
  let geom := selected_geom (bm o0) in
  let T := template_verts (bm o0) geom in
  let g0 := length (kept_groups chain o0) in
  ∃ imat V1 o_mid,
    inverted (matrix_world o0) = Some imat
    ∧ same_shape (verts (bm o0)) V1
    ∧ weights_below g0 V1
    ∧ vertex_groups o_mid = kept_groups chain o0 ++ chain.*1
    ∧ verts (bm o_mid)
      = V1 ++ expected_dups V1 T (mat_mul imat (arm_matrix_world arm_obj))
                (midpoint (snd root)) (Datatypes.S g0) rest
    ∧ assign_bone_verts (fst root) (vert_refs geom) o_mid = Ok o'
    ∧ vertex_groups o' = vertex_groups o_mid
    ∧ verts (bm o')
      = foldl (λ l i, alter (λ v, set_dvert (dvert_set g0 1 (dvert v)) v) i l)
              V1 (vert_refs geom)
        ++ expected_dups V1 T (mat_mul imat (arm_matrix_world arm_obj))
             (midpoint (snd root)) (Datatypes.S g0) rest.
Proof.
  intros Hrun Hchain Hgroups Hw Hwf chain geom T g0.
  unfold replicate in Hrun. fold chain in Hrun, Hchain.
  destruct (recreate_groups_spec o0 (vertex_groups o0) [] chain)
    as (Hg1 & Hw1 & Hs1 & He1 & Hf1 & Hm1).
  { by rewrite app_nil_r. }
  { by rewrite app_nil_r. }
  { done. }
  { intros x _. apply not_elem_of_nil. }
  { exact Hw. }
  cbn zeta in Hg1, Hw1. cbn [app] in Hg1.
  fold (kept_groups chain o0) in Hg1, Hw1. fold g0 in Hw1.
  set (o1 := foldl recreate_group o0 chain) in *.
  assert (Hlen1 : length (verts (bm o1)) = length (verts (bm o0))).
  { symmetry. by eapply Forall2_length. }
  assert (Hgeom : selected_geom (bm o1) = geom).
  { by apply selected_geom_same_shape. }
  assert (Hwf1 : mesh_wf (bm o1)) by (by eapply mesh_wf_same).
  assert (Hvalid : geom_valid (bm o1) geom).
  { rewrite <- Hgeom. apply selected_geom_valid. }
  assert (HT : template_verts (bm o1) geom = T).
  { apply (template_verts_extend (bm o0) (bm o1) geom [] []).
    - done.
    - apply selected_geom_valid.
    - by rewrite app_nil_r.
    - by rewrite app_nil_r.
    - lia. }
  rewrite Hm1 in Hrun. unfold inverted_exn in Hrun.
  destruct (inverted (matrix_world o0)) as [imat|] eqn:Hinv; [|done].
  cbn [bind] in Hrun. rewrite Hgeom in Hrun.
  pose proof (kept_chain_NoDup chain o0 Hchain Hgroups) as Hnd.
  destruct (replicate_links_spec (bm o1) geom
              (mat_mul imat (arm_matrix_world arm_obj)) (midpoint (snd root))
              rest (Datatypes.S g0) o1 [] [] [] Hwf1 Hvalid)
    as (o2 & Ex2 & Fx2 & Hloop & Hv2 & He2 & Hf2 & Hg2 & Hm2).
  { by rewrite app_nil_r. }
  { by rewrite app_nil_r. }
  { by rewrite app_nil_r. }
  { intros j bone Hj. apply vertex_groups_get_NoDup; [by rewrite Hg1|].
    rewrite Hg1. unfold g0. rewrite lookup_app_r by lia.
    replace (Datatypes.S (length (kept_groups chain o0)) + j
             - length (kept_groups chain o0))%nat with (Datatypes.S j) by lia.
    unfold chain. rewrite fmap_cons. change (rest.*1 !! j = Some (fst bone)).
    by rewrite list_lookup_fmap, Hj. }
  rewrite Hloop in Hrun. cbn [bind] in Hrun. rewrite HT in Hv2. cbn [app] in Hv2.
  exists imat, (verts (bm o1)), o2. split_and!; try done.
  - congruence.
  - unfold assign_bone_verts in Hrun.
    destruct (vertex_groups_get (vertex_groups o2) (fst root)); [|done].
    cbn in Hrun. by injection Hrun as <-.
  - unfold assign_bone_verts in Hrun.
    assert (Hroot : vertex_groups_get (vertex_groups o2) (fst root) = Some g0).
    { apply vertex_groups_get_NoDup; [by rewrite Hg2, Hg1|].
      rewrite Hg2, Hg1. unfold g0. rewrite lookup_app_r by lia.
      by rewrite Nat.sub_diag. }
    rewrite Hroot in Hrun. cbn in Hrun. injection Hrun as <-. cbn.
    rewrite Hv2. apply foldl_alter_prefix. by destruct Hvalid.
Qed.

Lemma expected_dups_Forall (P : BMVert → Prop) V T S p0 g rest :
  (∀ v mv idx, v ∈ V → (g ≤ idx)%nat → P (dup_vert mv idx v)) →
  Forall P (expected_dups V T S p0 g rest).
Proof.
  revert g. induction rest as [|bone rest IH]; intros g HP; [constructor|].
  cbn [expected_dups]. apply Forall_app. split.
  - unfold dup_verts. apply Forall_fmap. apply Forall_forall.
    intros v Hv. apply list_elem_of_omap in Hv as (t & _ & Ht). cbn.
    apply HP; [by eapply list_elem_of_lookup_2|lia].
  - apply IH. intros v mv idx Hv Hidx. apply HP; [done|lia].
Qed.

Lemma run_finished fuel self ctx r ctx' :
  execute fuel self ctx = Some (Ok (FINISHED, r, ctx')) →
  ∃ arm_obj chain o0 o',
    get_armature_object ctx = Some arm_obj
    ∧ walk_chain (bones arm_obj) fuel (rootbone_enum self) = Some chain
    ∧ active_object ctx = Some o0
    ∧ replicate arm_obj chain o0 = Ok o'
    ∧ active_object ctx' = Some o'.
Proof.
  unfold execute. intros Hrun.
  destruct (get_armature_object ctx) as [arm_obj|] eqn:Harm; [|done].
  cbn zeta in Hrun. destruct (bones arm_obj !! rootbone_enum self) eqn:Hroot; [|done].
  destruct (walk_chain (bones arm_obj) fuel (rootbone_enum self)) as [chain|] eqn:Hw;
    [|done].
  cbn in Hrun. destruct (active_object ctx) as [o0|] eqn:Hact; [|done].
  cbn in Hrun. destruct (replicate arm_obj chain o0) as [o'|] eqn:Hrep; [|done].
  cbn in Hrun. injection Hrun as _ <-.
  by exists arm_obj, chain, o0, o'.
Qed.

Lemma walk_chain_nonempty arm fuel n chain :
  walk_chain arm fuel n = Some chain →
  ∃ root rest, chain = root :: rest ∧ NoDup chain.*1.
Proof.
  intros Hw. apply walk_chain_sound in Hw as [Hp _].
  pose proof (first_child_path_NoDup _ _ _ Hp) as Hnd.
  destruct Hp; eexists _, _; split; done.
Qed.

Lemma replicate_replicated arm_obj chain o0 o' :
  replicate arm_obj chain o0 = Ok o' →
  (∃ root rest, chain = root :: rest ∧ NoDup chain.*1) →
  NoDup (vertex_groups o0) → weights_wf o0 → mesh_wf (bm o0) →
  replicated chain o0 o'.
Proof.
  intros Hrun (root & rest & -> & Hchain) Hgroups Hw Hwf.
  destruct (replicate_spec arm_obj root rest o0 o' Hrun Hchain Hgroups Hw Hwf)
    as (imat & V1 & o_mid & Hinv & Hshape & Hbelow & Hgmid & Hvmid & Hassign & Hg' & Hv').
  cbn zeta in *.
  set (chain := root :: rest) in *.
  set (geom := selected_geom (bm o0)) in *.
  set (T := template_verts (bm o0) geom) in *.
  set (g0 := length (kept_groups chain o0)) in *.
  set (S := mat_mul imat (arm_matrix_world arm_obj)) in *.
  assert (HlenV : length V1 = length (verts (bm o0))).
  { symmetry. by eapply Forall2_length. }
  assert (HT : Forall (λ i, (i < length V1)%nat) T).
  { rewrite HlenV. apply template_verts_below. }
  assert (Hvalid : geom_valid (bm o0) geom) by apply selected_geom_valid.
  pose proof (kept_chain_NoDup chain o0 Hchain Hgroups) as Hnd.
  unfold replicated. fold geom T g0. cbn zeta.
  replace (length chain - 1)%nat with (length rest) by (unfold chain; cbn; lia).
  split_and!.
  - rewrite Hv', length_app, length_foldl_alter, length_expected_dups by done. lia.
  - congruence.
  - intros j name Hj. rewrite Hg', Hgmid. apply vertex_groups_get_NoDup; [done|].
    unfold g0. rewrite lookup_app_r by lia.
    by rewrite Nat.add_comm, Nat.add_sub.
  - intros i k v Hi Hk Hv j Hj. unfold dup_index in Hv.
    destruct i as [|i]; [lia|].
    replace (Datatypes.S i - 1)%nat with i in Hv by lia.
    rewrite Hv' in Hv. remember (i * length T)%nat as off eqn:Hoff.
    rewrite lookup_app_r in Hv by (rewrite length_foldl_alter; lia).
    rewrite length_foldl_alter in Hv.
    replace (length (verts (bm o0)) + off + k - length V1)%nat
      with (off + k)%nat in Hv by lia.
    subst off.
    destruct (lookup_lt_is_Some_2 rest i) as [bone Hbone];
      [unfold chain in Hi; cbn in Hi; lia|].
    destruct (lookup_lt_is_Some_2 T k Hk) as [t Ht].
    assert (Htlt : (t < length V1)%nat).
    { exact (Forall_lookup_1 _ _ _ _ HT Ht). }
    destruct (lookup_lt_is_Some_2 V1 t Htlt) as [v1 Hv1].
    rewrite (expected_dups_lookup V1 T S _ _ rest i k t bone v1) in Hv by done.
    injection Hv as <-. unfold dup_vert. cbn [dvert set_dvert set_co].
    rewrite weight_dvert_set.
    assert (Hzero : weight (g0 + j) (dvert v1) = 0).
    { apply (weight_below g0); [|lia].
      exact (Forall_lookup_1 _ _ _ _ Hbelow Hv1). }
    destruct (decide (j = Datatypes.S i)) as [->|Hne].
    + by rewrite decide_True by lia.
    + by rewrite decide_False by lia.
  - intros t Ht. rewrite Hv'.
    assert (Htlt : (t < length V1)%nat).
    { rewrite HlenV. destruct Hvalid as [Hvr _].
      rewrite Forall_forall in Hvr. by apply Hvr. }
    rewrite lookup_app_l by (by rewrite length_foldl_alter).
    by apply foldl_assign_sets.
  - exists o_mid, root. split_and!; try done.
    + rewrite Hvmid, length_app, length_expected_dups by done. lia.
    + rewrite Hvmid. apply Forall_app. split.
      * apply Forall_forall. intros v Hv. apply (weight_below g0); [|lia].
        exact (proj1 (Forall_forall _ _) Hbelow _ Hv).
      * apply expected_dups_Forall. intros v mv idx Hv Hidx.
        unfold dup_vert. cbn [dvert set_dvert set_co]. rewrite weight_dvert_set.
        rewrite decide_False by lia. apply (weight_below g0); [|lia].
        exact (proj1 (Forall_forall _ _) Hbelow _ Hv).
Qed.






(** C1 (amended).  On a well-formed mesh, a finished run adds [(M-1)*K]
    vertices for a chain of [M] bones and a template of [K] vertices; the
    vertex groups are the former ones not named after a bone of the chain,
    followed by one group per bone of the chain; every vertex of the copy
    made for bone [i] has weight 1 in the group of bone [i] and weight 0 in
    the group of every other bone of the chain; the selected vertices have
    weight 1 in the root's group, which is assigned on a mesh that holds
    all the copies and in which no vertex has weight in that group. *)
Theorem mesh_is_replicated fuel self ctx r ctx' o0 :
  execute fuel self ctx = Some (Ok (FINISHED, r, ctx')) →
  active_object ctx = Some o0 →
  NoDup (vertex_groups o0) → weights_wf o0 → mesh_wf (bm o0) →
  ∃ arm_obj chain o',
    get_armature_object ctx = Some arm_obj
    ∧ walk_chain (bones arm_obj) fuel (rootbone_enum self) = Some chain
    ∧ active_object ctx' = Some o'
    ∧ replicated chain o0 o'.
Proof.
  intros (arm_obj & chain & o0' & o' & Harm & Hwalk & Hact & Hrep & Hact')%run_finished
    Hact0 Hgroups Hw Hwf.
  assert (o0' = o0) as -> by congruence.
  exists arm_obj, chain, o'. split_and!; try done.
  eapply replicate_replicated; try done. by eapply walk_chain_nonempty.
Qed.


(** C9.  When no armature object is found through the modifiers, or the
    root bone name is no bone of the armature, the operator reports
    ERROR_INVALID_CONTEXT and returns CANCELLED with the context it was
    given: vertex groups and geometry are untouched. *)
Theorem missing_armature_or_root_cancels fuel self ctx :
  get_armature_object ctx = None
  ∨ (∃ arm_obj, get_armature_object ctx = Some arm_obj
                ∧ bones arm_obj !! rootbone_enum self = None) →
  ∃ msg, execute fuel self ctx
         = Some (Ok (CANCELLED, [(ERROR_INVALID_CONTEXT, msg)], ctx)).
Proof.
  unfold execute. intros [Hnone|(arm_obj & Harm & Hroot)].
  - rewrite Hnone. by eexists.
  - rewrite Harm. cbn. rewrite Hroot. by eexists.
Qed.

(** *** Beyond the specification *)

Lemma find_first {A} (f : A → bool) l x :
  List.find f l = Some x
  ↔ ∃ k, l !! k = Some x ∧ f x = true
         ∧ ∀ j y, (j < k)%nat → l !! j = Some y → f y = false.
Proof.
  induction l as [|a l IH]; cbn [List.find].
  - split; [done|]. by intros (k & Hk & _).
  - destruct (f a) eqn:Ha.
    + split.
      * intros [= <-]. exists 0%nat. split_and!; [done|done|intros; lia].
      * intros ([|k] & Hk & Hx & Hbefore).
        -- cbn in Hk. by injection Hk as <-.
        -- specialize (Hbefore 0%nat a). cbn in Hbefore.
           rewrite Hbefore in Ha; [done|lia|done].
    + rewrite IH. split.
      * intros (k & Hk & Hx & Hbefore). exists (S k). split_and!; [done|done|].
        intros [|j] y Hj Hy; cbn in Hy; [by injection Hy as <-|].
        eapply Hbefore; [|done]. lia.
      * intros ([|k] & Hk & Hx & Hbefore); cbn in Hk.
        -- injection Hk as <-. congruence.
        -- exists k. split_and!; [done|done|].
           intros j y Hj Hy. apply (Hbefore (S j)); [lia|done].
Qed.

(** X10.  [get_armature_object] returns the object of the first modifier of
    type ARMATURE of the active object, and nothing else: an armature
    modifier without object hides the armature modifiers after it. *)
Theorem armature_of_first_armature_modifier ctx a :
  get_armature_object ctx = Some a
  ↔ ∃ ob k m,
      active_object ctx = Some ob
      ∧ modifiers ob !! k = Some m
      ∧ mod_type m = ARMATURE
      ∧ mod_object m = Some a
      ∧ ∀ j m', (j < k)%nat → modifiers ob !! j = Some m' → mod_type m' ≠ ARMATURE.
Proof.
  unfold get_armature_object. split.
  - destruct (active_object ctx) as [ob|]; [|done].
    destruct (List.find _ (modifiers ob)) as [m|] eqn:Hf; [|done].
    intros Hobj. apply find_first in Hf as (k & Hk & Hm & Hbefore).
    exists ob, k, m. split_and!; try done.
    + by apply bool_decide_eq_true in Hm.
    + intros j m' Hj Hm'. specialize (Hbefore j m' Hj Hm').
      by apply bool_decide_eq_false in Hbefore.
  - intros (ob & k & m & -> & Hk & Hm & Ha & Hbefore).
    assert (Hf : List.find (λ m, bool_decide (mod_type m = ARMATURE)) (modifiers ob)
                 = Some m).
    { apply find_first. exists k. split_and!; [done|by apply bool_decide_eq_true|].
      intros j y Hj Hy. apply bool_decide_eq_false. by eapply Hbefore. }
    by rewrite Hf.
Qed.

(** X11.  [rootbone_items] offers a name exactly when the armature found
    through the modifiers has a deform bone of that name, which is then
    the root bone [execute] looks up. *)
Theorem rootbone_items_are_deform_bones self ctx :
  (∃ items, rootbone_items ctx = Some items
            ∧ (rootbone_enum self, rootbone_enum self, EmptyString) ∈ items)
  ↔ ∃ arm_obj b,
      get_armature_object ctx = Some arm_obj
      ∧ bones arm_obj !! rootbone_enum self = Some b
      ∧ use_deform b = true.
Proof.
  unfold rootbone_items. split.
  - intros (items & Hitems & Hin).
    destruct (get_armature_object ctx) as [arm_obj|]; [|done].
    injection Hitems as <-.
    apply list_elem_of_fmap in Hin as ([n b] & Heq & [Hd Hb]%list_elem_of_filter).
    cbn in Heq, Hd. injection Heq as ->. apply elem_of_map_to_list in Hb.
    by exists arm_obj, b.
  - intros (arm_obj & b & -> & Hb & Hd). eexists. split; [done|].
    apply list_elem_of_fmap. exists (rootbone_enum self, b). split; [done|].
    apply list_elem_of_filter. split; [done|]. by apply elem_of_map_to_list.
Qed.

Lemma originals_kept_refl o : originals_kept o o.
Proof.
  unfold originals_kept. split_and!; try done.
  exists (verts (bm o)), []. split; [by rewrite app_nil_r|apply same_shape_refl].
Qed.

Lemma originals_kept_trans o0 o1 o2 :
  originals_kept o0 o1 → originals_kept o1 o2 → originals_kept o0 o2.
Proof.
  intros (Hm1 & Hd1 & He1 & Hf1 & V1 & D1 & Hv1 & Hs1)
         (Hm2 & Hd2 & He2 & Hf2 & V2 & D2 & Hv2 & Hs2).
  unfold originals_kept. split_and!; try congruence.
  - by etrans.
  - by etrans.
  - rewrite Hv1 in Hs2. unfold same_shape in Hs2.
    apply Forall2_app_inv_l in Hs2 as (V2a & V2b & Ha & Hb & ->).
    exists V2a, (V2b ++ D2). split; [by rewrite Hv2, <- app_assoc|].
    by eapply same_shape_trans.
Qed.

Lemma same_shape_alter f i V :
  same_shape V (alter (λ v, set_dvert (f v) v) i V).
Proof.
  unfold same_shape. apply Forall2_same_length_lookup. split; [by rewrite length_alter|].
  intros j x y Hx Hy. rewrite list_lookup_alter in Hy.
  destruct (decide (i = j)) as [->|Hne].
  - rewrite Hx in Hy. cbn in Hy. by injection Hy as <-.
  - by simplify_eq.
Qed.

Lemma same_shape_assign f V vs :
  same_shape V (foldl (λ l i, alter (λ v, set_dvert (f v) v) i l) V vs).
Proof.
  revert V. induction vs as [|i vs IH]; intros V; [apply same_shape_refl|].
  cbn [foldl]. eapply same_shape_trans; [apply same_shape_alter|apply IH].
Qed.

Lemma vertex_groups_get_elem gs name :
  name ∈ gs → is_Some (vertex_groups_get gs name).
Proof.
  intros Hin. destruct (vertex_groups_get gs name) eqn:Hg; [by eexists|].
  by apply vertex_groups_get_None in Hg.
Qed.

Lemma assign_bone_verts_ok name vs o :
  name ∈ vertex_groups o →
  ∃ o', assign_bone_verts name vs o = Ok o'
        ∧ vertex_groups o' = vertex_groups o
        ∧ edges (bm o') = edges (bm o)
        ∧ faces (bm o') = faces (bm o)
        ∧ length (verts (bm o')) = length (verts (bm o))
        ∧ originals_kept o o'.
Proof.
  intros [k Hk]%vertex_groups_get_elem. unfold assign_bone_verts. rewrite Hk.
  cbn [attr_of bind]. eexists. split; [done|]. cbn. split_and!; try done.
  - apply length_foldl_alter.
  - unfold originals_kept. cbn. split_and!; try done.
    eexists _, []. split; [by rewrite app_nil_r|].
    apply (same_shape_assign (λ v, dvert_set k 1 (dvert v))).
Qed.

Lemma elem_of_delete_ne (gs : list string) k name x :
  gs !! k = Some name → x ≠ name → x ∈ gs → x ∈ delete k gs.
Proof.
  intros Hk Hne Hin. rewrite <- (take_drop_middle gs k name Hk) in Hin.
  rewrite delete_take_drop.
  apply elem_of_app in Hin as [Hin|Hin]; [apply elem_of_app; by left|].
  apply elem_of_cons in Hin as [->|Hin]; [done|]. apply elem_of_app. by right.
Qed.

Lemma recreate_group_groups o bone :
  fst bone ∈ vertex_groups (recreate_group o bone)
  ∧ ∀ x, x ∈ vertex_groups o → x ∈ vertex_groups (recreate_group o bone).
Proof.
  unfold recreate_group, vertex_groups_new.
  destruct (vertex_groups_get (vertex_groups o) (fst bone)) as [k|] eqn:Hg; cbn.
  - split; [apply unique_name_covers|].
    intros x Hx. destruct (decide (x = fst bone)) as [->|Hne]; [apply unique_name_covers|].
    apply elem_of_app. left. apply vertex_groups_get_Some in Hg.
    by eapply elem_of_delete_ne.
  - split; [apply unique_name_covers|]. intros x Hx. apply elem_of_app. by left.
Qed.

Lemma recreate_group_kept o bone : originals_kept o (recreate_group o bone).
Proof.
  unfold recreate_group, vertex_groups_new, originals_kept.
  destruct (vertex_groups_get (vertex_groups o) (fst bone)) as [k|]; cbn.
  - split_and!; try done. eexists _, []. split; [by rewrite app_nil_r|].
    apply same_shape_set_dvert.
  - split_and!; try done. eexists _, []. split; [by rewrite app_nil_r|].
    apply same_shape_refl.
Qed.

Lemma recreate_groups_groups chain o :
  let o' := foldl recreate_group o chain in
  (∀ x, x ∈ chain.*1 → x ∈ vertex_groups o')
  ∧ (∀ x, x ∈ vertex_groups o → x ∈ vertex_groups o')
  ∧ originals_kept o o'.
Proof.
  revert o. induction chain as [|bone chain IH]; intros o; cbn zeta.
  - split_and!; [by intros x ?%elem_of_nil|done|apply originals_kept_refl].
  - cbn [foldl]. destruct (IH (recreate_group o bone)) as (Hin & Hold & Hkept).
    destruct (recreate_group_groups o bone) as [Hnew Hold1].
    split_and!.
    + intros x. rewrite fmap_cons. intros [->|Hx]%elem_of_cons; [by apply Hold|by apply Hin].
    + intros x Hx. by apply Hold, Hold1.
    + eapply originals_kept_trans; [apply recreate_group_kept|done].
Qed.

Lemma replicate_link_ok S geom p0 o bone :
  fst bone ∈ vertex_groups o →
  ∃ o', replicate_link S geom p0 o bone = Ok o'
        ∧ vertex_groups o' = vertex_groups o
        ∧ originals_kept o o'.
Proof.
  intros [k Hk]%vertex_groups_get_elem.
  unfold replicate_link, duplicate. cbn zeta. cbn [fst snd].
  unfold assign_bone_verts. cbn [vertex_groups set_bm]. rewrite Hk. cbn [attr_of bind].
  eexists. split; [done|]. cbn [vertex_groups set_bm]. split; [done|].
  unfold originals_kept. cbn [matrix_world modifiers set_bm bm edges faces verts
    set_verts translate].
  split_and!; try done.
  - by apply prefix_app_r.
  - by apply prefix_app_r.
  - rewrite !vert_refs_app, vert_refs_verts, vert_refs_edges, vert_refs_faces, !app_nil_r.
    rewrite foldl_alter_block.
    set (new_verts := set_v_select false <$> omap _ (template_verts (bm o) geom)).
    match goal with
    | |- context [fmap ?f new_verts] => rewrite <- (length_fmap f new_verts)
    end.
    rewrite foldl_alter_block.
    eexists _, _. split; [done|]. apply same_shape_refl.
Qed.

Lemma replicate_links_ok S geom p0 rest o :
  (∀ x, x ∈ rest.*1 → x ∈ vertex_groups o) →
  ∃ o', for_each (replicate_link S geom p0) rest o = Ok o'
        ∧ vertex_groups o' = vertex_groups o
        ∧ originals_kept o o'.
Proof.
  revert o. induction rest as [|bone rest IH]; intros o Hin.
  - exists o. split_and!; [done|done|apply originals_kept_refl].
  - rewrite fmap_cons in Hin.
    destruct (replicate_link_ok S geom p0 o bone) as (o1 & Hrun1 & Hg1 & Hk1).
    { apply Hin. apply list_elem_of_here. }
    destruct (IH o1) as (o2 & Hrun2 & Hg2 & Hk2).
    { intros x Hx. rewrite Hg1. apply Hin. by apply list_elem_of_further. }
    exists o2. cbn [for_each]. rewrite Hrun1. cbn [bind]. split_and!; [done|congruence|].
    by eapply originals_kept_trans.
Qed.

(** [replicate] returns whenever the world matrix of the mesh can be
    inverted. *)
Lemma replicate_ok arm_obj chain o0 imat :
  inverted (matrix_world o0) = Some imat →
  ∃ o', replicate arm_obj chain o0 = Ok o'
        ∧ vertex_groups o' = vertex_groups (foldl recreate_group o0 chain)
        ∧ originals_kept o0 o'.
Proof.
  intros Hinv. unfold replicate.
  destruct (recreate_groups_groups chain o0) as (Hin & _ & Hk1). cbn zeta in Hin, Hk1.
  set (o1 := foldl recreate_group o0 chain) in *.
  assert (Hm : matrix_world o1 = matrix_world o0) by apply Hk1.
  unfold inverted_exn. rewrite Hm, Hinv. cbn [bind].
  destruct chain as [|root rest]; [by exists o1|]. fold o1.
  rewrite fmap_cons in Hin.
  destruct (replicate_links_ok (mat_mul imat (arm_matrix_world arm_obj))
              (selected_geom (bm o1)) (midpoint (snd root)) rest o1) as (o2 & Hrun & Hg2 & Hk2).
  { intros x Hx. apply Hin. by apply list_elem_of_further. }
  rewrite Hrun. cbn [bind].
  destruct (assign_bone_verts_ok (fst root) (vert_refs (selected_geom (bm o1))) o2)
    as (o3 & Hrun3 & Hg3 & _ & _ & _ & Hk3).
  { rewrite Hg2. apply Hin. apply list_elem_of_here. }
  exists o3. split_and!; [done|congruence|].
  eapply originals_kept_trans; [exact Hk1|]. by eapply originals_kept_trans.
Qed.

Lemma replicate_singular arm_obj chain o0 :
  inverted (matrix_world o0) = None → replicate arm_obj chain o0 = Raise ValueError.
Proof.
  intros Hinv. unfold replicate.
  destruct (recreate_groups_groups chain o0) as (_ & _ & Hk1). cbn zeta in Hk1.
  assert (Hm : matrix_world (foldl recreate_group o0 chain) = matrix_world o0) by apply Hk1.
  unfold inverted_exn. by rewrite Hm, Hinv.
Qed.

Lemma armature_has_active ctx arm_obj :
  get_armature_object ctx = Some arm_obj → is_Some (active_object ctx).
Proof. unfold get_armature_object. destruct (active_object ctx); [by eexists|done]. Qed.

Lemma walk_chain_root arm fuel n chain :
  walk_chain arm fuel n = Some chain → is_Some (arm !! n).
Proof.
  destruct fuel as [|f]; [done|]. cbn. destruct (arm !! n); [by eexists|done].
Qed.

(** [execute] once the armature, the root bone and the chain are found. *)
Lemma execute_walked fuel self ctx arm_obj o0 chain :
  get_armature_object ctx = Some arm_obj →
  active_object ctx = Some o0 →
  walk_chain (bones arm_obj) fuel (rootbone_enum self) = Some chain →
  execute fuel self ctx
  = Some (mesh_obj ←! replicate arm_obj chain o0;
          Ok (FINISHED, [], {| active_object := Some mesh_obj |})).
Proof.
  intros Harm Hact Hwalk. unfold execute. rewrite Harm. cbn zeta.
  destruct (walk_chain_root _ _ _ _ Hwalk) as [b Hb]. rewrite Hb, Hwalk. cbn.
  by rewrite Hact.
Qed.

(** X12.  Once the armature and the chain are found, a run on a mesh whose
    world matrix can be inverted returns FINISHED and reports nothing: the
    lookup of a vertex group by the name of its bone never fails, whatever
    groups the mesh had. *)
Theorem mesh_run_finishes fuel self ctx arm_obj o0 chain imat :
  get_armature_object ctx = Some arm_obj →
  active_object ctx = Some o0 →
  walk_chain (bones arm_obj) fuel (rootbone_enum self) = Some chain →
  inverted (matrix_world o0) = Some imat →
  ∃ ctx', execute fuel self ctx = Some (Ok (FINISHED, [], ctx')).
Proof.
  intros Harm Hact Hwalk Hinv. rewrite (execute_walked _ _ _ _ _ _ Harm Hact Hwalk).
  destruct (replicate_ok arm_obj chain o0 imat Hinv) as (o' & -> & _ & _). by eexists.
Qed.

(** X13.  The run raises in one case only: ValueError, when the armature
    and the chain are found and the world matrix of the mesh cannot be
    inverted. *)
Theorem mesh_run_raises_iff fuel self ctx e :
  execute fuel self ctx = Some (Raise e)
  ↔ e = ValueError
    ∧ ∃ arm_obj o0 chain,
        get_armature_object ctx = Some arm_obj
        ∧ active_object ctx = Some o0
        ∧ walk_chain (bones arm_obj) fuel (rootbone_enum self) = Some chain
        ∧ inverted (matrix_world o0) = None.
Proof.
  split.
  - intros Hrun.
    destruct (get_armature_object ctx) as [arm_obj|] eqn:Harm;
      [|unfold execute in Hrun; by rewrite Harm in Hrun].
    destruct (armature_has_active _ _ Harm) as [o0 Hact].
    destruct (walk_chain (bones arm_obj) fuel (rootbone_enum self)) as [chain|] eqn:Hwalk.
    + rewrite (execute_walked _ _ _ _ _ _ Harm Hact Hwalk) in Hrun.
      destruct (inverted (matrix_world o0)) as [imat|] eqn:Hinv.
      * destruct (replicate_ok arm_obj chain o0 imat Hinv) as (o' & Hok & _ & _).
        rewrite Hok in Hrun. done.
      * rewrite (replicate_singular _ _ _ Hinv) in Hrun. injection Hrun as <-.
        split; [done|]. by exists arm_obj, o0, chain.
    + unfold execute in Hrun. rewrite Harm in Hrun. cbn zeta in Hrun.
      destruct (bones arm_obj !! rootbone_enum self); [|done].
      by rewrite Hwalk in Hrun.
  - intros (-> & arm_obj & o0 & chain & Harm & Hact & Hwalk & Hinv).
    rewrite (execute_walked _ _ _ _ _ _ Harm Hact Hwalk).
    by rewrite (replicate_singular _ _ _ Hinv).
Qed.

(** X14.  The run returns CANCELLED in the two cases of its guards only, no
    armature object or no bone of the root's name, each with its own
    message, and then returns the context it was given. *)
Theorem mesh_run_cancels_iff fuel self ctx r ctx' :
  execute fuel self ctx = Some (Ok (CANCELLED, r, ctx'))
  ↔ ctx' = ctx
    ∧ ((get_armature_object ctx = None
        ∧ r = [(ERROR_INVALID_CONTEXT, "Could not find armature modifier or object")])
       ∨ (∃ arm_obj, get_armature_object ctx = Some arm_obj
                     ∧ bones arm_obj !! rootbone_enum self = None
                     ∧ r = [(ERROR_INVALID_CONTEXT,
                             "Could not find root bone " +:+ rootbone_enum self)])).
Proof.
  unfold execute. split.
  - intros Hrun. destruct (get_armature_object ctx) as [arm_obj|] eqn:Harm.
    + cbn zeta in Hrun. destruct (bones arm_obj !! rootbone_enum self) eqn:Hroot.
      * exfalso.
        destruct (walk_chain (bones arm_obj) fuel (rootbone_enum self)); [|done].
        cbn in Hrun. destruct (active_object ctx); cbn in Hrun; [|done].
        match type of Hrun with
        | context [bind ?m _] => destruct m; cbn in Hrun; done
        end.
      * injection Hrun as <- <-. split; [done|]. right. by exists arm_obj.
    + injection Hrun as <- <-. split; [done|]. by left.
  - intros [-> [[Harm ->]|(arm_obj & Harm & Hroot & ->)]]; rewrite Harm; [done|].
    cbn zeta. by rewrite Hroot.
Qed.

(** What a finished run has kept. *)
Lemma run_kept fuel self ctx r ctx' o0 :
  execute fuel self ctx = Some (Ok (FINISHED, r, ctx')) →
  active_object ctx = Some o0 →
  ∃ o', active_object ctx' = Some o'
        ∧ originals_kept o0 o'
        ∧ get_armature_object ctx' = get_armature_object ctx.
Proof.
  intros (arm_obj & chain & o0' & o' & Harm & Hwalk & Hact & Hrep & Hact')%run_finished Hact0.
  assert (o0' = o0) as -> by congruence.
  assert (Hk : originals_kept o0 o').
  { destruct (inverted (matrix_world o0)) as [imat|] eqn:Hinv.
    - destruct (replicate_ok arm_obj chain o0 imat Hinv) as (o'' & Hok & _ & Hk). congruence.
    - rewrite (replicate_singular _ _ _ Hinv) in Hrep. done. }
  exists o'. split_and!; [done|done|].
  unfold get_armature_object. rewrite Hact', Hact0.
  destruct Hk as (_ & -> & _). done.
Qed.

(** X15.  A finished run keeps the world matrix and the modifiers of the
    mesh object, so the same armature is found afterwards; the edges and
    faces there were stay where they were in their tables, and so do the
    vertices, with their coordinates and selection. *)
Theorem originals_are_kept fuel self ctx r ctx' o0 :
  execute fuel self ctx = Some (Ok (FINISHED, r, ctx')) →
  active_object ctx = Some o0 →
  ∃ o', active_object ctx' = Some o'
        ∧ originals_kept o0 o'
        ∧ get_armature_object ctx' = get_armature_object ctx.
Proof. apply run_kept. Qed.

Lemma remap_below base ids v :
  (v < base)%nat → (remap base ids v < base + length ids)%nat.
Proof.
  intros Hv. unfold remap. destruct (list_find _ ids) as [[k x]|] eqn:Hf; [|lia].
  apply list_find_Some in Hf as (Hk & _). apply lookup_lt_Some in Hk. lia.
Qed.

Lemma duplicate_wf m geom :
  mesh_wf m → mesh_wf (fst (duplicate m geom)).
Proof.
  intros [He Hf]. unfold duplicate, mesh_wf. cbn.
  set (ids := template_verts m geom).
  assert (Hlen : length (omap (λ i, verts m !! i) ids) = length ids).
  { apply length_omap_lookup. apply template_verts_below. }
  rewrite length_app, length_fmap, Hlen. split.
  - apply Forall_app. split.
    + eapply Forall_impl; [exact He|]. cbn. intros e [? ?]. lia.
    + apply Forall_forall. intros e (i & Hi & Hx)%list_elem_of_omap.
      destruct (edges m !! i) as [e0|] eqn:Hi0; [|done]. cbn in Hx. injection Hx as <-.
      destruct (Forall_lookup_1 _ _ _ _ He Hi0) as [? ?]. cbn.
      split; by apply remap_below.
  - apply Forall_app. split.
    + eapply Forall_impl; [exact Hf|]. cbn. intros f Hfv.
      eapply Forall_impl; [exact Hfv|]. cbn. intros; lia.
    + apply Forall_forall. intros f (i & Hi & Hx)%list_elem_of_omap.
      destruct (faces m !! i) as [f0|] eqn:Hi0; [|done]. cbn in Hx. injection Hx as <-.
      cbn. apply Forall_fmap. eapply Forall_impl; [exact (Forall_lookup_1 _ _ _ _ Hf Hi0)|].
      cbn. intros v Hv. by apply remap_below.
Qed.

Lemma assign_bone_verts_wf name vs o o' :
  assign_bone_verts name vs o = Ok o' → mesh_wf (bm o) → mesh_wf (bm o').
Proof.
  unfold assign_bone_verts. destruct (vertex_groups_get _ _); [|done].
  cbn. intros [= <-]. apply mesh_wf_same; cbn; try done. apply length_foldl_alter.
Qed.

Lemma selected_ids_zip {A} (l : list A) s i x :
  (i, x) ∈ zip (seq s (length l)) l ↔ (s ≤ i)%nat ∧ l !! (i - s)%nat = Some x.
Proof.
  revert s. induction l as [|a l IH]; intros s; cbn [length seq zip zip_with].
  - split; [by intros ?%elem_of_nil|by intros [_ ?]].
  - rewrite elem_of_cons, IH. split.
    + intros [[= -> ->]|[Hs Hx]].
      * split; [lia|]. by rewrite Nat.sub_diag.
      * split; [lia|]. replace (i - s)%nat with (S (i - S s)) by lia. done.
    + intros [Hs Hx]. destruct (decide (i = s)) as [->|Hne].
      * left. rewrite Nat.sub_diag in Hx. cbn in Hx. by injection Hx as ->.
      * right. split; [lia|]. replace (i - s)%nat with (S (i - S s)) in Hx by lia. done.
Qed.

Lemma elem_of_selected_ids {A} (sel : A → bool) (l : list A) t :
  t ∈ selected_ids sel l ↔ ∃ x, l !! t = Some x ∧ sel x = true.
Proof.
  unfold selected_ids. rewrite list_elem_of_fmap. split.
  - intros ([i x] & -> & [Hsel Hin]%list_elem_of_filter). cbn in *.
    apply selected_ids_zip in Hin as [_ Hx]. rewrite Nat.sub_0_r in Hx. by exists x.
  - intros (x & Hx & Hsel). exists (t, x). split; [done|].
    apply list_elem_of_filter. split; [done|]. apply selected_ids_zip.
    split; [lia|]. by rewrite Nat.sub_0_r.
Qed.

Lemma selected_ids_snoc {A} (sel : A → bool) (l : list A) x :
  selected_ids sel (l ++ [x])
  = selected_ids sel l ++ (if sel x then [length l] else []).
Proof.
  unfold selected_ids. rewrite length_app. cbn [length].
  rewrite seq_app. cbn [seq]. rewrite Nat.add_0_l.
  rewrite zip_with_app by (by rewrite length_seq).
  rewrite filter_app, fmap_app. f_equal.
  change (zip_with pair [length l] [x]) with [(length l, x)].
  destruct (sel x) eqn:Hx.
  - by rewrite filter_cons_True by done.
  - by rewrite filter_cons_False by (cbn; congruence).
Qed.

Lemma filter_ext_Forall {A} (P Q : A → Prop) `{!∀ x, Decision (P x), !∀ x, Decision (Q x)}
    (l : list A) :
  Forall (λ x, P x ↔ Q x) l → filter P l = filter Q l.
Proof.
  induction 1 as [|x l Hx _ IH]; [done|]. destruct (decide (P x)) as [HP|HP].
  - rewrite !filter_cons_True by tauto. by f_equal.
  - rewrite !filter_cons_False by tauto. done.
Qed.

Lemma flagged_selected_ids {A} (sel : A → bool) (l : list A) :
  flagged (length l) (selected_ids sel l) = selected_ids sel l.
Proof.
  induction l as [|x l IH] using rev_ind; [done|].
  unfold flagged in *. rewrite length_app. cbn [length].
  rewrite seq_app, filter_app. cbn [seq]. rewrite Nat.add_0_l.
  rewrite selected_ids_snoc. f_equal.
  - transitivity (filter (λ i, i ∈ selected_ids sel l) (seq 0 (length l))); [|exact IH].
    apply filter_ext_Forall. apply Forall_forall.
    intros i Hi%elem_of_seq. rewrite elem_of_app. split; [|by left].
    intros [?|Hin]; [done|]. destruct (sel x); [|by apply elem_of_nil in Hin].
    apply list_elem_of_singleton in Hin. lia.
  - destruct (sel x) eqn:Hx.
    + rewrite filter_cons_True; [done|]. apply elem_of_app. right. apply list_elem_of_here.
    + rewrite filter_cons_False; [done|]. rewrite app_nil_r.
      intros Hin. pose proof (selected_ids_below sel l) as Hb.
      rewrite Forall_forall in Hb. apply Hb in Hin. lia.
Qed.

Lemma first_mentions_seen (seen l : list nat) :
  (∀ x, x ∈ l → x ∈ seen) →
  foldl (λ seen i, if decide (i ∈ seen) then seen else seen ++ [i]) seen l = seen.
Proof.
  induction l as [|a l IH]; intros Hl; [done|]. cbn [foldl].
  rewrite decide_True by (apply Hl, list_elem_of_here).
  apply IH. intros x Hx. apply Hl. by apply list_elem_of_further.
Qed.

Lemma first_mentions_NoDup (seen l : list nat) :
  NoDup (seen ++ l) →
  foldl (λ seen i, if decide (i ∈ seen) then seen else seen ++ [i]) seen l = seen ++ l.
Proof.
  revert seen. induction l as [|a l IH]; intros seen Hnd; [by rewrite app_nil_r|].
  cbn [foldl]. rewrite decide_False.
  - rewrite IH; [by rewrite <- app_assoc|]. by rewrite <- app_assoc.
  - apply NoDup_app in Hnd as (_ & Hdisj & _). intros Ha. apply (Hdisj a Ha).
    apply list_elem_of_here.
Qed.

Lemma first_mentions_app (A B : list nat) :
  NoDup A → (∀ x, x ∈ B → x ∈ A) → first_mentions (A ++ B) = A.
Proof.
  intros Hnd HB. unfold first_mentions. rewrite foldl_app.
  rewrite (first_mentions_NoDup [] A) by done. cbn [app].
  by apply first_mentions_seen.
Qed.

Lemma selected_ids_NoDup {A} (sel : A → bool) (l : list A) : NoDup (selected_ids sel l).
Proof.
  induction l as [|x l IH] using rev_ind; [constructor|].
  rewrite selected_ids_snoc. apply NoDup_app. split_and!; [done| |].
  - intros i Hi Hin. destruct (sel x); [|by apply elem_of_nil in Hin].
    apply list_elem_of_singleton in Hin. pose proof (selected_ids_below sel l) as Hb.
    rewrite Forall_forall in Hb. apply Hb in Hi. lia.
  - destruct (sel x); [apply NoDup_singleton|constructor].
Qed.

(** When the vertices of every selected edge and face are selected, the
    vertices are copied in the order of the vertex table. *)
Lemma template_verts_table_order m :
  (∀ e, e ∈ edges m → e_select e = true →
     fst (e_verts e) ∈ selected_ids v_select (verts m)
     ∧ snd (e_verts e) ∈ selected_ids v_select (verts m)) →
  (∀ f, f ∈ faces m → f_select f = true →
     ∀ i, i ∈ f_verts f → i ∈ selected_ids v_select (verts m)) →
  template_verts m (selected_geom m) = selected_ids v_select (verts m).
Proof.
  intros He Hf. unfold template_verts, raw_ids.
  destruct (selected_geom_refs m) as (-> & -> & ->).
  rewrite !flagged_selected_ids.
  rewrite first_mentions_app.
  - apply filter_all. apply selected_ids_below.
  - apply selected_ids_NoDup.
  - intros x [Hx|Hx]%elem_of_app.
    + apply list_elem_of_bind in Hx as (i & Hx & Hi).
      apply elem_of_selected_ids in Hi as (e & Hi & Hsel).
      unfold edge_vert_ids in Hx. rewrite Hi in Hx.
      destruct (He e) as [H1 H2]; [by eapply list_elem_of_lookup_2|done|].
      apply elem_of_cons in Hx as [->|Hx]; [done|].
      by apply list_elem_of_singleton in Hx as ->.
    + apply list_elem_of_bind in Hx as (i & Hx & Hi).
      apply elem_of_selected_ids in Hi as (f & Hi & Hsel).
      unfold face_vert_ids in Hx. rewrite Hi in Hx.
      eapply Hf; [by eapply list_elem_of_lookup_2|done|done].
Qed.

Lemma foldl_alter_notin {A} (f : A → A) (l : list A) vs t :
  t ∉ vs → foldl (λ l i, alter f i l) l vs !! t = l !! t.
Proof.
  revert l. induction vs as [|i vs IH]; intros l Ht; [done|].
  apply not_elem_of_cons in Ht as [Hne Ht]. cbn [foldl].
  rewrite IH by done. by rewrite list_lookup_alter_ne.
Qed.

Lemma foldl_alter_proj {A B} (g : A → B) (f : A → A) (l : list A) vs t :
  (∀ x, g (f x) = g x) →
  g <$> foldl (λ l i, alter f i l) l vs !! t = g <$> l !! t.
Proof.
  intros Hg. revert l. induction vs as [|i vs IH]; intros l; [done|].
  cbn [foldl]. rewrite IH, list_lookup_alter.
  destruct (decide (i = t)) as [->|Hne]; [|done].
  destruct (l !! t); cbn; [by rewrite Hg|done].
Qed.

Lemma foldl_alter_Forall {A} (P : A → Prop) (f : A → A) (l : list A) vs :
  (∀ x, P x → P (f x)) → Forall P l → Forall P (foldl (λ l i, alter f i l) l vs).
Proof.
  intros Hf. revert l. induction vs as [|i vs IH]; intros l Hl; [done|].
  cbn [foldl]. apply IH. apply Forall_alter; [done|]. intros x _. apply Hf.
Qed.

Lemma dvert_set_below n idx w d :
  (idx < n)%nat → Forall (λ e, (fst e < n)%nat) d →
  Forall (λ e, (fst e < n)%nat) (dvert_set idx w d).
Proof.
  intros Hidx. induction 1 as [|[j x] d Hj Hd IH]; cbn.
  - by repeat constructor.
  - destruct (decide (j = idx)); constructor; done.
Qed.

Lemma weights_below_mono n n' V : (n ≤ n')%nat → weights_below n V → weights_below n' V.
Proof.
  intros Hn HV. unfold weights_below. eapply Forall_impl; [exact HV|]. intros v Hv.
  eapply Forall_impl; [exact Hv|]. cbn. intros e. lia.
Qed.

Lemma expected_dups_below n V T S p0 g rest :
  weights_below n V → (g + length rest ≤ n)%nat →
  weights_below n (expected_dups V T S p0 g rest).
Proof.
  intros HV. revert g. induction rest as [|bone rest IH]; intros g Hg; [constructor|].
  cbn [expected_dups length] in *. apply Forall_app. split.
  - unfold dup_verts. apply Forall_fmap. apply Forall_forall.
    intros v (t & _ & Ht)%list_elem_of_omap. cbn.
    apply dvert_set_below; [lia|].
    exact (Forall_lookup_1 _ _ _ _ HV Ht).
  - apply IH. lia.
Qed.

Lemma filter_notin_self (names : list string) :
  filter (λ g, g ∉ names) names = [].
Proof.
  assert (Hall : ∀ l, (∀ x, x ∈ l → x ∈ names) → filter (λ g, g ∉ names) l = []).
  { induction l as [|a l IH]; intros Hl; [done|].
    rewrite filter_cons_False by (intros Hn; apply Hn, Hl, list_elem_of_here).
    apply IH. intros x Hx. apply Hl. by apply list_elem_of_further. }
  by apply Hall.
Qed.

Lemma recreate_group_groups_ext o1 o2 bone :
  vertex_groups o1 = vertex_groups o2 →
  vertex_groups (recreate_group o1 bone) = vertex_groups (recreate_group o2 bone).
Proof.
  intros Heq. unfold recreate_group, vertex_groups_new. rewrite Heq.
  destruct (vertex_groups_get (vertex_groups o2) (fst bone)); cbn; by rewrite Heq.
Qed.

Lemma recreate_groups_ext chain o1 o2 :
  vertex_groups o1 = vertex_groups o2 →
  vertex_groups (foldl recreate_group o1 chain)
  = vertex_groups (foldl recreate_group o2 chain).
Proof.
  revert o1 o2. induction chain as [|bone chain IH]; intros o1 o2 Heq; [done|].
  cbn [foldl]. apply IH. by apply recreate_group_groups_ext.
Qed.

(** The vertex groups after the first loop. *)
Lemma recreate_groups_names (chain : list (string * Bone)) o :
  NoDup chain.*1 → NoDup (vertex_groups o) →
  vertex_groups (foldl recreate_group o chain) = kept_groups chain o ++ chain.*1.
Proof.
  intros Hc Hg.
  set (o_bare := set_bm {| verts := []; edges := edges (bm o); faces := faces (bm o) |} o).
  rewrite (recreate_groups_ext chain o o_bare) by done.
  destruct (recreate_groups_spec o_bare (vertex_groups o) [] chain) as (Hgs & _).
  - by rewrite app_nil_r.
  - by rewrite app_nil_r.
  - done.
  - intros x _. apply not_elem_of_nil.
  - constructor.
  - cbn zeta in Hgs. exact Hgs.
Qed.

Lemma recreate_group_mesh o bone :
  length (verts (bm (recreate_group o bone))) = length (verts (bm o))
  ∧ edges (bm (recreate_group o bone)) = edges (bm o)
  ∧ faces (bm (recreate_group o bone)) = faces (bm o).
Proof.
  unfold recreate_group, vertex_groups_new.
  destruct (vertex_groups_get (vertex_groups o) (fst bone)); cbn; [|done].
  by rewrite length_fmap.
Qed.

Lemma recreate_groups_wf chain o :
  mesh_wf (bm o) → mesh_wf (bm (foldl recreate_group o chain)).
Proof.
  revert o. induction chain as [|bone chain IH]; intros o Hwf; [done|].
  cbn [foldl]. apply IH. destruct (recreate_group_mesh o bone) as (Hl & He & Hf).
  by eapply mesh_wf_same.
Qed.

Lemma replicate_link_wf S geom p0 o bone o' :
  replicate_link S geom p0 o bone = Ok o' → mesh_wf (bm o) → mesh_wf (bm o').
Proof.
  unfold replicate_link. intros Hrun Hwf.
  pose proof (duplicate_wf (bm o) geom Hwf) as Hd.
  destruct (duplicate (bm o) geom) as [m dupli_geom]. cbn [fst] in Hd. cbn zeta in Hrun.
  apply assign_bone_verts_wf in Hrun; [done|]. cbn [bm set_bm].
  unfold translate. apply (mesh_wf_same m); cbn; try done. apply length_foldl_alter.
Qed.

Lemma replicate_links_wf S geom p0 rest o o' :
  for_each (replicate_link S geom p0) rest o = Ok o' → mesh_wf (bm o) → mesh_wf (bm o').
Proof.
  revert o. induction rest as [|bone rest IH]; intros o Hrun Hwf.
  - cbn in Hrun. by injection Hrun as <-.
  - cbn [for_each] in Hrun.
    destruct (replicate_link S geom p0 o bone) as [o1|] eqn:H1; [|done].
    cbn [bind] in Hrun. eapply IH; [done|]. by eapply replicate_link_wf.
Qed.

Lemma replicate_wf arm_obj chain o0 o' :
  replicate arm_obj chain o0 = Ok o' → mesh_wf (bm o0) → mesh_wf (bm o').
Proof.
  unfold replicate. intros Hrun Hwf.
  pose proof (recreate_groups_wf chain o0 Hwf) as Hwf1.
  destruct (inverted_exn _) as [imat|]; [|done]. cbn [bind] in Hrun.
  destruct chain as [|root rest]; [by injection Hrun as <-|].
  match type of Hrun with
  | bind ?m _ = _ => destruct m as [o2|] eqn:H2; [|done]
  end.
  cbn [bind] in Hrun. eapply assign_bone_verts_wf; [done|].
  by eapply replicate_links_wf.
Qed.

(** The vertex groups after [replicate]. *)
Lemma replicate_groups arm_obj chain o0 o' :
  replicate arm_obj chain o0 = Ok o' →
  NoDup chain.*1 → NoDup (vertex_groups o0) →
  vertex_groups o' = kept_groups chain o0 ++ chain.*1.
Proof.
  intros Hrun Hc Hg.
  destruct (inverted (matrix_world o0)) as [imat|] eqn:Hinv.
  - destruct (replicate_ok arm_obj chain o0 imat Hinv) as (o'' & Hok & Hgs & _).
    assert (o'' = o') as -> by congruence.
    rewrite Hgs. by apply recreate_groups_names.
  - rewrite (replicate_singular _ _ _ Hinv) in Hrun. done.
Qed.

Lemma replicate_object_wf arm_obj root rest o0 o' :
  replicate arm_obj (root :: rest) o0 = Ok o' →
  NoDup (root :: rest).*1 → object_wf o0 → object_wf o'.
Proof.
  intros Hrun Hchain (Hgroups & Hw & Hwf).
  destruct (replicate_spec arm_obj root rest o0 o' Hrun Hchain Hgroups Hw Hwf)
    as (imat & V1 & o_mid & Hinv & Hshape & Hbelow & Hgmid & Hvmid & Hassign & Hg' & Hv').
  cbn zeta in *.
  split_and!.
  - rewrite Hg', Hgmid. by apply kept_chain_NoDup.
  - unfold weights_wf. rewrite Hg', Hgmid, Hv', length_app.
    set (g0 := length (kept_groups (root :: rest) o0)) in *.
    rewrite fmap_cons, length_cons, length_fmap.
    apply Forall_app. split.
    + apply foldl_alter_Forall.
      * intros v Hv. cbn. apply dvert_set_below; [lia|done].
      * eapply weights_below_mono; [|done]. lia.
    + apply expected_dups_below; [|lia]. eapply weights_below_mono; [|done]. lia.
  - by eapply replicate_wf.
Qed.

(** X16.  A finished run on a well-formed mesh object leaves it well
    formed: group names are distinct, every deform weight refers to a
    group of the object, every edge and face to vertices of the mesh. *)
Theorem run_keeps_object_wf fuel self ctx r ctx' o0 :
  execute fuel self ctx = Some (Ok (FINISHED, r, ctx')) →
  active_object ctx = Some o0 →
  object_wf o0 →
  ∃ o', active_object ctx' = Some o' ∧ object_wf o'.
Proof.
  intros (arm_obj & chain & o0' & o' & Harm & Hwalk & Hact & Hrep & Hact')%run_finished
    Hact0 Hwf.
  assert (o0' = o0) as -> by congruence.
  exists o'. split; [done|].
  destruct (walk_chain_nonempty _ _ _ _ Hwalk) as (root & rest & -> & Hnd).
  by eapply replicate_object_wf.
Qed.

Lemma replicate_originals_weighted arm_obj root rest o0 o' :
  replicate arm_obj (root :: rest) o0 = Ok o' →
  NoDup (root :: rest).*1 → object_wf o0 →
  originals_weighted (root :: rest) o0 o'.
Proof.
  intros Hrun Hchain (Hgroups & Hw & Hwf).
  destruct (replicate_spec arm_obj root rest o0 o' Hrun Hchain Hgroups Hw Hwf)
    as (imat & V1 & o_mid & Hinv & Hshape & Hbelow & Hgmid & Hvmid & Hassign & Hg' & Hv').
  cbn zeta in *. unfold originals_weighted. cbn zeta.
  set (g0 := length (kept_groups (root :: rest) o0)) in *.
  intros t v Hv.
  destruct (Forall2_lookup_l _ _ _ _ _ Hshape Hv) as (v1 & Hv1 & Hco & Hsel).
  assert (Hlt : (t < length V1)%nat) by (by eapply lookup_lt_Some).
  assert (Hzero : ∀ j, weight (g0 + j) (dvert v1) = 0).
  { intros j. apply (weight_below g0); [|lia].
    exact (Forall_lookup_1 _ _ _ _ Hbelow Hv1). }
  assert (Hrefs : t ∈ vert_refs (selected_geom (bm o0)) ↔ v_select v = true).
  { destruct (selected_geom_refs (bm o0)) as (-> & _). rewrite elem_of_selected_ids.
    split; [intros (x & Hx & ?); by simplify_eq|intros ?; by exists v]. }
  rewrite Hv', lookup_app_l by (by rewrite length_foldl_alter).
  set (f := λ v : BMVert, set_dvert (dvert_set g0 1 (dvert v)) v) in *.
  destruct (foldl (λ l i, alter f i l) V1 (vert_refs (selected_geom (bm o0))) !! t)
    as [v'|] eqn:Hv'';
    [|apply lookup_ge_None in Hv''; rewrite length_foldl_alter in Hv''; lia].
  exists v'. split; [done|]. intros j Hj.
  destruct (decide (j = 0%nat)) as [->|Hj0].
  - rewrite Nat.add_0_r. destruct (decide (v_select v = true)) as [Hs|Hs].
    + rewrite decide_True by done.
      destruct (foldl_assign_sets g0 V1 (vert_refs (selected_geom (bm o0))) t)
        as (v'' & Hv3 & Hw3); [by apply Hrefs|done|].
      fold f in Hv3. by simplify_eq.
    + rewrite decide_False by (by intros [_ ?]).
      rewrite foldl_alter_notin in Hv'' by (by rewrite Hrefs).
      simplify_eq. by rewrite <- (Hzero 0%nat), Nat.add_0_r.
  - rewrite decide_False by (by intros [? _]).
    assert (Some (weight (g0 + j) (dvert v')) = Some (weight (g0 + j) (dvert v1))) as Heq.
    { pose proof (foldl_alter_proj (λ v, weight (g0 + j) (dvert v)) f V1
                    (vert_refs (selected_geom (bm o0))) t) as Hp.
      rewrite Hv'', Hv1 in Hp. apply Hp. intros x. unfold f. cbn [dvert set_dvert].
      rewrite weight_dvert_set. by rewrite decide_False by lia. }
    injection Heq as ->. apply Hzero.
Qed.

(** X17.  After a finished run on a well-formed mesh object, a vertex the
    mesh had before has weight 1 in the root's group if it was selected
    and 0 if not, and weight 0 in the group of every other bone of the
    chain: the weights it had in groups named after bones of the chain
    are gone. *)
Theorem originals_are_weighted fuel self ctx r ctx' o0 :
  execute fuel self ctx = Some (Ok (FINISHED, r, ctx')) →
  active_object ctx = Some o0 →
  object_wf o0 →
  ∃ arm_obj chain o',
    get_armature_object ctx = Some arm_obj
    ∧ walk_chain (bones arm_obj) fuel (rootbone_enum self) = Some chain
    ∧ active_object ctx' = Some o'
    ∧ originals_weighted chain o0 o'.
Proof.
  intros (arm_obj & chain & o0' & o' & Harm & Hwalk & Hact & Hrep & Hact')%run_finished
    Hact0 Hwf.
  assert (o0' = o0) as -> by congruence.
  exists arm_obj, chain, o'. split_and!; try done.
  destruct (walk_chain_nonempty _ _ _ _ Hwalk) as (root & rest & -> & Hnd).
  by eapply replicate_originals_weighted.
Qed.

(** X18.  A second run with the same root bone leaves the list of vertex
    groups as the first run left it. *)
Theorem second_run_keeps_groups fuel self ctx r ctx' r' ctx'' o0 :
  execute fuel self ctx = Some (Ok (FINISHED, r, ctx')) →
  execute fuel self ctx' = Some (Ok (FINISHED, r', ctx'')) →
  active_object ctx = Some o0 →
  NoDup (vertex_groups o0) →
  ∃ o' o'',
    active_object ctx' = Some o'
    ∧ active_object ctx'' = Some o''
    ∧ vertex_groups o'' = vertex_groups o'.
Proof.
  intros Hrun1 Hrun2 Hact0 Hnd.
  destruct (run_kept _ _ _ _ _ _ Hrun1 Hact0) as (o' & Hact1 & _ & Harm').
  apply run_finished in Hrun1
    as (arm_obj & chain & o0' & o1 & Harm & Hwalk & Hact & Hrep & Hact').
  apply run_finished in Hrun2
    as (arm_obj2 & chain2 & o1' & o2 & Harm2 & Hwalk2 & Hact2 & Hrep2 & Hact2').
  assert (o0' = o0) as -> by congruence.
  assert (o1 = o') as -> by congruence.
  assert (o1' = o') as -> by congruence.
  assert (arm_obj2 = arm_obj) as -> by congruence.
  assert (chain2 = chain) as -> by congruence.
  exists o', o2. split_and!; [done|done|].
  destruct (walk_chain_nonempty _ _ _ _ Hwalk) as (root & rest & Hchain & Hc).
  pose proof (replicate_groups _ _ _ _ Hrep Hc Hnd) as Hg1.
  assert (Hnd1 : NoDup (vertex_groups o')).
  { rewrite Hg1. by apply kept_chain_NoDup. }
  rewrite (replicate_groups _ _ _ _ Hrep2 Hc Hnd1), Hg1. f_equal.
  unfold kept_groups at 1. rewrite Hg1, filter_app, filter_notin_self, app_nil_r.
  unfold kept_groups. rewrite list_filter_filter. apply list_filter_iff. tauto.
Qed.

Lemma weight_remove_group k j d :
  j ≠ k →
  weight (if decide (k < j)%nat then Nat.pred j else j) (dvert_remove_group k d)
  = weight j d.
Proof.
  intros Hjk. unfold weight, dvert_get, dvert_remove_group.
  induction d as [|[i x] d IH]; [done|].
  destruct (decide (i = k)) as [->|Hik].
  - rewrite (filter_cons_False (λ e : nat * Qc, e.1 ≠ k))
      by (cbn; intros Hne; by apply Hne).
    cbn [find fst]. rewrite bool_decide_false by done. exact IH.
  - rewrite (filter_cons_True (λ e : nat * Qc, e.1 ≠ k)) by done.
    rewrite fmap_cons. cbn [find fst snd].
    destruct (decide (i = j)) as [->|Hij].
    + by rewrite !bool_decide_true.
    + rewrite (bool_decide_false (i = j)) by done.
      rewrite bool_decide_false; [exact IH|].
      destruct (decide (k < i)%nat), (decide (k < j)%nat); lia.
Qed.

Lemma recreate_group_NoDup o bone :
  NoDup (vertex_groups o) → NoDup (vertex_groups (recreate_group o bone)).
Proof.
  intros Hnd. unfold recreate_group, vertex_groups_new.
  destruct (vertex_groups_get (vertex_groups o) (fst bone)) as [k|]; cbn.
  - apply NoDup_app. split_and!.
    + eapply sublist_NoDup; [exact Hnd|apply sublist_delete].
    + intros x Hx ->%list_elem_of_singleton. revert Hx. apply unique_name_fresh.
    + apply NoDup_singleton.
  - apply NoDup_app. split_and!; [done| |apply NoDup_singleton].
    intros x Hx ->%list_elem_of_singleton. revert Hx. apply unique_name_fresh.
Qed.

Lemma recreate_group_carries o bone x j :
  x ≠ fst bone → vertex_groups o !! j = Some x →
  vertex_groups_get (vertex_groups o) x = Some j →
  ∃ j', vertex_groups (recreate_group o bone) !! j' = Some x
        ∧ ∀ t v, verts (bm o) !! t = Some v →
            ∃ v', verts (bm (recreate_group o bone)) !! t = Some v'
                  ∧ weight j' (dvert v') = weight j (dvert v).
Proof.
  intros Hx Hj Hget. unfold recreate_group, vertex_groups_new.
  destruct (vertex_groups_get (vertex_groups o) (fst bone)) as [k|] eqn:Hk; cbn.
  - apply vertex_groups_get_Some in Hk.
    assert (Hjk : j ≠ k) by (intros ->; congruence).
    exists (if decide (k < j)%nat then Nat.pred j else j). split.
    + assert (Hlt : (j < length (vertex_groups o))%nat) by (by eapply lookup_lt_Some).
      assert (Hklt : (k < length (vertex_groups o))%nat) by (by eapply lookup_lt_Some).
      rewrite lookup_app_l.
      * destruct (decide (k < j)%nat).
        -- rewrite list_lookup_delete_ge by lia. by replace (S (Nat.pred j)) with j by lia.
        -- by rewrite list_lookup_delete_lt by lia.
      * rewrite length_delete by (by eexists). destruct (decide (k < j)%nat); lia.
    + intros t v Hv. rewrite list_lookup_fmap, Hv. cbn. eexists. split; [done|].
      cbn. by apply weight_remove_group.
  - exists j. split; [by apply lookup_app_l_Some|]. intros t v Hv. by exists v.
Qed.

Lemma recreate_groups_carry (chain : list (string * Bone)) o x j :
  NoDup (vertex_groups o) → x ∉ chain.*1 → vertex_groups o !! j = Some x →
  ∃ j', vertex_groups (foldl recreate_group o chain) !! j' = Some x
        ∧ ∀ t v, verts (bm o) !! t = Some v →
            ∃ v', verts (bm (foldl recreate_group o chain)) !! t = Some v'
                  ∧ weight j' (dvert v') = weight j (dvert v).
Proof.
  revert o j. induction chain as [|bone chain IH]; intros o j Hnd Hx Hj.
  - exists j. split; [done|]. intros t v Hv. by exists v.
  - rewrite fmap_cons in Hx. apply not_elem_of_cons in Hx as [Hne Hx]. cbn [foldl].
    destruct (recreate_group_carries o bone x j Hne Hj) as (j1 & Hj1 & Hw1).
    { by apply vertex_groups_get_NoDup. }
    destruct (IH (recreate_group o bone) j1) as (j2 & Hj2 & Hw2);
      [by apply recreate_group_NoDup|done|done|].
    exists j2. split; [done|]. intros t v Hv.
    destruct (Hw1 t v Hv) as (v1 & Hv1 & Heq1).
    destruct (Hw2 t v1 Hv1) as (v2 & Hv2 & Heq2).
    exists v2. split; [done|congruence].
Qed.

(** The vertex table after [replicate], from the one after the first loop. *)
Lemma replicate_tables arm_obj root rest o0 o' :
  replicate arm_obj (root :: rest) o0 = Ok o' →
  NoDup (root :: rest).*1 → NoDup (vertex_groups o0) →
  weights_wf o0 → mesh_wf (bm o0) →
  let chain := root :: rest in
  let geom := selected_geom (bm o0) in
  let T := template_verts (bm o0) geom in
  let g0 := length (kept_groups chain o0) in
  let V1 := verts (bm (foldl recreate_group o0 chain)) in
  ∃ imat,
    inverted (matrix_world o0) = Some imat
    ∧ length V1 = length (verts (bm o0))
    ∧ vertex_groups o' = kept_groups chain o0 ++ chain.*1
    ∧ vertex_groups (foldl recreate_group o0 chain) = kept_groups chain o0 ++ chain.*1
    ∧ verts (bm o')
      = foldl (λ l i, alter (λ v, set_dvert (dvert_set g0 1 (dvert v)) v) i l)
              V1 (vert_refs geom)
        ++ expected_dups V1 T (mat_mul imat (arm_matrix_world arm_obj))
             (midpoint (snd root)) (Datatypes.S g0) rest.
Proof.
  intros Hrun Hchain Hgroups Hw Hwf chain geom T g0 V1.
  unfold replicate in Hrun. fold chain in Hrun, Hchain.
  destruct (recreate_groups_spec o0 (vertex_groups o0) [] chain)
    as (Hg1 & Hw1 & Hs1 & He1 & Hf1 & Hm1).
  { by rewrite app_nil_r. }
  { by rewrite app_nil_r. }
  { done. }
  { intros x _. apply not_elem_of_nil. }
  { exact Hw. }
  cbn zeta in Hg1, Hw1. cbn [app] in Hg1.
  fold (kept_groups chain o0) in Hg1, Hw1. fold g0 in Hw1.
  set (o1 := foldl recreate_group o0 chain) in *.
  assert (Hlen1 : length (verts (bm o1)) = length (verts (bm o0))).
  { symmetry. by eapply Forall2_length. }
  assert (Hgeom : selected_geom (bm o1) = geom).
  { by apply selected_geom_same_shape. }
  assert (Hwf1 : mesh_wf (bm o1)) by (by eapply mesh_wf_same).
  assert (Hvalid : geom_valid (bm o1) geom).
  { rewrite <- Hgeom. apply selected_geom_valid. }
  assert (HT : template_verts (bm o1) geom = T).
  { apply (template_verts_extend (bm o0) (bm o1) geom [] []).
    - done.
    - apply selected_geom_valid.
    - by rewrite app_nil_r.
    - by rewrite app_nil_r.
    - lia. }
  rewrite Hm1 in Hrun. unfold inverted_exn in Hrun.
  destruct (inverted (matrix_world o0)) as [imat|] eqn:Hinv; [|done].
  cbn [bind] in Hrun. rewrite Hgeom in Hrun.
  pose proof (kept_chain_NoDup chain o0 Hchain Hgroups) as Hnd.
  destruct (replicate_links_spec (bm o1) geom
              (mat_mul imat (arm_matrix_world arm_obj)) (midpoint (snd root))
              rest (Datatypes.S g0) o1 [] [] [] Hwf1 Hvalid)
    as (o2 & Ex2 & Fx2 & Hloop & Hv2 & He2 & Hf2 & Hg2 & Hm2).
  { by rewrite app_nil_r. }
  { by rewrite app_nil_r. }
  { by rewrite app_nil_r. }
  { intros j bone Hj. apply vertex_groups_get_NoDup; [by rewrite Hg1|].
    rewrite Hg1. unfold g0. rewrite lookup_app_r by lia.
    replace (Datatypes.S (length (kept_groups chain o0)) + j
             - length (kept_groups chain o0))%nat with (Datatypes.S j) by lia.
    unfold chain. rewrite fmap_cons. change (rest.*1 !! j = Some (fst bone)).
    by rewrite list_lookup_fmap, Hj. }
  rewrite Hloop in Hrun. cbn [bind] in Hrun. rewrite HT in Hv2. cbn [app] in Hv2.
  unfold assign_bone_verts in Hrun.
  assert (Hroot : vertex_groups_get (vertex_groups o2) (fst root) = Some g0).
  { apply vertex_groups_get_NoDup; [by rewrite Hg2, Hg1|].
    rewrite Hg2, Hg1. unfold g0. rewrite lookup_app_r by lia.
    by rewrite Nat.sub_diag. }
  rewrite Hroot in Hrun. cbn in Hrun. injection Hrun as <-. cbn.
  exists imat. split_and!; try done.
  - by rewrite Hg2, Hg1.
  - rewrite Hv2. apply foldl_alter_prefix. by destruct Hvalid.
Qed.

Lemma replicate_other_weights arm_obj root rest o0 o' :
  replicate arm_obj (root :: rest) o0 = Ok o' →
  NoDup (root :: rest).*1 → object_wf o0 →
  other_weights_carried (root :: rest) o0 o'.
Proof.
  intros Hrun Hchain (Hgroups & Hw & Hwf).
  destruct (replicate_tables arm_obj root rest o0 o' Hrun Hchain Hgroups Hw Hwf)
    as (imat & _ & Hlen & Hg' & Hg1 & Hv').
  cbn zeta in *. unfold other_weights_carried. cbn zeta.
  set (chain := root :: rest) in *.
  set (g0 := length (kept_groups chain o0)) in *.
  set (o1 := foldl recreate_group o0 chain) in *.
  set (T := template_verts (bm o0) (selected_geom (bm o0))) in *.
  set (f := λ v : BMVert, set_dvert (dvert_set g0 1 (dvert v)) v) in *.
  intros name j Hname Hget.
  destruct (recreate_groups_carry chain o0 name j Hgroups Hname) as (j' & Hj' & Hcarry).
  { by apply vertex_groups_get_Some. }
  fold o1 in Hj', Hcarry.
  assert (Hlt : (j' < g0)%nat).
  { rewrite Hg1 in Hj'. destruct (decide (j' < g0)%nat) as [|Hge]; [done|exfalso].
    rewrite lookup_app_r in Hj' by (fold g0; lia).
    apply Hname. by eapply list_elem_of_lookup_2. }
  exists j'. split_and!.
  - apply vertex_groups_get_NoDup; [rewrite Hg'; by apply kept_chain_NoDup|].
    by rewrite Hg', <- Hg1.
  - intros t v Hv. destruct (Hcarry t v Hv) as (v1 & Hv1 & Heq).
    assert (Ht : (t < length (verts (bm o1)))%nat) by (by eapply lookup_lt_Some).
    rewrite Hv', lookup_app_l by (by rewrite length_foldl_alter).
    pose proof (foldl_alter_proj (λ v, weight j' (dvert v)) f (verts (bm o1))
                  (vert_refs (selected_geom (bm o0))) t) as Hp.
    rewrite Hv1 in Hp.
    destruct (foldl (λ l i, alter f i l) (verts (bm o1))
                (vert_refs (selected_geom (bm o0))) !! t) as [v'|] eqn:Hv'';
      [|apply lookup_ge_None in Hv''; rewrite length_foldl_alter in Hv''; lia].
    exists v'. split; [done|]. rewrite <- Heq.
    assert (Some (weight j' (dvert v')) = Some (weight j' (dvert v1))) as Hs.
    { apply Hp. intros x. unfold f. cbn [dvert set_dvert]. rewrite weight_dvert_set.
      by rewrite decide_False by lia. }
    by injection Hs.
  - intros i k t v Hi Hk Hv. destruct (Hcarry t v Hv) as (v1 & Hv1 & Heq).
    destruct i as [|i]; [lia|].
    destruct (lookup_lt_is_Some_2 rest i) as [bone Hbone];
      [unfold chain in Hi; cbn in Hi; lia|].
    assert (HT : Forall (λ i, (i < length (verts (bm o1)))%nat) T).
    { rewrite Hlen. apply template_verts_below. }
    eexists. split.
    + unfold dup_index. rewrite Hv'.
      replace (S i - 1)%nat with i by lia.
      remember (i * length T)%nat as off eqn:Hoff.
      rewrite lookup_app_r by (rewrite length_foldl_alter; lia).
      rewrite length_foldl_alter.
      replace (length (verts (bm o0)) + off + k - length (verts (bm o1)))%nat
        with (off + k)%nat by lia.
      subst off. by apply (expected_dups_lookup _ T _ _ _ rest i k t bone v1).
    + unfold dup_vert. cbn [dvert set_dvert set_co]. rewrite weight_dvert_set.
      rewrite decide_False by lia. done.
Qed.

(** X19.  After a finished run on a well-formed mesh object, a vertex
    group that is not named after a bone of the chain is still there,
    under an index that may have changed; every vertex the mesh had has
    in it the weight it had, and every vertex of a copy has in it the
    weight of the template vertex it was copied from. *)
Theorem other_weights_are_carried fuel self ctx r ctx' o0 :
  execute fuel self ctx = Some (Ok (FINISHED, r, ctx')) →
  active_object ctx = Some o0 →
  object_wf o0 →
  ∃ arm_obj chain o',
    get_armature_object ctx = Some arm_obj
    ∧ walk_chain (bones arm_obj) fuel (rootbone_enum self) = Some chain
    ∧ active_object ctx' = Some o'
    ∧ other_weights_carried chain o0 o'.
Proof.
  intros (arm_obj & chain & o0' & o' & Harm & Hwalk & Hact & Hrep & Hact')%run_finished
    Hact0 Hwf.
  assert (o0' = o0) as -> by congruence.
  exists arm_obj, chain, o'. split_and!; try done.
  destruct (walk_chain_nonempty _ _ _ _ Hwalk) as (root & rest & -> & Hnd).
  by eapply replicate_other_weights.
Qed.

End WithHost.

Lemma demo_mesh_run :
  execute (H := simple_host) 4 demo_mesh_op demo_mesh_ctx
  = Some (Ok (FINISHED, [], {| active_object := Some demo_mesh_1 |})).
Proof. vm_compute. reflexivity. Qed.

Lemma demo_mesh_groups : NoDup (vertex_groups demo_mesh).
Proof. apply (bool_decide_unpack _). vm_compute. exact I. Qed.

Lemma demo_mesh_weights : weights_wf demo_mesh.
Proof.
  unfold weights_wf, weights_below. apply (bool_decide_unpack _). vm_compute. exact I.
Qed.

Lemma demo_mesh_wf : mesh_wf (bm demo_mesh).
Proof. unfold mesh_wf. apply (bool_decide_unpack _). vm_compute. exact I. Qed.

Lemma mesh_is_replicated_witness :
  ∃ arm_obj chain o',
    get_armature_object demo_mesh_ctx = Some arm_obj
    ∧ walk_chain (bones arm_obj) 4 (rootbone_enum demo_mesh_op) = Some chain
    ∧ active_object {| active_object := Some demo_mesh_1 |} = Some o'
    ∧ replicated chain demo_mesh o'.
Proof.
  apply (mesh_is_replicated (H := simple_host) 4 demo_mesh_op demo_mesh_ctx []).
  - vm_compute. reflexivity.
  - reflexivity.
  - apply (bool_decide_unpack _). vm_compute. exact I.
  - unfold weights_wf, weights_below. apply (bool_decide_unpack _). vm_compute. exact I.
  - unfold mesh_wf. apply (bool_decide_unpack _). vm_compute. exact I.
Defined.


(** On [scaled_mesh] the first vertex of the copy made for bone "A" is the
    copy of the first selected vertex, although the edge names the second
    one first, and it is moved by (0, 4, 0): [p_A - p_0 = (0, 2, 0)] mapped
    by the inverse of [bone_space], which halves lengths. *)
Lemma scaled_copy_moved :
  template_verts (bm scaled_mesh) (selected_geom (bm scaled_mesh)) = [0; 1]%nat
  ∧ co <$> verts (bm scaled_mesh_1) !! 0%nat = Some (Vec (Q2Qc 5) 0 0)
  ∧ co <$> verts (bm scaled_mesh_1) !! 3%nat = Some (Vec (Q2Qc 5) (Q2Qc 4) 0).
Proof. split_and!; vm_compute; reflexivity. Qed.

Lemma missing_armature_or_root_cancels_witness :
  ∃ msg, execute (H := simple_host) 4 demo_mesh_op bare_mesh_ctx
         = Some (Ok (CANCELLED, [(ERROR_INVALID_CONTEXT, msg)], bare_mesh_ctx)).
Proof.
  apply (missing_armature_or_root_cancels (H := simple_host) 4 demo_mesh_op bare_mesh_ctx).
  left. vm_compute. reflexivity.
Defined.

(** The run on [demo_mesh], read back from what a claim about it gives. *)
Lemma demo_mesh_run_inv arm_obj chain o' :
  get_armature_object demo_mesh_ctx = Some arm_obj →
  walk_chain (bones arm_obj) 4 (rootbone_enum demo_mesh_op) = Some chain →
  active_object {| active_object := Some demo_mesh_1 |} = Some o' →
  arm_obj = demo_arm_obj ∧ chain = demo_chain ∧ o' = demo_mesh_1.
Proof.
  intros Harm Hwalk Hact.
  assert (Some demo_arm_obj = Some arm_obj) as Ha.
  { rewrite <- Harm. vm_compute. reflexivity. }
  apply (inj Some) in Ha. subst arm_obj.
  assert (Some demo_chain = Some chain) as Hc.
  { rewrite <- Hwalk. vm_compute. reflexivity. }
  apply (inj Some) in Hc. subst chain.
  cbn in Hact. apply (inj Some) in Hact. by subst o'.
Qed.

(** C1 as stated fails: the first selected vertex of [demo_mesh] has weight
    1/2 in the group "Extra", which is named after no bone; its copy for
    bone "A" has weight 1/2 in "Extra" as well, so the weights of the copy
    are not zero in all groups but that of "A". *)
Lemma copy_weights_not_exclusive :
  ¬ (∀ (H : Host) fuel self ctx r ctx' o0,
       execute fuel self ctx = Some (Ok (FINISHED, r, ctx')) →
       active_object ctx = Some o0 →
       NoDup (vertex_groups o0) → weights_wf o0 → mesh_wf (bm o0) →
       ∃ arm_obj chain o',
         get_armature_object ctx = Some arm_obj
         ∧ walk_chain (bones arm_obj) fuel (rootbone_enum self) = Some chain
         ∧ active_object ctx' = Some o'
         ∧ replicated chain o0 o' ∧ exclusive chain o0 o').
Proof.
  intros Hall.
  destruct (Hall simple_host 4%nat demo_mesh_op demo_mesh_ctx []
              {| active_object := Some demo_mesh_1 |} demo_mesh
              demo_mesh_run eq_refl demo_mesh_groups demo_mesh_weights demo_mesh_wf)
    as (arm_obj & chain & o' & Harm & Hwalk & Hact & _ & Hex).
  destruct (demo_mesh_run_inv _ _ _ Harm Hwalk Hact) as (-> & -> & ->).
  unfold exclusive in Hex. cbn zeta in Hex.
  pose (v := default {| co := vzero; v_select := false; dvert := [] |}
               (verts (bm demo_mesh_1) !! 3%nat)).
  assert (Hw : weight 0 (dvert v) = 0).
  { apply (Hex 1%nat 0%nat v 0%nat).
    - vm_compute. lia.
    - vm_compute. lia.
    - vm_compute. reflexivity.
    - vm_compute. lia. }
  apply (f_equal this) in Hw. vm_compute in Hw. discriminate.
Qed.


Lemma armature_of_first_armature_modifier_witness :
  ∃ ob k m,
    active_object demo_mesh_ctx = Some ob
    ∧ modifiers ob !! k = Some m
    ∧ mod_type m = ARMATURE
    ∧ mod_object m = Some demo_arm_obj
    ∧ ∀ j m', (j < k)%nat → modifiers ob !! j = Some m' → mod_type m' ≠ ARMATURE.
Proof.
  apply (proj1 (armature_of_first_armature_modifier demo_mesh_ctx demo_arm_obj)).
  vm_compute. reflexivity.
Defined.

Lemma rootbone_items_are_deform_bones_witness :
  ∃ items, rootbone_items demo_mesh_ctx = Some items
           ∧ (rootbone_enum demo_mesh_op, rootbone_enum demo_mesh_op, EmptyString) ∈ items.
Proof.
  apply (proj2 (rootbone_items_are_deform_bones demo_mesh_op demo_mesh_ctx)).
  exists demo_arm_obj, (demo_bone (Vec 0 0 0) (Vec 0 (Q2Qc 2) 0) ["A"; "Side"]).
  split_and!; [vm_compute; reflexivity|vm_compute; reflexivity|reflexivity].
Defined.

Lemma mesh_run_finishes_witness :
  ∃ ctx', execute (H := simple_host) 4 demo_mesh_op demo_mesh_ctx
          = Some (Ok (FINISHED, [], ctx')).
Proof.
  apply (mesh_run_finishes (H := simple_host) 4 demo_mesh_op demo_mesh_ctx
           demo_arm_obj demo_mesh demo_chain mat_identity).
  - vm_compute. reflexivity.
  - reflexivity.
  - vm_compute. reflexivity.
  - exact inverted_identity.
Defined.

Lemma mesh_run_raises_iff_witness :
  execute (H := simple_host) 4 demo_mesh_op flat_mesh_ctx = Some (Raise ValueError).
Proof.
  apply (proj2 (mesh_run_raises_iff (H := simple_host) 4 demo_mesh_op flat_mesh_ctx
                  ValueError)).
  split; [reflexivity|]. exists demo_arm_obj, flat_mesh, demo_chain.
  split_and!; [vm_compute; reflexivity|reflexivity|vm_compute; reflexivity|
               vm_compute; reflexivity].
Defined.

Lemma mesh_run_cancels_iff_witness :
  execute (H := simple_host) 4 stray_mesh_op demo_mesh_ctx
  = Some (Ok (CANCELLED, [(ERROR_INVALID_CONTEXT, "Could not find root bone Tail")],
              demo_mesh_ctx)).
Proof.
  apply (proj2 (mesh_run_cancels_iff (H := simple_host) 4 stray_mesh_op demo_mesh_ctx
                  _ demo_mesh_ctx)).
  split; [reflexivity|]. right. exists demo_arm_obj.
  split_and!; [vm_compute; reflexivity|vm_compute; reflexivity|reflexivity].
Defined.

Lemma originals_are_kept_witness :
  ∃ o', active_object demo_mesh_ctx_1 = Some o'
        ∧ originals_kept demo_mesh o'
        ∧ get_armature_object demo_mesh_ctx_1 = get_armature_object demo_mesh_ctx.
Proof.
  apply (originals_are_kept (H := simple_host) 4 demo_mesh_op demo_mesh_ctx []).
  - vm_compute. reflexivity.
  - reflexivity.
Defined.

Lemma run_keeps_object_wf_witness :
  ∃ o', active_object demo_mesh_ctx_1 = Some o' ∧ object_wf o'.
Proof.
  apply (run_keeps_object_wf (H := simple_host) 4 demo_mesh_op demo_mesh_ctx []
           demo_mesh_ctx_1 demo_mesh).
  - vm_compute. reflexivity.
  - reflexivity.
  - unfold object_wf, weights_wf, weights_below, mesh_wf.
    apply (bool_decide_unpack _). vm_compute. exact I.
Defined.

Lemma originals_are_weighted_witness :
  ∃ arm_obj chain o',
    get_armature_object demo_mesh_ctx = Some arm_obj
    ∧ walk_chain (bones arm_obj) 4 (rootbone_enum demo_mesh_op) = Some chain
    ∧ active_object demo_mesh_ctx_1 = Some o'
    ∧ originals_weighted chain demo_mesh o'.
Proof.
  apply (originals_are_weighted (H := simple_host) 4 demo_mesh_op demo_mesh_ctx []).
  - vm_compute. reflexivity.
  - reflexivity.
  - unfold object_wf, weights_wf, weights_below, mesh_wf.
    apply (bool_decide_unpack _). vm_compute. exact I.
Defined.

Lemma second_run_keeps_groups_witness :
  ∃ o' o'',
    active_object demo_mesh_ctx_1 = Some o'
    ∧ active_object {| active_object := Some demo_mesh_2 |} = Some o''
    ∧ vertex_groups o'' = vertex_groups o'.
Proof.
  apply (second_run_keeps_groups (H := simple_host) 4 demo_mesh_op demo_mesh_ctx []
           demo_mesh_ctx_1 [] _ demo_mesh).
  - vm_compute. reflexivity.
  - vm_compute. reflexivity.
  - reflexivity.
  - apply (bool_decide_unpack _). vm_compute. exact I.
Defined.

Lemma other_weights_are_carried_witness :
  ∃ arm_obj chain o',
    get_armature_object scaled_mesh_ctx = Some arm_obj
    ∧ walk_chain (bones arm_obj) 4 (rootbone_enum demo_mesh_op) = Some chain
    ∧ active_object scaled_mesh_ctx_1 = Some o'
    ∧ other_weights_carried chain scaled_mesh o'.
Proof.
  apply (other_weights_are_carried (H := simple_host) 4 demo_mesh_op scaled_mesh_ctx []).
  - vm_compute. reflexivity.
  - reflexivity.
  - unfold object_wf, weights_wf, weights_below, mesh_wf.
    apply (bool_decide_unpack _). vm_compute. exact I.
Defined.

End CreateChainMeshArrayProofs.
